(** * xv6 (2020 labs): per-CPU page allocator and bucketed buffer cache

    Shallow embedding of [kernel/kalloc.c] and [kernel/bio.c].

    Machine integers are [Z] with the wrap-around written out; pointers
    into the buffer pool are indices ([option nat], [None] is the null
    pointer); physical memory is a function from addresses to bytes, and
    a free page stores its list link in its own first eight bytes, as in
    the source.

    Calls run one at a time.  The allocator records what it does to its
    spinlocks as a trace of events; in the buffer cache the spinlocks
    only serialize the bookkeeping and are left out, while the
    sleep-lock of a descriptor is a flag, and a call that finds it set
    ends with its caller asleep.  A null or out-of-bounds access ends a
    call with a fault, a loop that would not end with a divergence; both
    are shown not to occur where the source relies on it. *)

From Stdlib Require Import ZArith Lia String.
From stdpp Require Import base list.

(** ** Physical page allocator: kernel/kalloc.c *)

Module Kalloc.

Local Open Scope Z_scope.

(** [PGSIZE] comes from riscv.h; kalloc.c itself documents the value
    ("Allocates whole 4096-byte pages"). *)
Definition PGSIZE : Z := 4096.

(** Physical memory, byte addressed. *)
Definition memory := Z -> Z.

(** [memset(dst, c, n)]: the fill value is converted to unsigned char. *)
Definition memset (m : memory) (dst c n : Z) : memory :=
  fun a => if (dst <=? a) && (a <? dst + n) then c mod 256 else m a.

(** A [struct run *] is a 64-bit little-endian word (RISC-V). *)
Fixpoint store_bytes (m : memory) (a : Z) (n : nat) (v : Z) : memory :=
  match n with
  | O => m
  | S n' =>
      store_bytes (fun x => if x =? a then v mod 256 else m x)
                  (a + 1) n' (v / 256)
  end.

Fixpoint load_bytes (m : memory) (a : Z) (n : nat) : Z :=
  match n with
  | O => 0
  | S n' => m a + 256 * load_bytes m (a + 1) n'
  end.

(** [r->next = v] and [r->next] for [struct run *r]. *)
Definition store64 (m : memory) (a v : Z) : memory := store_bytes m a 8 v.
Definition load64 (m : memory) (a : Z) : Z := load_bytes m a 8.

(** [struct { struct spinlock lock; struct run *freelist; } mem[NCPU]]
    together with the memory the lists are threaded through.  A null
    [freelist] is [0]. *)
Record kmem := Kmem {
  ram : memory;
  freelist : list Z
}.

(** What a call does to preemption and to the allocator spinlocks, in
    program order. *)
Inductive event :=
| PushOff
| PopOff
| Acquire (i : nat)
| Release (i : nat).

Inductive result (A : Type) :=
| Done (a : A)
| Panic (msg : string)
| Fault.
Arguments Done {A} a.
Arguments Panic {A} msg.
Arguments Fault {A}.

(** Prefix the events of a continuation with those already performed. *)
Definition emit {A} (evs : list event) (r : result (A * list event))
  : result (A * list event) :=
  match r with
  | Done (a, tr) => Done (a, evs ++ tr)
  | Panic msg => Panic msg
  | Fault => Fault
  end.

Section Allocator.

(** [end] (first address after the kernel, from kernel.ld), [PHYSTOP]
    (memlayout.h) and [NCPU] (param.h) are build-time constants. *)
Variables (kend PHYSTOP : Z) (NCPU : nat).

(** [kfree(pa)] on the CPU whose [cpuid()] is [id]. *)
Definition kfree (id : nat) (st : kmem) (pa : Z) : result (kmem * list event) :=
  if negb (pa mod PGSIZE =? 0) || (pa <? kend) || (PHYSTOP <=? pa)
  then Panic "kfree"
  else
    let m1 := memset (ram st) pa 1 PGSIZE in
    match freelist st !! id with
    | None => Fault
    | Some head =>
        Done ({| ram := store64 m1 pa head;
                 freelist := <[id := pa]> (freelist st) |},
              [PushOff; Acquire id; Release id; PopOff])
    end.

(** The [for(; p + PGSIZE <= pa_end; p += PGSIZE) kfree(p)] loop of
    [freerange], [n] pages starting at [p]. *)
Fixpoint free_pages (id : nat) (st : kmem) (p : Z) (n : nat)
  : result (kmem * list event) :=
  match n with
  | O => Done (st, [])
  | S n' =>
      match kfree id st p with
      | Done (st', tr) => emit tr (free_pages id st' (p + PGSIZE) n')
      | Panic msg => Panic msg
      | Fault => Fault
      end
  end.

Definition PGROUNDUP (sz : Z) : Z := (sz + PGSIZE - 1) / PGSIZE * PGSIZE.

Definition freerange (id : nat) (st : kmem) (pa_start pa_end : Z)
  : result (kmem * list event) :=
  let p := PGROUNDUP pa_start in
  free_pages id st p (Z.to_nat ((pa_end - p) / PGSIZE)).

(** [kinit()] on the CPU that boots: every page of [end, PHYSTOP) goes
    to that CPU's list. *)
Definition kinit (id : nat) (st : kmem) : result (kmem * list event) :=
  freerange id st kend PHYSTOP.

(** The stealing loop of [kalloc]: [for(int i = 0; i < NCPU; i++)], the
    indices still to visit in [cpus]; [r] is the local of that name. *)
Fixpoint steal (id : nat) (cpus : list nat) (st : kmem) (r : Z)
  : result (Z * kmem * list event) :=
  match cpus with
  | [] => Done (r, st, [PopOff])
  | i :: rest =>
      if (id =? i)%nat then steal id rest st r
      else
        match freelist st !! i with
        | None => Fault
        | Some r' =>
            if r' =? 0
            then emit [Acquire i; Release i] (steal id rest st r')
            else
              Done (r',
                    {| ram := memset (ram st) r' 5 PGSIZE;
                       freelist := <[i := load64 (ram st) r']> (freelist st) |},
                    [Acquire i; Release i; PopOff])
        end
  end.

(** [kalloc()] on the CPU whose [cpuid()] is [id]; the result [0] is the
    null pointer. *)
Definition kalloc (id : nat) (st : kmem) : result (Z * kmem * list event) :=
  match freelist st !! id with
  | None => Fault
  | Some r =>
      if r =? 0
      then emit [PushOff; Acquire id; Release id] (steal id (seq 0 NCPU) st r)
      else
        Done (r,
              {| ram := memset (ram st) r 5 PGSIZE;
                 freelist := <[id := load64 (ram st) r]> (freelist st) |},
              [PushOff; Acquire id; Release id; PopOff])
  end.

End Allocator.

(** Lock discipline read off a trace: [held] is the allocator lock held
    so far; acquiring while one is held, or releasing another one than
    the one held, is rejected. *)
Fixpoint one_lock_at_a_time (held : option nat) (tr : list event) : bool :=
  match tr with
  | [] => true
  | Acquire i :: tr' =>
      match held with
      | None => one_lock_at_a_time (Some i) tr'
      | Some _ => false
      end
  | Release i :: tr' =>
      match held with
      | Some j => (i =? j)%nat && one_lock_at_a_time None tr'
      | None => false
      end
  | _ :: tr' => one_lock_at_a_time held tr'
  end.

(** The peers of [id] below [n], in the order the loop visits them. *)
Definition peers (id n : nat) : list nat :=
  filter (fun i => i ≠ id) (seq 0 n).

End Kalloc.

(** ** Buffer cache: kernel/bio.c *)

Module Bio.

Local Open Scope Z_scope.

Definition UINT32_MAX : Z := 4294967295.

(** Arithmetic on [uint] wraps modulo 2^32. *)
Definition uint (z : Z) : Z := z mod 2 ^ 32.

(** [struct buf] (buf.h), the fields bio.c uses.  [next] is the chain
    pointer, an index into [bcache.buf]; [locked] is the [locked] word of
    the descriptor's sleep-lock. *)
Record buf := Buf {
  valid : Z;
  dev : Z;
  blockno : Z;
  locked : bool;
  refcnt : Z;
  next : option nat;
  time_stamp : Z
}.

Definition set_valid (v : Z) (b : buf) : buf :=
  Buf v (dev b) (blockno b) (locked b) (refcnt b) (next b) (time_stamp b).
Definition set_dev (v : Z) (b : buf) : buf :=
  Buf (valid b) v (blockno b) (locked b) (refcnt b) (next b) (time_stamp b).
Definition set_blockno (v : Z) (b : buf) : buf :=
  Buf (valid b) (dev b) v (locked b) (refcnt b) (next b) (time_stamp b).
Definition set_locked (v : bool) (b : buf) : buf :=
  Buf (valid b) (dev b) (blockno b) v (refcnt b) (next b) (time_stamp b).
Definition set_refcnt (v : Z) (b : buf) : buf :=
  Buf (valid b) (dev b) (blockno b) (locked b) v (next b) (time_stamp b).
Definition set_next (v : option nat) (b : buf) : buf :=
  Buf (valid b) (dev b) (blockno b) (locked b) (refcnt b) v (time_stamp b).
Definition set_time_stamp (v : Z) (b : buf) : buf :=
  Buf (valid b) (dev b) (blockno b) (locked b) (refcnt b) (next b) v.

(** Static storage starts zeroed. *)
Definition zero_buf : buf := Buf 0 0 0 false 0 None 0.

(** [bcache.buf[NBUF]], [bucket[NBUCKET].head.next], and the calls made
    to the disk driver, [virtio_disk_rw(b, write)], latest first. *)
Record bcache := Bcache {
  bufs : list buf;
  heads : list (option nat);
  disk_io : list (nat * bool)
}.

Definition upd (st : bcache) (b : nat) (f : buf -> buf) : bcache :=
  Bcache (alter f b (bufs st)) (heads st) (disk_io st).

Definition set_head (st : bcache) (k : nat) (v : option nat) : bcache :=
  Bcache (bufs st) (<[k := v]> (heads st)) (disk_io st).

Definition virtio_disk_rw (st : bcache) (b : nat) (write : bool) : bcache :=
  Bcache (bufs st) (heads st) ((b, write) :: disk_io st).

(** A [struct buf *] used only for its [next] field: the list head of a
    bucket, or a descriptor of the pool. *)
Inductive link :=
| HeadOf (k : nat)
| BufAt (b : nat).

Definition link_next (st : bcache) (p : link) : option (option nat) :=
  match p with
  | HeadOf k => heads st !! k
  | BufAt b => next <$> bufs st !! b
  end.

Definition link_set_next (st : bcache) (p : link) (v : option nat) : bcache :=
  match p with
  | HeadOf k => set_head st k v
  | BufAt b => upd st b (set_next v)
  end.

(** How a call ends.  [Sleeps]: the caller is blocked in [acquiresleep]
    on descriptor [b], the bookkeeping already done; [Fault]: a null or
    out-of-bounds access; [Diverges]: a loop that never exits. *)
Inductive outcome (A : Type) :=
| Ret (st : bcache) (a : A)
| Sleeps (st : bcache) (b : nat)
| Panic (msg : string)
| Fault
| Diverges.
Arguments Ret {A} st a.
Arguments Sleeps {A} st b.
Arguments Panic {A} msg.
Arguments Fault {A}.
Arguments Diverges {A}.

(** How a chain walk ends. *)
Inductive loop (A : Type) :=
| Exit (a : A)
| Crash
| Spin.
Arguments Exit {A} a.
Arguments Crash {A}.
Arguments Spin {A}.

(** [for(b = bucket[id].head.next; b != 0; b = b->next)
      if(b->dev == dev && b->blockno == blockno) ...] *)
Fixpoint scan_hit (fuel : nat) (bs : list buf) (b : option nat)
    (dv bn : Z) : loop (option nat) :=
  match fuel with
  | O => Spin
  | S fuel' =>
      match b with
      | None => Exit None
      | Some i =>
          match bs !! i with
          | None => Crash
          | Some bf =>
              if (dev bf =? dv) && (blockno bf =? bn) then Exit (Some i)
              else scan_hit fuel' bs (next bf) dv bn
          end
      end
  end.

(** [for(b = bucket[id].head.next; b != 0; b = b->next)
      if(b->refcnt == 0 && b->time_stamp < nowmin){ ans = b; nowmin = ...}] *)
Fixpoint scan_lru (fuel : nat) (bs : list buf) (b : option nat)
    (nowmin : Z) (ans : option nat) : loop (Z * option nat) :=
  match fuel with
  | O => Spin
  | S fuel' =>
      match b with
      | None => Exit (nowmin, ans)
      | Some i =>
          match bs !! i with
          | None => Crash
          | Some bf =>
              if (refcnt bf =? 0) && (time_stamp bf <? nowmin)
              then scan_lru fuel' bs (next bf) (time_stamp bf) (Some i)
              else scan_lru fuel' bs (next bf) nowmin ans
          end
      end
  end.

(** [for(b = bcache.buf; b < bcache.buf+NBUF; b++)] with the same body;
    [i] is the index of the head of [bs] in the pool. *)
Fixpoint scan_pool (bs : list buf) (i : nat) (nowmin : Z) (ans : option nat)
  : Z * option nat :=
  match bs with
  | [] => (nowmin, ans)
  | bf :: bs' =>
      if (refcnt bf =? 0) && (time_stamp bf <? nowmin)
      then scan_pool bs' (S i) (time_stamp bf) (Some i)
      else scan_pool bs' (S i) nowmin ans
  end.

(** [while(now != ans){ now = now->next; pre = pre->next; }] *)
Fixpoint find_pre (fuel : nat) (st : bcache) (pre : option link)
    (now : option nat) (ans : nat) : loop (option link) :=
  match fuel with
  | O => Spin
  | S fuel' =>
      if decide (now = Some ans) then Exit pre
      else
        match now with
        | None => Crash
        | Some n =>
            match bufs st !! n with
            | None => Crash
            | Some bn =>
                match pre with
                | None => Crash
                | Some p =>
                    match link_next st p with
                    | None => Crash
                    | Some nx => find_pre fuel' st (BufAt <$> nx) (next bn) ans
                    end
                end
            end
        end
  end.

(** [acquiresleep(&b->lock)] for a single caller: a lock that is held
    is never handed over. *)
Definition acquiresleep (st : bcache) (b : nat) : outcome nat :=
  match bufs st !! b with
  | None => Fault
  | Some bf =>
      if locked bf then Sleeps st b
      else Ret (upd st b (set_locked true)) b
  end.

(** [ans->dev = dev; ans->blockno = blockno; ans->valid = 0;
    ans->refcnt = 1;] *)
Definition repurpose (dv bn : Z) (b : buf) : buf :=
  set_refcnt 1 (set_valid 0 (set_blockno bn (set_dev dv b))).

(** Iterations that exhaust any chain of a pool of this size. *)
Definition chain_fuel (st : bcache) : nat := S (length (bufs st)).

Section Cache.

(** [NBUF] and [NBUCKET] come from param.h. *)
Variables (NBUF NBUCKET : nat).

(** [blockno % NBUCKET] *)
Definition hash (bn : Z) : nat := Z.to_nat (bn mod Z.of_nat NBUCKET).

(** Body of the inner loop of [binit], at descriptor [b] and bucket [i]. *)
Definition binit_link (i : nat) (acc : bcache * nat) : bcache * nat :=
  let '(st, b) := acc in
  let st1 := upd st b (set_blockno (Z.of_nat i)) in
  let st2 := upd st1 b (set_next (default None (heads st1 !! i))) in
  (set_head st2 i (Some b), S b).

Definition binit_bucket (acc : bcache * nat) (i : nat) : bcache * nat :=
  foldl (fun a _ => binit_link i a) acc (seq 0 (NBUF `div` NBUCKET)%nat).

(** All of [bcache] and [bucket] before [binit]. *)
Definition zeroed : bcache :=
  Bcache (replicate NBUF zero_buf) (replicate NBUCKET None) [].

(** [for(b = bcache.buf; b < bcache.buf+NBUF; b++)
      initsleeplock(&b->lock, "buffer");] *)
Definition init_sleeplocks (st : bcache) : bcache :=
  Bcache (set_locked false <$> bufs st) (heads st) (disk_io st).

Definition binit : bcache :=
  fst (foldl binit_bucket (init_sleeplocks zeroed, O) (seq 0 NBUCKET)).

(** The last part of [bget]: the global scan and the move of the victim
    to bucket [id].  The bucket spinlocks and [bcache.lock] guard this
    bookkeeping against other CPUs and are not part of the sequential
    state; the donor bucket is indexed as in the source, with the
    literal 13. *)
Definition bget_steal (st : bcache) (id : nat) (dv bn : Z) (nowmin : Z)
  : outcome nat :=
  match scan_pool (bufs st) 0 nowmin None with
  | (_, None) => Panic "bget: no buffers"
  | (_, Some ans) =>
      match bufs st !! ans with
      | None => Fault
      | Some ba =>
          let findid := Z.to_nat (blockno ba mod 13) in
          match heads st !! findid with
          | None => Fault
          | Some now0 =>
              match find_pre (chain_fuel st) st (Some (HeadOf findid)) now0 ans with
              | Spin => Diverges
              | Crash => Fault
              | Exit None => Fault
              | Exit (Some pre) =>
                  (* pre->next = now->next, with now == ans *)
                  let st1 := link_set_next st pre (next ba) in
                  (* ans->next = bucket[id].head.next *)
                  match heads st1 !! id with
                  | None => Fault
                  | Some h =>
                      let st2 := upd st1 ans (set_next h) in
                      (* bucket[id].head.next = ans *)
                      let st3 := set_head st2 id (Some ans) in
                      acquiresleep (upd st3 ans (repurpose dv bn)) ans
                  end
              end
          end
      end
  end.

Definition bget (st : bcache) (dv bn : Z) : outcome nat :=
  let id := hash bn in
  match heads st !! id with
  | None => Fault
  | Some hd =>
      match scan_hit (chain_fuel st) (bufs st) hd dv bn with
      | Spin => Diverges
      | Crash => Fault
      | Exit (Some b) =>
          acquiresleep (upd st b (fun bf => set_refcnt (uint (refcnt bf + 1)) bf)) b
      | Exit None =>
          match scan_lru (chain_fuel st) (bufs st) hd UINT32_MAX None with
          | Spin => Diverges
          | Crash => Fault
          | Exit (_, Some ans) =>
              acquiresleep (upd st ans (repurpose dv bn)) ans
          | Exit (nowmin, None) => bget_steal st id dv bn nowmin
          end
      end
  end.

(** The descriptor the first loop of [bget] stops at: the answer to "Is
    the block already cached?" *)
Definition cached (st : bcache) (dv bn : Z) : option nat :=
  match heads st !! hash bn with
  | Some hd =>
      match scan_hit (chain_fuel st) (bufs st) hd dv bn with
      | Exit r => r
      | _ => None
      end
  | None => None
  end.

Definition bread (st : bcache) (dv bn : Z) : outcome nat :=
  match bget st dv bn with
  | Ret st1 b =>
      match bufs st1 !! b with
      | None => Fault
      | Some bf =>
          if valid bf =? 0
          then Ret (upd (virtio_disk_rw st1 b false) b (set_valid 1)) b
          else Ret st1 b
      end
  | o => o
  end.

Definition bwrite (st : bcache) (b : nat) : outcome unit :=
  match bufs st !! b with
  | None => Fault
  | Some bf =>
      if negb (locked bf) then Panic "bwrite"
      else Ret (virtio_disk_rw st b true) tt
  end.

(** [brelse(b)] when the tick counter reads [ticks]. *)
Definition brelse (st : bcache) (b : nat) (ticks : Z) : outcome unit :=
  match bufs st !! b with
  | None => Fault
  | Some bf =>
      if negb (locked bf) then Panic "brelse"
      else
        match heads st !! hash (blockno bf) with
        | None => Fault
        | Some _ =>
            let r := uint (refcnt bf - 1) in
            Ret (upd st b (fun x =>
                   let x1 := set_refcnt r (set_locked false x) in
                   if r =? 0 then set_time_stamp ticks x1 else x1)) tt
        end
  end.

Definition bpin (st : bcache) (b : nat) : outcome unit :=
  match bufs st !! b with
  | None => Fault
  | Some bf =>
      match heads st !! hash (blockno bf) with
      | None => Fault
      | Some _ => Ret (upd st b (set_refcnt (uint (refcnt bf + 1)))) tt
      end
  end.

Definition bunpin (st : bcache) (b : nat) : outcome unit :=
  match bufs st !! b with
  | None => Fault
  | Some bf =>
      match heads st !! hash (blockno bf) with
      | None => Fault
      | Some _ => Ret (upd st b (set_refcnt (uint (refcnt bf - 1)))) tt
      end
  end.

End Cache.

End Bio.

(** ** Facts about the page allocator *)

Module KallocFacts.
Import Kalloc.

Local Open Scope Z_scope.

(** What popping page [r] off list [i] leaves behind: the list continues
    at the link read from the page, and the page is filled with 5. *)
Definition popped (st : kmem) (i : nat) (r : Z) : kmem :=
  {| ram := memset (ram st) r 5 PGSIZE;
     freelist := <[i := load64 (ram st) r]> (freelist st) |}.

(** The events of visiting the empty lists [l], in order. *)
Fixpoint visits (l : list nat) : list event :=
  match l with
  | [] => []
  | i :: l' => Acquire i :: Release i :: visits l'
  end.

(** Concrete machine used in the examples: qemu's memory map, two CPUs,
    memory all zero, both lists empty. *)
Definition kend0 : Z := 2147618816.
Definition PHYSTOP0 : Z := 2281701376.
Definition two_cpus : kmem := {| ram := fun _ => 0; freelist := [0; 0] |}.

(** The addresses handed back by a sequence of requests made on one
    CPU; [None] marks a call that did not return. *)
Inductive request :=
| Alloc
| Free (pa : Z).

Fixpoint serve (kend PHYSTOP : Z) (NCPU id : nat) (st : kmem)
    (rs : list request) : list (option Z) :=
  match rs with
  | [] => []
  | Alloc :: rs' =>
      match kalloc NCPU id st with
      | Done (r, st', _) => Some r :: serve kend PHYSTOP NCPU id st' rs'
      | _ => [None]
      end
  | Free pa :: rs' =>
      match kfree kend PHYSTOP id st pa with
      | Done (st', _) => serve kend PHYSTOP NCPU id st' rs'
      | _ => [None]
      end
  end.

Definition one_cpu : kmem := {| ram := fun _ => 0; freelist := [0] |}.

(** Two pages, one CPU: both pages come out, most recently freed first,
    then null; a page freed again is the next one allocated. *)
Example two_pages_one_cpu :
  match kinit kend0 (kend0 + 2 * PGSIZE) 0 one_cpu with
  | Done (st, _) =>
      serve kend0 (kend0 + 2 * PGSIZE) 1 0 st
            [Alloc; Alloc; Alloc; Free (kend0 + PGSIZE); Alloc]
      = [Some (kend0 + PGSIZE); Some kend0; Some 0; Some (kend0 + PGSIZE)]
  | _ => False
  end.
Proof. vm_compute. reflexivity. Qed.

Lemma store_bytes_below n : forall m a v x,
  x < a -> store_bytes m a n v x = m x.
Proof.
  induction n as [|n IH]; intros m a v x Hx; simpl; [reflexivity|].
  rewrite IH by lia. destruct (Z.eqb_spec x a); [lia | reflexivity].
Qed.

Lemma store_bytes_above n : forall m a v x,
  a + Z.of_nat n <= x -> store_bytes m a n v x = m x.
Proof.
  induction n as [|n IH]; intros m a v x Hx; simpl; [reflexivity|].
  rewrite IH by lia. destruct (Z.eqb_spec x a); [lia | reflexivity].
Qed.

Lemma load_store_bytes n : forall m a v,
  load_bytes (store_bytes m a n v) a n = v mod 256 ^ Z.of_nat n.
Proof.
  induction n as [|n IH]; intros m a v.
  - simpl. now rewrite Z.mod_1_r.
  - cbn [load_bytes store_bytes]. rewrite IH.
    rewrite store_bytes_below by lia.
    rewrite Z.eqb_refl.
    rewrite Nat2Z.inj_succ, Z.pow_succ_r by lia.
    rewrite Z.rem_mul_r by (try apply Z.pow_pos_nonneg; lia).
    reflexivity.
Qed.

Lemma load_store64 m a v : load64 (store64 m a v) a = v mod 2 ^ 64.
Proof. unfold load64, store64. rewrite load_store_bytes. reflexivity. Qed.

Lemma store64_outside m a v x :
  x < a \/ a + 8 <= x -> store64 m a v x = m x.
Proof.
  intros [H|H]; unfold store64.
  - now apply store_bytes_below.
  - apply store_bytes_above. simpl. lia.
Qed.

Lemma memset_inside m dst c n a :
  dst <= a < dst + n -> memset m dst c n a = c mod 256.
Proof.
  intros H. unfold memset.
  destruct (Z.leb_spec dst a); [|lia].
  destruct (Z.ltb_spec a (dst + n)); [reflexivity | lia].
Qed.

Lemma emit_done {A} evs (r : result (A * list event)) a tr :
  r = Done (a, tr) -> emit evs r = Done (a, evs ++ tr).
Proof. intros ->. reflexivity. Qed.

Lemma seq_split_at (i n : nat) :
  (i < n)%nat -> seq 0 n = seq 0 i ++ i :: seq (S i) (n - S i).
Proof.
  intros H. replace n with (i + S (n - S i))%nat at 1 by lia.
  rewrite seq_app. reflexivity.
Qed.

Lemma steal_all_empty id st : forall cpus,
  (forall j, j ∈ cpus -> j ≠ id -> freelist st !! j = Some 0) ->
  steal id cpus st 0 =
    Done (0, st, visits (filter (fun i => i ≠ id) cpus) ++ [PopOff]).
Proof.
  induction cpus as [|i rest IH]; intros Hz; [reflexivity|].
  cbn [steal]. destruct (Nat.eqb_spec id i) as [->|Hne].
  - rewrite filter_cons_False by (intros H; now apply H).
    apply IH. intros j Hj. apply Hz. now right.
  - rewrite filter_cons_True by congruence.
    rewrite (Hz i) by (try left; congruence). simpl.
    erewrite emit_done; [reflexivity|].
    apply IH. intros j Hj. apply Hz. now right.
Qed.

Lemma steal_first_found id st i r l2 : forall l1 r0,
  i ≠ id ->
  (forall j, j ∈ l1 -> j ≠ id -> freelist st !! j = Some 0) ->
  freelist st !! i = Some r -> r ≠ 0 ->
  steal id (l1 ++ i :: l2) st r0 =
    Done (r, popped st i r,
          visits (filter (fun k => k ≠ id) l1) ++ [Acquire i; Release i; PopOff]).
Proof.
  induction l1 as [|j l1 IH]; intros r0 Hne Hz Hi Hr.
  - cbn [app steal]. destruct (Nat.eqb_spec id i); [congruence|].
    rewrite Hi. destruct (Z.eqb_spec r 0); [contradiction | reflexivity].
  - cbn [app steal]. destruct (Nat.eqb_spec id j) as [->|Hj].
    + rewrite filter_cons_False by (intros H; now apply H).
      apply IH; auto. intros k Hk. apply Hz. now right.
    + rewrite filter_cons_True by congruence.
      rewrite (Hz j) by (try left; congruence). simpl.
      erewrite emit_done; [reflexivity|].
      apply IH; auto. intros k Hk. apply Hz. now right.
Qed.

Lemma steal_locks id st : forall cpus r,
  (forall j, j ∈ cpus -> (j < length (freelist st))%nat) ->
  exists r' st' tr,
    steal id cpus st r = Done (r', st', tr) /\
    one_lock_at_a_time None tr = true.
Proof.
  induction cpus as [|i rest IH]; intros r Hlen.
  - simpl. eauto.
  - cbn [steal]. destruct (Nat.eqb_spec id i) as [->|Hne].
    + apply IH. intros j Hj. apply Hlen. now right.
    + destruct (lookup_lt_is_Some_2 (freelist st) i) as [r' Hr'].
      { apply Hlen. now left. }
      rewrite Hr'. destruct (Z.eqb_spec r' 0).
      * destruct (IH r') as (r2 & st2 & tr2 & E & L).
        { intros j Hj. apply Hlen. now right. }
        rewrite E. simpl. do 3 eexists. split; [reflexivity|].
        simpl. now rewrite Nat.eqb_refl.
      * do 3 eexists. split; [reflexivity|].
        simpl. now rewrite Nat.eqb_refl.
Qed.

Lemma steal_fill id st : forall cpus r r' st' tr,
  steal id cpus st r = Done (r', st', tr) -> r = 0 -> r' ≠ 0 ->
  forall a, r' <= a < r' + PGSIZE -> ram st' a = 5.
Proof.
  induction cpus as [|i rest IH]; intros r r' st' tr E Hr Hr' a Ha.
  - simpl in E. congruence.
  - cbn [steal] in E. destruct (Nat.eqb_spec id i).
    + eapply IH; eauto.
    + destruct (freelist st !! i) as [r1|]; [|discriminate].
      destruct (Z.eqb_spec r1 0) as [Hz|Hr1].
      * subst r1. destruct (steal id rest st 0) as [[[r2 st2] tr2]| |] eqn:E2;
          simpl in E; try discriminate.
        injection E as <- <- <-. eapply IH; eauto.
      * injection E as <- <- <-. simpl. now rewrite memset_inside.
Qed.

Lemma kfree_valid kend PHYSTOP id st pa head :
  pa mod PGSIZE = 0 -> kend <= pa < PHYSTOP ->
  freelist st !! id = Some head ->
  kfree kend PHYSTOP id st pa =
    Done ({| ram := store64 (memset (ram st) pa 1 PGSIZE) pa head;
             freelist := <[id := pa]> (freelist st) |},
          [PushOff; Acquire id; Release id; PopOff]).
Proof.
  intros Hal [Hlo Hhi] Hh. unfold kfree. rewrite Hh.
  destruct (Z.eqb_spec (pa mod PGSIZE) 0); [|contradiction].
  destruct (Z.ltb_spec pa kend); [lia|].
  destruct (Z.leb_spec PHYSTOP pa); [lia|]. reflexivity.
Qed.

(** C8: [kfree] panics exactly when the address is misaligned or lies
    outside [end, PHYSTOP); on every other address it completes and the
    page becomes the head of the executing CPU's list, linked to the
    previous head. *)
Theorem kfree_fatal_iff_bad_address kend PHYSTOP id st pa :
  (id < length (freelist st))%nat ->
  ((exists msg, kfree kend PHYSTOP id st pa = Panic msg) <->
     (pa mod PGSIZE ≠ 0 \/ pa < kend \/ PHYSTOP <= pa)) /\
  (pa mod PGSIZE = 0 -> kend <= pa < PHYSTOP ->
     exists head st' tr,
       freelist st !! id = Some head /\
       kfree kend PHYSTOP id st pa = Done (st', tr) /\
       freelist st' = <[id := pa]> (freelist st) /\
       load64 (ram st') pa = head mod 2 ^ 64).
Proof.
  intros Hid.
  destruct (lookup_lt_is_Some_2 (freelist st) id Hid) as [head Hh].
  split; [split|].
  - intros [msg E]. unfold kfree in E. rewrite Hh in E.
    destruct (Z.eqb_spec (pa mod PGSIZE) 0); [|now left].
    destruct (Z.ltb_spec pa kend); [now (right; left)|].
    destruct (Z.leb_spec PHYSTOP pa); [now (right; right)|].
    discriminate.
  - intros Hbad. exists "kfree"%string. unfold kfree.
    destruct (Z.eqb_spec (pa mod PGSIZE) 0); [|reflexivity].
    destruct (Z.ltb_spec pa kend); [reflexivity|].
    destruct (Z.leb_spec PHYSTOP pa); [reflexivity|]. lia.
  - intros Hal Hrange. exists head. do 2 eexists.
    split; [exact Hh|]. split; [eapply kfree_valid; eauto|].
    split; [reflexivity|]. simpl. apply load_store64.
Qed.

Lemma kfree_fatal_iff_bad_address_witness :
  (0 < length (freelist two_cpus))%nat /\
  ((exists msg, kfree kend0 PHYSTOP0 0 two_cpus (kend0 + 1) = Panic msg) <->
     ((kend0 + 1) mod PGSIZE ≠ 0 \/ kend0 + 1 < kend0 \/ PHYSTOP0 <= kend0 + 1)).
Proof.
  split; [simpl; lia|].
  apply (kfree_fatal_iff_bad_address kend0 PHYSTOP0 0 two_cpus (kend0 + 1)).
  simpl; lia.
Defined.

(** C7: [kalloc] pops from the executing CPU's own list when that list
    is not empty, touching no other lock; when it is empty it visits the
    other CPUs in increasing order and takes the head of the first
    non-empty list; when all lists are empty it returns null, no fatal
    error; and it never holds two allocator locks at once. *)
Theorem kalloc_local_then_steal NCPU id st :
  length (freelist st) = NCPU -> (id < NCPU)%nat ->
  (forall r, freelist st !! id = Some r -> r ≠ 0 ->
     kalloc NCPU id st =
       Done (r, popped st id r, [PushOff; Acquire id; Release id; PopOff])) /\
  (freelist st !! id = Some 0 ->
     (forall i r, (i < NCPU)%nat -> i ≠ id ->
        freelist st !! i = Some r -> r ≠ 0 ->
        (forall j, (j < i)%nat -> j ≠ id -> freelist st !! j = Some 0) ->
        kalloc NCPU id st =
          Done (r, popped st i r,
                [PushOff; Acquire id; Release id] ++
                visits (peers id i) ++ [Acquire i; Release i; PopOff])) /\
     ((forall j, (j < NCPU)%nat -> freelist st !! j = Some 0) ->
        kalloc NCPU id st =
          Done (0, st,
                [PushOff; Acquire id; Release id] ++
                visits (peers id NCPU) ++ [PopOff]))) /\
  (exists r st' tr,
     kalloc NCPU id st = Done (r, st', tr) /\
     one_lock_at_a_time None tr = true).
Proof.
  intros Hlen Hid. split; [|split].
  - intros r Hr Hnz. unfold kalloc. rewrite Hr.
    destruct (Z.eqb_spec r 0); [contradiction | reflexivity].
  - intros Hown. split.
    + intros i r Hi Hne Hr Hnz Hbefore. unfold kalloc. rewrite Hown. simpl.
      rewrite (seq_split_at i NCPU) by lia.
      erewrite emit_done; [reflexivity|].
      apply steal_first_found; auto.
      intros j Hj. apply Hbefore. apply elem_of_seq in Hj. lia.
    + intros Hall. unfold kalloc. rewrite Hown. simpl.
      erewrite emit_done; [reflexivity|].
      apply steal_all_empty. intros j Hj _. apply Hall.
      apply elem_of_seq in Hj. lia.
  - unfold kalloc.
    destruct (lookup_lt_is_Some_2 (freelist st) id) as [r Hr]; [lia|].
    rewrite Hr. destruct (Z.eqb_spec r 0).
    + destruct (steal_locks id st (seq 0 NCPU) r) as (r' & st' & tr & E & L).
      { intros j Hj. apply elem_of_seq in Hj. lia. }
      rewrite E. simpl. do 3 eexists. split; [reflexivity|].
      simpl. now rewrite Nat.eqb_refl.
    + do 3 eexists. split; [reflexivity|]. simpl. now rewrite Nat.eqb_refl.
Qed.

Lemma kalloc_local_then_steal_witness :
  length (freelist two_cpus) = 2%nat /\ (1 < 2)%nat /\
  kalloc 2 1 two_cpus =
    Done (0, two_cpus, [PushOff; Acquire 1%nat; Release 1%nat;
                    Acquire 0%nat; Release 0%nat; PopOff]).
Proof.
  split; [reflexivity|]. split; [lia|].
  destruct (kalloc_local_then_steal 2 1 two_cpus) as (_ & H & _);
    [reflexivity | lia |].
  destruct (H eq_refl) as [_ Hnone].
  apply Hnone. intros [|[|j]] Hj; [reflexivity | reflexivity | lia].
Defined.

(** C2 as stated fails for [kfree]: the first byte of a page just freed
    onto an empty list is 0, a byte of the null link, not 1. *)
Lemma freed_page_starts_with_link :
  exists st' tr,
    kfree kend0 PHYSTOP0 0 two_cpus kend0 = Done (st', tr) /\
    kend0 <= kend0 < kend0 + PGSIZE /\
    ram st' kend0 = 0 /\ ram st' kend0 ≠ 1.
Proof.
  do 2 eexists. split; [reflexivity|].
  split; [unfold kend0, PGSIZE; lia|].
  split; [reflexivity | discriminate].
Qed.

(** C2, amended: after [kalloc] returns a page every byte of it is 5;
    after [kfree] returns, every byte of the freed page from offset 8 on
    is 1, and the first eight bytes hold the link to the previous head
    of the executing CPU's free list. *)
Theorem sentinel_after_alloc_and_free kend PHYSTOP NCPU id st pa :
  length (freelist st) = NCPU -> (id < NCPU)%nat ->
  (exists r st' tr,
     kalloc NCPU id st = Done (r, st', tr) /\
     (r ≠ 0 -> forall a, r <= a < r + PGSIZE -> ram st' a = 5)) /\
  (pa mod PGSIZE = 0 -> kend <= pa < PHYSTOP ->
     exists head st' tr,
       freelist st !! id = Some head /\
       kfree kend PHYSTOP id st pa = Done (st', tr) /\
       (forall a, pa + 8 <= a < pa + PGSIZE -> ram st' a = 1) /\
       load64 (ram st') pa = head mod 2 ^ 64).
Proof.
  intros Hlen Hid.
  destruct (lookup_lt_is_Some_2 (freelist st) id) as [r Hr]; [lia|].
  split.
  - unfold kalloc. rewrite Hr. destruct (Z.eqb_spec r 0) as [Hz|Hnz].
    + subst r. destruct (steal_locks id st (seq 0 NCPU) 0) as (r' & st' & tr & E & _).
      { intros j Hj. apply elem_of_seq in Hj. lia. }
      rewrite E. simpl. do 3 eexists. split; [reflexivity|].
      intros Hr' a Ha. eapply steal_fill; eauto.
    + do 3 eexists. split; [reflexivity|].
      intros _ a Ha. simpl. now rewrite memset_inside.
  - intros Hal Hrange. exists r. do 2 eexists.
    split; [exact Hr|]. split; [eapply kfree_valid; eauto|]. split.
    + intros a Ha. simpl. rewrite store64_outside by lia.
      rewrite memset_inside by (unfold PGSIZE in *; lia). reflexivity.
    + simpl. apply load_store64.
Qed.

Lemma sentinel_after_alloc_and_free_witness :
  length (freelist two_cpus) = 2%nat /\ (0 < 2)%nat /\
  kend0 mod PGSIZE = 0 /\ kend0 <= kend0 < PHYSTOP0 /\
  exists head st' tr,
    freelist two_cpus !! 0%nat = Some head /\
    kfree kend0 PHYSTOP0 0 two_cpus kend0 = Done (st', tr) /\
    (forall a, kend0 + 8 <= a < kend0 + PGSIZE -> ram st' a = 1) /\
    load64 (ram st') kend0 = head mod 2 ^ 64.
Proof.
  split; [reflexivity|]. split; [lia|].
  split; [reflexivity|]. split; [unfold kend0, PHYSTOP0; lia|].
  apply (sentinel_after_alloc_and_free kend0 PHYSTOP0 2 0 two_cpus kend0);
    [reflexivity | lia | reflexivity | unfold kend0, PHYSTOP0; lia].
Defined.

End KallocFacts.

(** ** Facts about the buffer cache *)

Module BioFacts.
Import Bio.

Local Open Scope Z_scope.

(** *** The chains as lists *)

(** [chain bs p l]: following [next] from pointer [p] through the pool
    [bs] visits exactly the descriptors [l] and then reaches null. *)
Fixpoint chain (bs : list buf) (p : option nat) (l : list nat) : Prop :=
  match l with
  | [] => p = None
  | i :: l' => p = Some i /\ exists bf, bs !! i = Some bf /\ chain bs (next bf) l'
  end.

(** Descriptor [i] is reached from the head of some bucket. *)
Definition on_chain (st : bcache) (i : nat) : Prop :=
  exists k hd c, heads st !! k = Some hd /\ chain (bufs st) hd c /\ i ∈ c.

(** The first descriptor of [c] caching [(dv, bn)]. *)
Fixpoint first_match (bs : list buf) (c : list nat) (dv bn : Z) : option nat :=
  match c with
  | [] => None
  | i :: c' =>
      match bs !! i with
      | Some bf =>
          if (dev bf =? dv) && (blockno bf =? bn) then Some i
          else first_match bs c' dv bn
      | None => None
      end
  end.

(** The running minimum kept by the eviction scan over the list [c]. *)
Fixpoint lru (bs : list buf) (c : list nat) (nowmin : Z) (ans : option nat)
  : Z * option nat :=
  match c with
  | [] => (nowmin, ans)
  | i :: c' =>
      match bs !! i with
      | Some bf =>
          if (refcnt bf =? 0) && (time_stamp bf <? nowmin)
          then lru bs c' (time_stamp bf) (Some i)
          else lru bs c' nowmin ans
      | None => (nowmin, ans)
      end
  end.

(** The link in front of the element that follows [l] on a chain that
    starts at [p]. *)
Definition link_before (p : link) (l : list nat) : link :=
  match last l with
  | None => p
  | Some x => BufAt x
  end.

Lemma lookup_upd_eq st b f : bufs (upd st b f) !! b = f <$> bufs st !! b.
Proof. apply list_lookup_alter_eq. Qed.

Lemma lookup_upd_ne st b f i : b ≠ i -> bufs (upd st b f) !! i = bufs st !! i.
Proof. apply list_lookup_alter_ne. Qed.

Lemma lookup_upd st b f i bf :
  bufs (upd st b f) !! i = Some bf ->
  exists bf0, bufs st !! i = Some bf0 /\ bf = (if decide (b = i) then f bf0 else bf0).
Proof.
  intros H. destruct (decide (b = i)) as [->|Hne].
  - rewrite lookup_upd_eq in H.
    destruct (bufs st !! i) as [bf0|]; [|discriminate].
    injection H as <-. eauto.
  - rewrite lookup_upd_ne in H by done. eauto.
Qed.

Lemma chain_ext bs bs' : forall l p,
  (forall i, i ∈ l -> next <$> bs' !! i = next <$> bs !! i) ->
  chain bs p l -> chain bs' p l.
Proof.
  induction l as [|i l IH]; intros p Hext Hc; [exact Hc|].
  destruct Hc as (-> & bf & Hbf & Hc). split; [reflexivity|].
  pose proof (Hext i ltac:(left)) as Hi. rewrite Hbf in Hi.
  destruct (bs' !! i) as [bf'|] eqn:Hbf'; [|discriminate].
  injection Hi as Hi. exists bf'. split; [reflexivity|].
  rewrite Hi. apply IH; [|exact Hc].
  intros j Hj. apply Hext. now right.
Qed.

Lemma chain_lookup bs : forall l p i,
  chain bs p l -> i ∈ l -> is_Some (bs !! i).
Proof.
  induction l as [|j l IH]; intros p i Hc Hi.
  - now apply elem_of_nil in Hi.
  - destruct Hc as (-> & bf & Hbf & Hc).
    apply elem_of_cons in Hi as [->|Hi]; [eauto|]. eapply IH; eauto.
Qed.

Lemma chain_inj bs : forall l1 l2 p, chain bs p l1 -> chain bs p l2 -> l1 = l2.
Proof.
  induction l1 as [|i l1 IH]; intros [|j l2] p H1 H2; simpl in *.
  - reflexivity.
  - destruct H2 as [H2 _]. congruence.
  - destruct H1 as [H1 _]. congruence.
  - destruct H1 as (-> & b1 & Hb1 & H1). destruct H2 as (E & b2 & Hb2 & H2).
    injection E as <-. rewrite Hb1 in Hb2. injection Hb2 as <-.
    f_equal. eapply IH; eauto.
Qed.

Lemma nodup_bounded_length (l : list nat) (n : nat) :
  NoDup l -> (forall x, x ∈ l -> (x < n)%nat) -> (length l <= n)%nat.
Proof.
  intros Hnd Hlt.
  replace n with (length (seq 0 n)) at 1 by apply length_seq.
  apply submseteq_length.
  apply NoDup_submseteq; [exact Hnd|].
  intros x Hx. apply elem_of_seq. specialize (Hlt x Hx). lia.
Qed.

Lemma chain_length bs l p :
  chain bs p l -> NoDup l -> (length l <= length bs)%nat.
Proof.
  intros Hc Hnd. apply nodup_bounded_length; [exact Hnd|].
  intros x Hx. destruct (chain_lookup _ _ _ _ Hc Hx) as [bf Hbf].
  eapply lookup_lt_Some; eauto.
Qed.

(** *** The loops of [bget] on a well-formed chain *)

Lemma scan_hit_chain bs dv bn : forall c fuel p,
  chain bs p c -> (length c < fuel)%nat ->
  scan_hit fuel bs p dv bn = Exit (first_match bs c dv bn).
Proof.
  induction c as [|i c IH]; intros fuel p Hc Hf;
    (destruct fuel as [|fuel]; [simpl in Hf; lia|]).
  - simpl in Hc. subst p. reflexivity.
  - destruct Hc as (-> & bf & Hbf & Hc). simpl. rewrite Hbf.
    destruct ((dev bf =? dv) && (blockno bf =? bn)); [reflexivity|].
    apply IH; [exact Hc | simpl in Hf; lia].
Qed.

Lemma scan_lru_chain bs : forall c fuel p nowmin ans,
  chain bs p c -> (length c < fuel)%nat ->
  scan_lru fuel bs p nowmin ans = Exit (lru bs c nowmin ans).
Proof.
  induction c as [|i c IH]; intros fuel p nowmin ans Hc Hf;
    (destruct fuel as [|fuel]; [simpl in Hf; lia|]).
  - simpl in Hc. subst p. reflexivity.
  - destruct Hc as (-> & bf & Hbf & Hc). simpl. rewrite Hbf.
    destruct ((refcnt bf =? 0) && (time_stamp bf <? nowmin));
      (apply IH; [exact Hc | simpl in Hf; lia]).
Qed.

Lemma link_before_cons p i l : link_before p (i :: l) = link_before (BufAt i) l.
Proof.
  unfold link_before. destruct l as [|j l]; [reflexivity|].
  change (last (i :: j :: l)) with (last (j :: l)).
  destruct (last (j :: l)) eqn:E; [reflexivity|].
  apply last_None in E. discriminate.
Qed.

Lemma find_pre_found st ans l2 : forall l1 fuel p now,
  link_next st p = Some now ->
  chain (bufs st) now (l1 ++ ans :: l2) -> ans ∉ l1 ->
  (length l1 < fuel)%nat ->
  find_pre fuel st (Some p) now ans = Exit (Some (link_before p l1)).
Proof.
  induction l1 as [|i l1 IH]; intros fuel p now Hp Hc Hnin Hf;
    (destruct fuel as [|fuel]; [simpl in Hf; lia|]).
  - destruct Hc as (-> & _). simpl.
    destruct (decide (Some ans = Some ans)); [reflexivity | congruence].
  - destruct Hc as (-> & bf & Hbf & Hc). cbn [find_pre].
    destruct (decide (Some i = Some ans)) as [E|_].
    { injection E as ->. exfalso. apply Hnin. now left. }
    rewrite Hbf, Hp. simpl.
    rewrite (IH fuel (BufAt i) (next bf)).
    + now rewrite link_before_cons.
    + simpl. now rewrite Hbf.
    + exact Hc.
    + intros H. apply Hnin. now right.
    + simpl in Hf. lia.
Qed.

Lemma find_pre_absent st ans : forall c fuel p now,
  link_next st p = Some now ->
  chain (bufs st) now c -> ans ∉ c ->
  (length c < fuel)%nat ->
  find_pre fuel st (Some p) now ans = Crash.
Proof.
  induction c as [|i c IH]; intros fuel p now Hp Hc Hnin Hf;
    (destruct fuel as [|fuel]; [simpl in Hf; lia|]).
  - simpl in Hc. subst now. reflexivity.
  - destruct Hc as (-> & bf & Hbf & Hc). cbn [find_pre].
    destruct (decide (Some i = Some ans)) as [E|_].
    { injection E as ->. exfalso. apply Hnin. now left. }
    rewrite Hbf, Hp. simpl. apply IH.
    + simpl. now rewrite Hbf.
    + exact Hc.
    + intros H. apply Hnin. now right.
    + simpl in Hf. lia.
Qed.

End BioFacts.

(** ** Invariants of the buffer cache *)

Module BioInv.
Import Bio BioFacts.

Local Open Scope Z_scope.

(** Two descriptors that are both in use never cache the same block. *)
Definition unique_keys (st : bcache) : Prop :=
  forall i j bi bj,
    bufs st !! i = Some bi -> bufs st !! j = Some bj ->
    refcnt bi ≠ 0 -> refcnt bj ≠ 0 ->
    dev bi = dev bj -> blockno bi = blockno bj -> i = j.

(** [shape st cs]: bucket [k]'s chain is the list [cs !! k], without
    repetition, and no descriptor is on two chains. *)
Record shape (st : bcache) (cs : list (list nat)) : Prop := Shape {
  sh_len : length (heads st) = length cs;
  sh_chain : forall k hd c,
    heads st !! k = Some hd -> cs !! k = Some c -> chain (bufs st) hd c;
  sh_nodup : forall k c, cs !! k = Some c -> NoDup c;
  sh_disj : forall k1 k2 c1 c2 i,
    cs !! k1 = Some c1 -> cs !! k2 = Some c2 -> i ∈ c1 -> i ∈ c2 -> k1 = k2
}.

(** Descriptor [i] is on one of the chains. *)
Definition chained (cs : list (list nat)) (i : nat) : Prop :=
  exists k c, cs !! k = Some c /\ i ∈ c.

(** The block a descriptor caches, and the part of a descriptor that
    lookups and eviction decide on. *)
Definition block_of (b : buf) : Z * Z := (dev b, blockno b).
Definition key_view (b : buf) : Z * Z * Z := (dev b, blockno b, refcnt b).

Lemma first_match_Some bs dv bn d : forall c,
  first_match bs c dv bn = Some d ->
  d ∈ c /\ exists bf, bs !! d = Some bf /\ dev bf = dv /\ blockno bf = bn.
Proof.
  induction c as [|i c IH]; intros H; [discriminate|].
  simpl in H. destruct (bs !! i) as [bf|] eqn:Hbf; [|discriminate].
  destruct (Z.eqb_spec (dev bf) dv) as [Hd|Hd];
    destruct (Z.eqb_spec (blockno bf) bn) as [Hb|Hb]; simpl in H;
    try (destruct (IH H) as [Hin Hex]; split; [now right | exact Hex]).
  injection H as <-. split; [now left | eauto].
Qed.

Lemma first_match_ext bs bs' dv bn : forall c,
  (forall i, i ∈ c -> block_of <$> bs' !! i = block_of <$> bs !! i) ->
  first_match bs' c dv bn = first_match bs c dv bn.
Proof.
  induction c as [|i c IH]; intros Hext; [reflexivity|].
  simpl. pose proof (Hext i ltac:(left)) as Hi.
  destruct (bs !! i) as [bf|], (bs' !! i) as [bf'|]; try discriminate;
    [|reflexivity].
  injection Hi as Hd Hb. rewrite Hd, Hb.
  destruct ((dev bf =? dv) && (blockno bf =? bn)); [reflexivity|].
  apply IH. intros j Hj. apply Hext. now right.
Qed.

Lemma first_match_alter_other bs dv bn d a f : forall c,
  first_match bs c dv bn = Some d -> a ≠ d ->
  (forall x, ~ (dev (f x) = dv /\ blockno (f x) = bn)) ->
  first_match (alter f a bs) c dv bn = Some d.
Proof.
  induction c as [|i c IH]; intros H Hne Hf; [discriminate|].
  simpl in H |- *. destruct (bs !! i) as [bf|] eqn:Hbf; [|discriminate].
  destruct (decide (a = i)) as [->|Hai].
  - rewrite list_lookup_alter_eq, Hbf. simpl.
    destruct (Z.eqb_spec (dev (f bf)) dv) as [Hd|Hd];
      destruct (Z.eqb_spec (blockno (f bf)) bn) as [Hb|Hb]; simpl;
      try (exfalso; eapply Hf; eauto; fail);
      (destruct ((dev bf =? dv) && (blockno bf =? bn));
       [congruence | now apply IH]).
  - rewrite list_lookup_alter_ne, Hbf by done.
    destruct ((dev bf =? dv) && (blockno bf =? bn)); [exact H | now apply IH].
Qed.

Lemma first_match_alter_new bs dv bn a f : forall c,
  first_match bs c dv bn = None ->
  (forall i, i ∈ c -> is_Some (bs !! i)) ->
  a ∈ c ->
  (forall x, dev (f x) = dv /\ blockno (f x) = bn) ->
  first_match (alter f a bs) c dv bn = Some a.
Proof.
  induction c as [|i c IH]; intros H Hall Ha Hf.
  - now apply elem_of_nil in Ha.
  - simpl in H |- *. destruct (Hall i ltac:(left)) as [bf Hbf].
    rewrite Hbf in H.
    destruct (decide (a = i)) as [->|Hai].
    + rewrite list_lookup_alter_eq, Hbf. simpl.
      destruct (Hf bf) as [-> ->]. now rewrite !Z.eqb_refl.
    + rewrite list_lookup_alter_ne, Hbf by done.
      destruct ((dev bf =? dv) && (blockno bf =? bn)); [discriminate|].
      apply IH; auto.
      * intros x Hx. apply Hall. now right.
      * apply elem_of_cons in Ha as [->|Ha]; [congruence | exact Ha].
Qed.

Lemma first_match_remove bs dv bn d a l2 : forall l1,
  first_match bs (l1 ++ a :: l2) dv bn = Some d -> d ≠ a ->
  first_match bs (l1 ++ l2) dv bn = Some d.
Proof.
  induction l1 as [|i l1 IH]; intros H Hne; simpl in H |- *.
  - destruct (bs !! a) as [bf|]; [|discriminate].
    destruct ((dev bf =? dv) && (blockno bf =? bn)); [congruence | exact H].
  - destruct (bs !! i) as [bf|]; [|discriminate].
    destruct ((dev bf =? dv) && (blockno bf =? bn)); [exact H | now apply IH].
Qed.

(** *** Field updates that leave the chains alone *)

Lemma shape_ext st st' cs :
  shape st cs -> heads st' = heads st ->
  (forall i, next <$> bufs st' !! i = next <$> bufs st !! i) ->
  shape st' cs.
Proof.
  intros [Hl Hc Hn Hd] Hh Hb. split; auto.
  - now rewrite Hh.
  - intros k hd c Hk Hck. rewrite Hh in Hk.
    eapply chain_ext; [|eapply Hc; eauto]. intros i _. apply Hb.
Qed.

Lemma shape_upd st cs b f :
  shape st cs -> (forall x, next (f x) = next x) -> shape (upd st b f) cs.
Proof.
  intros Hs Hf. eapply shape_ext; [exact Hs | reflexivity |].
  intros i. destruct (decide (b = i)) as [->|Hne].
  - rewrite lookup_upd_eq. destruct (bufs st !! i); simpl; [|done].
    now rewrite Hf.
  - now rewrite lookup_upd_ne.
Qed.

(** *** Unlinking a descriptor *)

Lemma chain_unlink_mid bs a ba l2 x : forall l1 p,
  chain bs p (l1 ++ a :: l2) -> NoDup (l1 ++ a :: l2) ->
  last l1 = Some x -> bs !! a = Some ba ->
  chain (alter (set_next (next ba)) x bs) p (l1 ++ l2).
Proof.
  induction l1 as [|i l1 IH]; intros p Hc Hnd Hl Ha; [discriminate|].
  destruct Hc as (-> & bi & Hbi & Hc).
  rewrite <- app_comm_cons in Hnd. apply NoDup_cons in Hnd as [Hi Hnd].
  assert (Hcases : (l1 = [] /\ x = i) \/ (last l1 = Some x /\ x ≠ i)).
  { destruct l1 as [|j l1]; [left; simpl in Hl; split; congruence|]. right.
    change (last (i :: j :: l1)) with (last (j :: l1)) in Hl.
    split; [exact Hl|]. intros E. subst x. apply Hi.
    apply elem_of_app. left. eapply last_Some_elem_of. exact Hl. }
  destruct Hcases as [[-> ->]|[Hl' Hne]].
  - destruct Hc as (Hn & ba' & Ha' & Hc).
    rewrite Ha in Ha'. injection Ha' as <-.
    split; [reflexivity|]. rewrite list_lookup_alter_eq, Hbi. simpl.
    eexists. split; [reflexivity|]. simpl.
    eapply chain_ext; [|exact Hc].
    intros k Hk. rewrite list_lookup_alter_ne; [done|].
    intros E. subst k. apply Hi. now right.
  - split; [reflexivity|]. exists bi. split.
    + rewrite list_lookup_alter_ne; [exact Hbi | exact Hne].
    + apply (IH (next bi)); auto.
Qed.

Lemma shape_unlink st cs k l1 a l2 ba :
  shape st cs -> cs !! k = Some (l1 ++ a :: l2) -> bufs st !! a = Some ba ->
  shape (link_set_next st (link_before (HeadOf k) l1) (next ba))
        (<[k := l1 ++ l2]> cs).
Proof.
  intros [Hl Hc Hn Hd] Hk Ha.
  pose proof (lookup_lt_Some _ _ _ Hk) as Hklt.
  destruct (lookup_lt_is_Some_2 (heads st) k) as [hd Hhd]; [lia|].
  pose proof (Hc _ _ _ Hhd Hk) as Hck.
  pose proof (Hn _ _ Hk) as Hnk.
  assert (Hsub : forall k' c', <[k := l1 ++ l2]> cs !! k' = Some c' ->
            exists c0, cs !! k' = Some c0 /\ (forall i, i ∈ c' -> i ∈ c0) /\
                       (k' ≠ k -> c' = c0) /\ (k' = k -> c' = l1 ++ l2)).
  { intros k' c' H'. destruct (decide (k = k')) as [<-|Hne].
    - rewrite list_lookup_insert_eq in H' by lia. injection H' as <-.
      eexists. split; [exact Hk|]. split; [|split; [congruence | done]].
      intros i Hi. apply elem_of_app in Hi as [Hi|Hi]; apply elem_of_app;
        [now left | right; now right].
    - rewrite list_lookup_insert_ne in H' by done. eexists.
      split; [exact H'|]. split; [done|]. split; [done | congruence]. }
  assert (Hnd' : forall k' c', <[k := l1 ++ l2]> cs !! k' = Some c' -> NoDup c').
  { intros k' c' H'. destruct (Hsub _ _ H') as (c0 & H0 & _ & Hne & Heq).
    destruct (decide (k' = k)) as [->|Hkk].
    - rewrite (Heq eq_refl). apply NoDup_app in Hnk as (N1 & N2 & N3).
      apply NoDup_cons in N3 as [_ N3]. apply NoDup_app.
      split; [exact N1|]. split; [|exact N3].
      intros x Hx Hx2. apply (N2 x Hx). now right.
    - rewrite (Hne Hkk). eapply Hn; eauto. }
  assert (Hdj' : forall k1 k2 c1 c2 i,
            <[k := l1 ++ l2]> cs !! k1 = Some c1 ->
            <[k := l1 ++ l2]> cs !! k2 = Some c2 -> i ∈ c1 -> i ∈ c2 -> k1 = k2).
  { intros k1 k2 c1 c2 i H1 H2 I1 I2.
    destruct (Hsub _ _ H1) as (d1 & E1 & S1 & _).
    destruct (Hsub _ _ H2) as (d2 & E2 & S2 & _).
    eapply Hd; eauto. }
  destruct (last l1) as [x|] eqn:Hlast.
  - (* the predecessor is a descriptor of the chain *)
    unfold link_before. rewrite Hlast. simpl.
    split; simpl; auto.
    + now rewrite length_insert.
    + intros k' hd' c' Hh' Hc'.
      destruct (Hsub _ _ Hc') as (c0 & H0 & _ & Hne & Heq).
      destruct (decide (k' = k)) as [->|Hkk].
      * rewrite (Heq eq_refl). rewrite Hhd in Hh'. injection Hh' as <-.
        eapply chain_unlink_mid; eauto.
      * rewrite (Hne Hkk). eapply chain_ext; [|eapply Hc; eauto].
        intros i Hi. rewrite list_lookup_alter_ne; [done|].
        intros ->. apply Hkk. eapply (Hd k' k); eauto.
        apply elem_of_app. left. eapply last_Some_elem_of. exact Hlast.
  - (* the predecessor is the head of the bucket *)
    apply last_None in Hlast. subst l1. unfold link_before. simpl in *.
    destruct Hck as (-> & ba' & Ha' & Hck).
    rewrite Ha in Ha'. injection Ha' as <-.
    pose proof (lookup_lt_Some _ _ _ Hhd) as Hklt'.
    split; simpl; auto.
    + now rewrite !length_insert.
    + intros k' hd' c' Hh' Hc'.
      destruct (Hsub _ _ Hc') as (c0 & H0 & _ & Hne & Heq).
      destruct (decide (k' = k)) as [->|Hkk].
      * rewrite (Heq eq_refl). rewrite list_lookup_insert_eq in Hh' by lia.
        injection Hh' as <-. exact Hck.
      * rewrite (Hne Hkk). rewrite list_lookup_insert_ne in Hh' by done.
        eapply Hc; eauto.
Qed.

(** *** Linking a descriptor at the head of a chain *)

Lemma shape_push st cs id c h a :
  shape st cs -> cs !! id = Some c -> heads st !! id = Some h ->
  is_Some (bufs st !! a) ->
  (forall k c', cs !! k = Some c' -> a ∉ c') ->
  shape (set_head (upd st a (set_next h)) id (Some a)) (<[id := a :: c]> cs).
Proof.
  intros [Hl Hc Hn Hd] Hid Hh [ba Ha] Hfree.
  pose proof (lookup_lt_Some _ _ _ Hid) as Hlt.
  pose proof (lookup_lt_Some _ _ _ Hh) as Hlt'.
  assert (Hsub : forall k' c', <[id := a :: c]> cs !! k' = Some c' ->
            (k' = id /\ c' = a :: c) \/ (k' ≠ id /\ cs !! k' = Some c')).
  { intros k' c' H'. destruct (decide (id = k')) as [<-|Hne].
    - rewrite list_lookup_insert_eq in H' by lia. injection H' as <-. now left.
    - rewrite list_lookup_insert_ne in H' by done. right. split; congruence. }
  assert (Hkeep : forall l p, a ∉ l -> chain (bufs st) p l ->
            chain (alter (set_next h) a (bufs st)) p l).
  { intros l p Hnin Hch. eapply chain_ext; [|exact Hch].
    intros i Hi. rewrite list_lookup_alter_ne; [done|]. now intros ->. }
  split; simpl.
  - now rewrite !length_insert.
  - intros k' hd' c' Hh' Hc'.
    destruct (Hsub _ _ Hc') as [[-> ->]|[Hne Hc0]].
    + rewrite list_lookup_insert_eq in Hh' by lia. injection Hh' as <-.
      split; [reflexivity|]. rewrite list_lookup_alter_eq, Ha. simpl.
      eexists. split; [reflexivity|]. simpl.
      apply Hkeep; [eapply Hfree | eapply Hc]; eauto.
    + rewrite list_lookup_insert_ne in Hh' by done.
      apply Hkeep; [eapply Hfree | eapply Hc]; eauto.
  - intros k' c' Hc'. destruct (Hsub _ _ Hc') as [[-> ->]|[Hne Hc0]].
    + apply NoDup_cons. split; [eapply Hfree | eapply Hn]; eauto.
    + eapply Hn; eauto.
  - intros k1 k2 c1 c2 i H1 H2 I1 I2.
    destruct (Hsub _ _ H1) as [[-> ->]|[N1 E1]];
      destruct (Hsub _ _ H2) as [[-> ->]|[N2 E2]]; [reflexivity| | |].
    + apply elem_of_cons in I1 as [->|I1].
      * exfalso. eapply Hfree; eauto.
      * eapply Hd; eauto.
    + apply elem_of_cons in I2 as [->|I2].
      * exfalso. eapply Hfree; eauto.
      * eapply Hd; eauto.
    + eapply Hd; eauto.
Qed.

(** *** Keys *)

Section Keyed.

Variables (NBUF NBUCKET : nat).

(** [keyed st cs H]: every chained descriptor sits in the bucket its
    block number hashes to; every descriptor in [H] (those handed out to
    callers) is the first one on its chain that caches its block; every
    descriptor in use is in [H]. *)
Record keyed (st : bcache) (cs : list (list nat)) (H : nat -> Prop) : Prop := Keyed {
  ky_hash : forall k c i bf,
    cs !! k = Some c -> i ∈ c -> bufs st !! i = Some bf ->
    hash NBUCKET (blockno bf) = k;
  ky_first : forall d bf,
    H d -> bufs st !! d = Some bf ->
    exists k c, cs !! k = Some c /\
      first_match (bufs st) c (dev bf) (blockno bf) = Some d;
  ky_ref : forall d bf, bufs st !! d = Some bf -> refcnt bf ≠ 0 -> H d
}.

Lemma keyed_unique st cs H : keyed st cs H -> unique_keys st.
Proof.
  intros [Hh Hf Hr] i j bi bj Hi Hj Ri Rj Ed Eb.
  destruct (Hf i bi (Hr _ _ Hi Ri) Hi) as (ki & ci & Hci & Fi).
  destruct (Hf j bj (Hr _ _ Hj Rj) Hj) as (kj & cj & Hcj & Fj).
  destruct (first_match_Some _ _ _ _ _ Fi) as [Ii _].
  destruct (first_match_Some _ _ _ _ _ Fj) as [Ij _].
  pose proof (Hh _ _ _ _ Hci Ii Hi) as Ki.
  pose proof (Hh _ _ _ _ Hcj Ij Hj) as Kj.
  rewrite Eb in Ki. rewrite Ki in Kj. subst kj.
  rewrite Hci in Hcj. injection Hcj as <-.
  rewrite Ed, Eb, Fj in Fi. congruence.
Qed.

Lemma keyed_iff st cs (H H' : nat -> Prop) :
  (forall d, H d <-> H' d) -> keyed st cs H -> keyed st cs H'.
Proof.
  intros E [Hh Hf Hr]. split; auto.
  - intros d bf Hd. apply Hf. now apply E.
  - intros d bf Hd Hn. apply E. eapply Hr; eauto.
Qed.

Lemma keyed_ext st st' cs H :
  keyed st cs H ->
  (forall i, key_view <$> bufs st' !! i = key_view <$> bufs st !! i) ->
  keyed st' cs H.
Proof.
  intros [Hh Hf Hr] E.
  assert (Hsame : forall i bf', bufs st' !! i = Some bf' ->
            exists bf, bufs st !! i = Some bf /\ key_view bf' = key_view bf).
  { intros i bf' Hi. specialize (E i). rewrite Hi in E.
    destruct (bufs st !! i) as [bf|]; [|discriminate].
    injection E as E1 E2 E3. exists bf. split; [reflexivity|].
    unfold key_view. congruence. }
  assert (Hfm : forall c dv bn,
            first_match (bufs st') c dv bn = first_match (bufs st) c dv bn).
  { intros c dv bn. apply first_match_ext. intros i _. specialize (E i).
    destruct (bufs st' !! i), (bufs st !! i); try discriminate; [|done].
    injection E as E1 E2 E3. simpl. unfold block_of. congruence. }
  split.
  - intros k c i bf' Hc Hi Hb. destruct (Hsame _ _ Hb) as (bf & Hbf & V).
    injection V as _ V _. rewrite V. eapply Hh; eauto.
  - intros d bf' Hd Hb. destruct (Hsame _ _ Hb) as (bf & Hbf & V).
    injection V as V1 V2 _. rewrite V1, V2.
    destruct (Hf _ _ Hd Hbf) as (k & c & Hc & F).
    exists k, c. split; [exact Hc|]. now rewrite Hfm.
  - intros d bf' Hb Hn. destruct (Hsame _ _ Hb) as (bf & Hbf & V).
    injection V as _ _ V. eapply Hr; eauto. congruence.
Qed.

Lemma keyed_handle st cs (H : nat -> Prop) b bf k c :
  keyed st cs H -> bufs st !! b = Some bf -> cs !! k = Some c ->
  first_match (bufs st) c (dev bf) (blockno bf) = Some b ->
  keyed st cs (fun d => d = b \/ H d).
Proof.
  intros [Hh Hf Hr] Hb Hc F. split; auto.
  - intros d bf' [->|Hd] Hd'.
    + rewrite Hb in Hd'. injection Hd' as <-. eauto.
    + eauto.
  - intros d bf' Hd Hn. right. eauto.
Qed.

Lemma keyed_upd st cs (H : nat -> Prop) b f :
  keyed st cs H -> H b ->
  (forall x, dev (f x) = dev x /\ blockno (f x) = blockno x) ->
  keyed (upd st b f) cs H.
Proof.
  intros [Hh Hf Hr] Hb Hkeep.
  assert (Hfm : forall c dv bn,
            first_match (bufs (upd st b f)) c dv bn = first_match (bufs st) c dv bn).
  { intros c dv bn. apply first_match_ext. intros i _.
    destruct (decide (b = i)) as [->|Hne].
    - rewrite lookup_upd_eq. destruct (bufs st !! i) as [x|]; [|done].
      simpl. unfold block_of. destruct (Hkeep x) as [-> ->]. reflexivity.
    - now rewrite lookup_upd_ne. }
  split.
  - intros k c i bf' Hc Hi Hl. apply lookup_upd in Hl as (bf0 & Hl & ->).
    destruct (decide (b = i)).
    + destruct (Hkeep bf0) as [_ ->]. eauto.
    + eauto.
  - intros d bf' Hd Hl. apply lookup_upd in Hl as (bf0 & Hl & ->).
    destruct (Hf _ _ Hd Hl) as (k & c & Hc & F). exists k, c.
    split; [exact Hc|]. rewrite Hfm.
    destruct (decide (b = d)); [|exact F].
    destruct (Hkeep bf0) as [-> ->]. exact F.
  - intros d bf' Hl Hn. apply lookup_upd in Hl as (bf0 & Hl & ->).
    destruct (decide (b = d)) as [<-|Hne]; [exact Hb | eauto].
Qed.

Lemma miss_excludes_key st cs (H : nat -> Prop) id c dv bn d bf k c' :
  keyed st cs H -> cs !! id = Some c ->
  first_match (bufs st) c dv bn = None -> hash NBUCKET bn = id ->
  bufs st !! d = Some bf -> cs !! k = Some c' ->
  first_match (bufs st) c' (dev bf) (blockno bf) = Some d ->
  ~ (dv = dev bf /\ bn = blockno bf).
Proof.
  intros [Hh Hf Hr] Hc Hmiss Hid Hd Hc' F [-> ->].
  destruct (first_match_Some _ _ _ _ _ F) as [Hin _].
  pose proof (Hh _ _ _ _ Hc' Hin Hd) as E. rewrite Hid in E. subst k.
  rewrite Hc in Hc'. injection Hc' as <-. congruence.
Qed.

Lemma keyed_repurpose st cs (H : nat -> Prop) id c a dv bn :
  keyed st cs H -> shape st cs -> cs !! id = Some c -> a ∈ c ->
  first_match (bufs st) c dv bn = None -> hash NBUCKET bn = id ->
  keyed (upd st a (repurpose dv bn)) cs (fun d => d = a \/ H d).
Proof.
  intros Hk Hs Hc Ha Hmiss Hid.
  pose proof Hk as [Hh Hf Hr]. pose proof Hs as [Sl Sc Sn Sd].
  destruct (lookup_lt_is_Some_2 (heads st) id) as [hd Hhd].
  { rewrite Sl. eapply lookup_lt_Some; eauto. }
  assert (Hall : forall i, i ∈ c -> is_Some (bufs st !! i)).
  { intros i Hi. eapply chain_lookup; eauto. }
  split.
  - intros k c' i bf' Hc' Hi Hl. apply lookup_upd in Hl as (bf0 & Hl & ->).
    destruct (decide (a = i)) as [<-|Hne]; [|eauto].
    simpl. rewrite Hid. eapply Sd; eauto.
  - intros d bf' Hd Hl. apply lookup_upd in Hl as (bf0 & Hl & ->).
    destruct (decide (a = d)) as [<-|Hne].
    + exists id, c. split; [exact Hc|]. simpl.
      apply first_match_alter_new; auto.
    + destruct Hd as [->|Hd]; [congruence|].
      destruct (Hf _ _ Hd Hl) as (k & c' & Hc' & F).
      exists k, c'. split; [exact Hc'|].
      apply first_match_alter_other; auto.
      intros x [E1 E2]. simpl in E1, E2.
      eapply (miss_excludes_key st cs H id c dv bn d bf0); eauto.
  - intros d bf' Hl Hn. apply lookup_upd in Hl as (bf0 & Hl & ->).
    destruct (decide (a = d)) as [<-|Hne]; [now left | right; eauto].
Qed.

Lemma keyed_unlink st cs (H : nat -> Prop) k l1 a l2 ba :
  keyed st cs H -> cs !! k = Some (l1 ++ a :: l2) ->
  bufs st !! a = Some ba -> refcnt ba = 0 ->
  keyed st (<[k := l1 ++ l2]> cs) (fun d => H d /\ d ≠ a).
Proof.
  intros [Hh Hf Hr] Hk Ha Hz.
  pose proof (lookup_lt_Some _ _ _ Hk) as Hklt.
  split.
  - intros k' c' i bf Hc' Hi Hb. destruct (decide (k = k')) as [<-|Hne].
    + rewrite list_lookup_insert_eq in Hc' by lia. injection Hc' as <-.
      eapply Hh; eauto.
      apply elem_of_app in Hi as [Hi|Hi]; apply elem_of_app;
        [now left | right; now right].
    + rewrite list_lookup_insert_ne in Hc' by done. eauto.
  - intros d bf [Hd Hne] Hb.
    destruct (Hf _ _ Hd Hb) as (k' & c' & Hc' & F).
    destruct (decide (k = k')) as [<-|Hkk].
    + exists k, (l1 ++ l2). rewrite list_lookup_insert_eq by lia.
      split; [reflexivity|]. rewrite Hk in Hc'. injection Hc' as <-.
      eapply first_match_remove; eauto.
    + exists k', c'. rewrite list_lookup_insert_ne by done. auto.
  - intros d bf Hb Hn. split; [eauto|]. intros ->. congruence.
Qed.

Lemma keyed_push st cs (H : nat -> Prop) id c a dv bn :
  keyed st cs H -> cs !! id = Some c ->
  (forall k c', cs !! k = Some c' -> a ∉ c') ->
  is_Some (bufs st !! a) ->
  first_match (bufs st) c dv bn = None -> hash NBUCKET bn = id ->
  keyed (upd st a (repurpose dv bn)) (<[id := a :: c]> cs)
        (fun d => d = a \/ H d).
Proof.
  intros Hk Hc Hfree [ba Hba] Hmiss Hid. pose proof Hk as [Hh Hf Hr].
  pose proof (lookup_lt_Some _ _ _ Hc) as Hlt.
  assert (Hfm : forall k c' dv' bn', cs !! k = Some c' ->
            first_match (bufs (upd st a (repurpose dv bn))) c' dv' bn' =
            first_match (bufs st) c' dv' bn').
  { intros k c' dv' bn' Hc'. apply first_match_ext. intros i Hi.
    rewrite lookup_upd_ne; [done|]. intros ->. eapply Hfree; eauto. }
  assert (Hhead : forall dv' bn',
            first_match (bufs (upd st a (repurpose dv bn))) (a :: c) dv' bn' =
            if (dv =? dv') && (bn =? bn') then Some a
            else first_match (bufs st) c dv' bn').
  { intros dv' bn'. cbn [first_match]. rewrite lookup_upd_eq, Hba. simpl.
    destruct ((dv =? dv') && (bn =? bn')); [reflexivity|].
    eapply Hfm; eauto. }
  split.
  - intros k c' i bf' Hc' Hi Hl. apply lookup_upd in Hl as (bf0 & Hl & ->).
    destruct (decide (id = k)) as [<-|Hne].
    + rewrite list_lookup_insert_eq in Hc' by lia. injection Hc' as <-.
      destruct (decide (a = i)) as [<-|Hai]; [exact Hid|].
      apply elem_of_cons in Hi as [->|Hi]; [congruence | eauto].
    + rewrite list_lookup_insert_ne in Hc' by done.
      destruct (decide (a = i)) as [<-|Hai]; [|eauto].
      exfalso. eapply Hfree; eauto.
  - intros d bf' Hd Hl. apply lookup_upd in Hl as (bf0 & Hl & ->).
    destruct (decide (a = d)) as [<-|Hne].
    + exists id, (a :: c). rewrite list_lookup_insert_eq by lia.
      split; [reflexivity|]. rewrite Hhead. simpl. now rewrite !Z.eqb_refl.
    + destruct Hd as [->|Hd]; [congruence|].
      destruct (Hf _ _ Hd Hl) as (k & c' & Hc' & F).
      destruct (decide (id = k)) as [<-|Hkk].
      * exists id, (a :: c). rewrite list_lookup_insert_eq by lia.
        split; [reflexivity|]. rewrite Hc in Hc'. injection Hc' as <-.
        rewrite Hhead.
        destruct (Z.eqb_spec dv (dev bf0)) as [E1|E1];
          destruct (Z.eqb_spec bn (blockno bf0)) as [E2|E2]; simpl;
          try exact F.
        exfalso.
        eapply (miss_excludes_key st cs H id c dv bn d bf0); eauto.
      * exists k, c'. rewrite list_lookup_insert_ne by done.
        split; [exact Hc'|]. erewrite Hfm; eauto.
  - intros d bf' Hl Hn. apply lookup_upd in Hl as (bf0 & Hl & ->).
    destruct (decide (a = d)) as [<-|Hne]; [now left | right; eauto].
Qed.

(** [inv st H]: the pool and the bucket array have their sizes, the
    chains are well formed and hold exactly the descriptors [binit]
    linked, and the keys are consistent with the set [H] of descriptors
    handed out. *)
Definition inv (st : bcache) (H : nat -> Prop) : Prop :=
  exists cs,
    shape st cs /\ keyed st cs H /\
    length cs = NBUCKET /\ length (bufs st) = NBUF /\
    forall i, chained cs i <-> (i < NBUCKET * (NBUF `div` NBUCKET))%nat.

Lemma inv_unique st H : inv st H -> unique_keys st.
Proof. intros (cs & _ & Hk & _). eapply keyed_unique; eauto. Qed.

Lemma inv_upd st (H : nat -> Prop) b f :
  inv st H -> H b ->
  (forall x, next (f x) = next x /\ dev (f x) = dev x /\ blockno (f x) = blockno x) ->
  inv (upd st b f) H.
Proof.
  intros (cs & Hs & Hk & Hl & Hp & Hc) Hb Hf. exists cs.
  split; [|split; [|split; [|split]]]; auto.
  - apply shape_upd; [exact Hs|]. intros x. apply Hf.
  - apply keyed_upd; auto. intros x. destruct (Hf x) as (_ & ? & ?). auto.
  - simpl. now rewrite length_alter.
Qed.

Lemma inv_disk_io st H b w : inv st H -> inv (virtio_disk_rw st b w) H.
Proof.
  intros (cs & Hs & Hk & Hrest). exists cs. split; [|split]; [| |exact Hrest].
  - eapply shape_ext; eauto.
  - eapply keyed_ext; eauto.
Qed.

Lemma inv_iff st (H H' : nat -> Prop) :
  (forall d, H d <-> H' d) -> inv st H -> inv st H'.
Proof.
  intros E (cs & Hs & Hk & Hrest). exists cs. split; [exact Hs|].
  split; [|exact Hrest]. eapply keyed_iff; eauto.
Qed.

Lemma on_chain_chained st cs i : shape st cs -> on_chain st i <-> chained cs i.
Proof.
  intros [Sl Sc Sn Sd]. split.
  - intros (k & hd & c & Hh & Hc & Hi).
    destruct (lookup_lt_is_Some_2 cs k) as [c0 Hc0].
    { rewrite <- Sl. eapply lookup_lt_Some; eauto. }
    rewrite (chain_inj _ _ _ _ Hc (Sc _ _ _ Hh Hc0)) in Hi. now exists k, c0.
  - intros (k & c & Hc & Hi).
    destruct (lookup_lt_is_Some_2 (heads st) k) as [hd Hh].
    { rewrite Sl. eapply lookup_lt_Some; eauto. }
    exists k, hd, c. eauto.
Qed.

(** *** What the scans find *)

Lemma scan_pool_Some : forall bs i nowmin ans m x,
  scan_pool bs i nowmin ans = (m, Some x) ->
  ans = Some x \/
  ((i <= x)%nat /\ exists bf, bs !! (x - i)%nat = Some bf /\ refcnt bf = 0).
Proof.
  induction bs as [|bf bs IH]; intros i nowmin ans m x H; simpl in H.
  - left. congruence.
  - assert (Hshift : (S i <= x)%nat ->
              (bf :: bs) !! (x - i)%nat = bs !! (x - S i)%nat).
    { intros Hle. replace (x - i)%nat with (S (x - S i)) by lia. reflexivity. }
    destruct (Z.eqb_spec (refcnt bf) 0) as [Hz|Hz]; simpl in H.
    + destruct (time_stamp bf <? nowmin).
      * destruct (IH _ _ _ _ _ H) as [E|(Hle & Hex)].
        -- injection E as <-. right. split; [lia|].
           rewrite Nat.sub_diag. simpl. eauto.
        -- right. split; [lia|]. now rewrite Hshift.
      * destruct (IH _ _ _ _ _ H) as [E|(Hle & Hex)]; [now left|].
        right. split; [lia|]. now rewrite Hshift.
    + destruct (IH _ _ _ _ _ H) as [E|(Hle & Hex)]; [now left|].
      right. split; [lia|]. now rewrite Hshift.
Qed.

(** The eviction scans keep the smallest stamp among the idle
    descriptors seen so far that lie below the starting bound. *)
Lemma lru_spec bs : forall c nowmin ans m r,
  lru bs c nowmin ans = (m, r) ->
  (forall i, i ∈ c -> is_Some (bs !! i)) ->
  m <= nowmin /\
  (forall i bf, i ∈ c -> bs !! i = Some bf -> refcnt bf = 0 -> m <= time_stamp bf) /\
  ((r = ans /\ m = nowmin) \/
   (exists x bf, r = Some x /\ x ∈ c /\ bs !! x = Some bf /\
      refcnt bf = 0 /\ time_stamp bf = m /\ m < nowmin)).
Proof.
  induction c as [|i c IH]; intros nowmin ans m r H Hall; simpl in H.
  - injection H as <- <-. split; [lia|]. split; [|now left].
    intros i bf Hi. now apply elem_of_nil in Hi.
  - destruct (Hall i ltac:(left)) as [bf Hbf]. rewrite Hbf in H.
    assert (Hall' : forall j, j ∈ c -> is_Some (bs !! j)).
    { intros j Hj. apply Hall. now right. }
    assert (Hskip : (refcnt bf ≠ 0 \/ nowmin <= time_stamp bf) ->
              lru bs c nowmin ans = (m, r) ->
              m <= nowmin /\
              (forall j bj, j ∈ i :: c -> bs !! j = Some bj -> refcnt bj = 0 ->
                 m <= time_stamp bj) /\
              ((r = ans /\ m = nowmin) \/
               (exists x bx, r = Some x /\ x ∈ i :: c /\ bs !! x = Some bx /\
                  refcnt bx = 0 /\ time_stamp bx = m /\ m < nowmin))).
    { intros Hno H'. destruct (IH _ _ _ _ H' Hall') as (Hle & Hmin & Hsel).
      split; [exact Hle|]. split.
      - intros j bj Hj Hbj Hzj. apply elem_of_cons in Hj as [->|Hj]; [|eauto].
        rewrite Hbf in Hbj. injection Hbj as <-. destruct Hno; [contradiction | lia].
      - destruct Hsel as [?|(x & bx & ? & Hx & ?)]; [now left|].
        right. exists x, bx. split; [assumption|]. split; [now right | assumption]. }
    destruct (Z.eqb_spec (refcnt bf) 0) as [Hz|Hz]; simpl in H;
      [|apply Hskip; auto].
    destruct (Z.ltb_spec (time_stamp bf) nowmin) as [Hlt|Hge];
      [|apply Hskip; auto].
    destruct (IH _ _ _ _ H Hall') as (Hle & Hmin & Hsel).
    split; [lia|]. split.
    + intros j bj Hj Hbj Hzj. apply elem_of_cons in Hj as [->|Hj]; [|eauto].
      rewrite Hbf in Hbj. injection Hbj as <-. exact Hle.
    + right. destruct Hsel as [[-> ->]|(x & bx & -> & Hx & Hbx & Hzx & Htx & Hlx)].
      * exists i, bf. repeat split; auto. now left.
      * exists x, bx. repeat split; auto; [now right | lia].
Qed.

Lemma scan_pool_spec : forall bs i nowmin ans m r,
  scan_pool bs i nowmin ans = (m, r) ->
  m <= nowmin /\
  (forall j bf, bs !! j = Some bf -> refcnt bf = 0 -> m <= time_stamp bf) /\
  ((r = ans /\ m = nowmin) \/
   (exists j bf, r = Some (i + j)%nat /\ bs !! j = Some bf /\
      refcnt bf = 0 /\ time_stamp bf = m /\ m < nowmin)).
Proof.
  induction bs as [|bf bs IH]; intros i nowmin ans m r H; simpl in H.
  - injection H as <- <-. split; [lia|]. split; [|now left].
    intros j bf Hj. discriminate.
  - assert (Hskip : (refcnt bf ≠ 0 \/ nowmin <= time_stamp bf) ->
              scan_pool bs (S i) nowmin ans = (m, r) ->
              m <= nowmin /\
              (forall j bj, (bf :: bs) !! j = Some bj -> refcnt bj = 0 ->
                 m <= time_stamp bj) /\
              ((r = ans /\ m = nowmin) \/
               (exists j bj, r = Some (i + j)%nat /\ (bf :: bs) !! j = Some bj /\
                  refcnt bj = 0 /\ time_stamp bj = m /\ m < nowmin))).
    { intros Hno H'. destruct (IH _ _ _ _ _ H') as (Hle & Hmin & Hsel).
      split; [exact Hle|]. split.
      - intros [|j] bj Hbj Hzj; [|eauto].
        injection Hbj as <-. destruct Hno; [contradiction | lia].
      - destruct Hsel as [?|(j & bj & -> & ?)]; [now left|].
        right. exists (S j), bj. split; [f_equal; lia | assumption]. }
    destruct (Z.eqb_spec (refcnt bf) 0) as [Hz|Hz]; simpl in H;
      [|apply Hskip; auto].
    destruct (Z.ltb_spec (time_stamp bf) nowmin) as [Hlt|Hge];
      [|apply Hskip; auto].
    destruct (IH _ _ _ _ _ H) as (Hle & Hmin & Hsel).
    split; [lia|]. split.
    + intros [|j] bj Hbj Hzj; [|eauto]. injection Hbj as <-. exact Hle.
    + right. destruct Hsel as [[-> ->]|(j & bj & -> & Hbj & Hzj & Htj & Hlj)].
      * exists O, bf. repeat split; auto; f_equal; lia.
      * exists (S j), bj. repeat split; auto; try lia; f_equal; lia.
Qed.

Lemma first_match_remove_None bs dv bn a l2 : forall l1,
  first_match bs (l1 ++ a :: l2) dv bn = None -> is_Some (bs !! a) ->
  first_match bs (l1 ++ l2) dv bn = None.
Proof.
  induction l1 as [|i l1 IH]; intros H [ba Ha]; simpl in H |- *.
  - rewrite Ha in H.
    destruct ((dev ba =? dv) && (blockno ba =? bn)); [discriminate | exact H].
  - destruct (bs !! i) as [bf|]; [|reflexivity].
    destruct ((dev bf =? dv) && (blockno bf =? bn)); [discriminate|].
    apply IH; eauto.
Qed.

Lemma shape_fuel st cs k c :
  shape st cs -> cs !! k = Some c -> (length c < chain_fuel st)%nat.
Proof.
  intros Hs Hc. pose proof Hs as [Sl Sc Sn Sd].
  destruct (lookup_lt_is_Some_2 (heads st) k) as [hd Hhd].
  { rewrite Sl. eapply lookup_lt_Some; eauto. }
  unfold chain_fuel.
  pose proof (chain_length _ _ _ (Sc _ _ _ Hhd Hc) (Sn _ _ Hc)). lia.
Qed.

(** *** [bget] on a well-formed cache *)

Lemma chained_insert_inv cs k c i :
  chained (<[k := c]> cs) i -> i ∈ c \/ chained cs i.
Proof.
  intros (k' & c' & Hc' & Hi). destruct (decide (k = k')) as [<-|Hne].
  - destruct (decide (k < length cs)%nat) as [Hlt|Hge].
    + rewrite list_lookup_insert_eq in Hc' by done. injection Hc' as <-. now left.
    + rewrite list_insert_ge in Hc' by lia. right. now exists k, c'.
  - rewrite list_lookup_insert_ne in Hc' by done. right. now exists k', c'.
Qed.

Lemma chained_insert_new cs k c i :
  (k < length cs)%nat -> i ∈ c -> chained (<[k := c]> cs) i.
Proof.
  intros Hlt Hi. exists k, c. now rewrite list_lookup_insert_eq.
Qed.

Lemma chained_insert_old cs k c k' c' i :
  cs !! k' = Some c' -> i ∈ c' -> (k' = k -> i ∈ c) ->
  chained (<[k := c]> cs) i.
Proof.
  intros Hc' Hi Hk. destruct (decide (k = k')) as [<-|Hne].
  - apply chained_insert_new; [eapply lookup_lt_Some; eauto | auto].
  - exists k', c'. now rewrite list_lookup_insert_ne.
Qed.

Lemma length_bufs_link_set_next st pre v :
  length (bufs (link_set_next st pre v)) = length (bufs st).
Proof. destruct pre; simpl; [reflexivity | apply length_alter]. Qed.

Lemma cached_chain st cs id hd c dv bn :
  shape st cs -> id = hash NBUCKET bn ->
  heads st !! id = Some hd -> cs !! id = Some c ->
  cached NBUCKET st dv bn = first_match (bufs st) c dv bn.
Proof.
  intros Hs -> Hhd Hc. pose proof Hs as [Sl Sc Sn Sd].
  unfold cached. rewrite Hhd.
  now rewrite (scan_hit_chain _ _ _ _ _ _ (Sc _ _ _ Hhd Hc) (shape_fuel _ _ _ _ Hs Hc)).
Qed.

(** On a well-formed cache [bget] ends in one of three ways.  It
    crashes, when the bucket index is out of range or the victim of the
    global scan is not on the chain of bucket [blockno % 13].  It
    panics, when the block is not cached and no idle descriptor has a
    stamp below 2^32-1.  Or it finishes its bookkeeping in a well-formed
    state, with the same descriptors chained, and goes on to take the
    descriptor's sleep-lock. *)
Lemma bget_outcome_at st cs (H : nat -> Prop) dv bn :
  shape st cs -> keyed st cs H ->
  (bget NBUCKET st dv bn = Fault /\
   (heads st !! hash NBUCKET bn = None \/
    exists ans ba,
      bufs st !! ans = Some ba /\ refcnt ba = 0 /\
      forall c, cs !! Z.to_nat (blockno ba mod 13) = Some c -> ans ∉ c)) \/
  (bget NBUCKET st dv bn = Panic "bget: no buffers" /\
   cached NBUCKET st dv bn = None /\
   forall i bf, bufs st !! i = Some bf -> refcnt bf = 0 ->
                ~ time_stamp bf < UINT32_MAX) \/
  exists st_m b cs',
    bget NBUCKET st dv bn = acquiresleep st_m b /\
    is_Some (bufs st_m !! b) /\
    shape st_m cs' /\ keyed st_m cs' (fun d => d = b \/ H d) /\
    length cs' = length cs /\
    length (bufs st_m) = length (bufs st) /\
    (forall i, chained cs' i <-> chained cs i) /\
    (cached NBUCKET st dv bn = Some b \/
     (cached NBUCKET st dv bn = None /\
      exists bf, bufs st !! b = Some bf /\ refcnt bf = 0 /\
                 time_stamp bf < UINT32_MAX)).
Proof.
  intros Hs Hk. pose proof Hs as [Sl Sc Sn Sd].
  unfold bget. set (id := hash NBUCKET bn).
  destruct (heads st !! id) as [hd|] eqn:Hhd; [|left; split; [reflexivity | now left]].
  destruct (lookup_lt_is_Some_2 cs id) as [c Hc].
  { rewrite <- Sl. eapply lookup_lt_Some; eauto. }
  pose proof (Sc _ _ _ Hhd Hc) as Hch.
  pose proof (shape_fuel _ _ _ _ Hs Hc) as Hfuel.
  pose proof (cached_chain st cs id hd c dv bn Hs eq_refl Hhd Hc) as Hcached.
  rewrite (scan_hit_chain _ _ _ _ _ _ Hch Hfuel).
  destruct (first_match (bufs st) c dv bn) as [b|] eqn:Hfm.
  - (* hit *)
    right. right.
    destruct (first_match_Some _ _ _ _ _ Hfm) as (Hin & bf & Hbf & Ed & Eb).
    eexists _, b, cs. split; [reflexivity|]. split.
    { rewrite lookup_upd_eq, Hbf. simpl. eauto. }
    split; [apply shape_upd; [exact Hs | intros x; reflexivity]|].
    split; [|split; [reflexivity|split; [apply length_alter |
             split; [reflexivity | left; now rewrite Hcached]]]].
    apply keyed_upd; [|now left | intros x; simpl; auto].
    eapply keyed_handle; eauto. now rewrite Ed, Eb.
  - rewrite (scan_lru_chain _ _ _ _ _ _ Hch Hfuel).
    destruct (lru (bufs st) c UINT32_MAX None) as [nowmin [ans|]] eqn:Hlru.
    + (* eviction inside the bucket *)
      right. right.
      destruct (lru_spec _ _ _ _ _ _ Hlru)
        as (_ & _ & [[E _]|(x & bf & E & Hin & Hbf & Hz & Hts & Hlt)]);
        [intros i Hi; eapply chain_lookup; eauto | discriminate |].
      injection E as <-.
      eexists _, ans, cs. split; [reflexivity|]. split.
      { rewrite lookup_upd_eq, Hbf. simpl. eauto. }
      split; [apply shape_upd; [exact Hs | intros x; reflexivity]|].
      split; [|split; [reflexivity|split; [apply length_alter |
               split; [reflexivity|]]]].
      * eapply keyed_repurpose; eauto.
      * right. split; [now rewrite Hcached|]. exists bf.
        split; [exact Hbf|]. split; [exact Hz | lia].
    + (* global scan *)
      assert (Hnowmin : nowmin = UINT32_MAX).
      { destruct (lru_spec _ _ _ _ _ _ Hlru) as (_ & _ & [[_ E]|(x & bx & E & _)]);
          [intros i Hi; eapply chain_lookup; eauto | exact E | discriminate]. }
      subst nowmin. unfold bget_steal.
      destruct (scan_pool (bufs st) 0 UINT32_MAX None) as [m [ans|]] eqn:Hpool.
      2:{ right. left. split; [reflexivity|]. split; [now rewrite Hcached|].
          destruct (scan_pool_spec _ _ _ _ _ _ Hpool)
            as (_ & Hmin & [[_ E]|(x & bx & E & _)]); [|discriminate].
          subst m. intros i bf Hbf Hz. specialize (Hmin _ _ Hbf Hz). lia. }
      destruct (scan_pool_spec _ _ _ _ _ _ Hpool)
        as (_ & _ & [[E _]|(x & ba & E & Hba & Hz & Hts & Hlt)]);
        [discriminate|].
      simpl in E. injection E as <-. rewrite Hba.
      set (findid := Z.to_nat (blockno ba mod 13)).
      destruct (heads st !! findid) as [now0|] eqn:Hnow.
      2:{ left. split; [reflexivity|]. right. exists ans, ba.
          split; [exact Hba|]. split; [exact Hz|]. intros c' Hc'.
          apply lookup_lt_Some in Hc'. apply lookup_ge_None in Hnow.
          fold findid in Hc'. lia. }
      destruct (lookup_lt_is_Some_2 cs findid) as [cf Hcf].
      { rewrite <- Sl. eapply lookup_lt_Some; eauto. }
      pose proof (Sc _ _ _ Hnow Hcf) as Hchf.
      pose proof (shape_fuel _ _ _ _ Hs Hcf) as Hfuelf.
      destruct (decide (ans ∈ cf)) as [Hin|Hnin].
      2:{ rewrite (find_pre_absent st ans cf _ (HeadOf findid) now0); auto.
          left. split; [reflexivity|]. right. exists ans, ba.
          split; [exact Hba|]. split; [exact Hz|]. intros c' Hc'.
          fold findid in Hc'. congruence. }
      destruct (list_elem_of_split_l _ _ Hin) as (l1 & l2 & -> & Hl1).
      rewrite (find_pre_found st ans l2 l1 _ (HeadOf findid) now0); auto.
      2:{ rewrite length_app in Hfuelf. simpl in Hfuelf. lia. }
      set (pre := link_before (HeadOf findid) l1).
      set (st1 := link_set_next st pre (next ba)).
      set (cs1 := <[findid := l1 ++ l2]> cs).
      pose proof (lookup_lt_Some _ _ _ Hcf) as Hfindlt.
      pose proof (lookup_lt_Some _ _ _ Hc) as Hidlt.
      assert (Hs1 : shape st1 cs1) by (eapply shape_unlink; eauto).
      assert (Hview : forall i, key_view <$> bufs st1 !! i = key_view <$> bufs st !! i).
      { intros i. unfold st1. destruct pre as [k|x]; simpl; [reflexivity|].
        destruct (decide (x = i)) as [->|Hne].
        - rewrite list_lookup_alter_eq. now destruct (bufs st !! i).
        - now rewrite list_lookup_alter_ne. }
      assert (Hk1 : keyed st1 cs1 (fun d => H d /\ d ≠ ans)).
      { eapply keyed_ext; [eapply keyed_unlink; eauto | exact Hview]. }
      assert (Hba1 : exists ba1, bufs st1 !! ans = Some ba1).
      { specialize (Hview ans). rewrite Hba in Hview.
        destruct (bufs st1 !! ans); [eauto | discriminate]. }
      assert (Hl1len : length (heads st1) = length (heads st)).
      { unfold st1. destruct pre; simpl; [apply length_insert | reflexivity]. }
      destruct (lookup_lt_is_Some_2 (heads st1) id) as [h Hh].
      { rewrite Hl1len. eapply lookup_lt_Some; eauto. }
      rewrite Hh. right. right.
      destruct (lookup_lt_is_Some_2 cs1 id) as [c1 Hc1].
      { unfold cs1. rewrite length_insert. eapply lookup_lt_Some; eauto. }
      assert (Hfree : forall k c', cs1 !! k = Some c' -> ans ∉ c').
      { intros k c' Hc' Hin'. unfold cs1 in Hc'.
        pose proof (Sn _ _ Hcf) as Hnd.
        destruct (decide (findid = k)) as [<-|Hne].
        - rewrite list_lookup_insert_eq in Hc' by lia. injection Hc' as <-.
          apply NoDup_app in Hnd as (_ & N2 & N3).
          apply NoDup_cons in N3 as [N3 _].
          apply elem_of_app in Hin' as [?|?]; contradiction.
        - rewrite list_lookup_insert_ne in Hc' by done.
          apply Hne. eapply (Sd findid k); eauto;
            apply elem_of_app; right; now left. }
      assert (Hmiss1 : first_match (bufs st1) c1 dv bn = None).
      { rewrite (first_match_ext (bufs st) (bufs st1)).
        2:{ intros i _. specialize (Hview i).
            destruct (bufs st1 !! i), (bufs st !! i); try discriminate; [|done].
            injection Hview as E1 E2 _. simpl. unfold block_of. congruence. }
        unfold cs1 in Hc1.
        destruct (decide (findid = id)) as [E|Hne].
        - rewrite E in Hc1, Hcf.
          rewrite list_lookup_insert_eq in Hc1 by lia. injection Hc1 as <-.
          rewrite Hc in Hcf. injection Hcf as ->.
          eapply first_match_remove_None; eauto.
        - rewrite list_lookup_insert_ne in Hc1 by done.
          rewrite Hc in Hc1. injection Hc1 as <-. exact Hfm. }
      eexists _, ans, (<[id := ans :: c1]> cs1). split; [reflexivity|]. split.
      { simpl. rewrite !list_lookup_alter_eq.
        destruct Hba1 as [ba1 ->]. simpl. eauto. }
      split; [apply shape_upd; [|intros x; reflexivity]; apply shape_push; auto|].
      split; [|split; [|split; [|split]]].
      5:{ right. split; [now rewrite Hcached|]. exists ba.
          split; [exact Hba|]. split; [exact Hz | lia]. }
      * eapply keyed_iff with (H := fun d => d = ans \/ (H d /\ d ≠ ans)).
        { intros d. destruct (decide (d = ans)); tauto. }
        eapply keyed_ext.
        { eapply (keyed_push st1 cs1 _ id c1 ans dv bn); eauto. }
        intros i. simpl. destruct (decide (ans = i)) as [->|Hne].
        -- rewrite !list_lookup_alter_eq. now destruct (bufs st1 !! i).
        -- now rewrite !list_lookup_alter_ne.
      * unfold cs1. now rewrite !length_insert.
      * simpl. rewrite !length_alter. apply length_bufs_link_set_next.
      * intros i. split.
        -- intros Hi. apply chained_insert_inv in Hi as [Hi|Hi].
           ++ apply elem_of_cons in Hi as [->|Hi].
              ** exists findid, (l1 ++ ans :: l2). split; [exact Hcf|].
                 apply elem_of_app. right. now left.
              ** assert (Hi1 : chained cs1 i) by (now exists id, c1).
                 apply chained_insert_inv in Hi1 as [Hi1|Hi1]; [|exact Hi1].
                 exists findid, (l1 ++ ans :: l2). split; [exact Hcf|].
                 apply elem_of_app in Hi1 as [?|?]; apply elem_of_app;
                   [now left | right; now right].
           ++ apply chained_insert_inv in Hi as [Hi|Hi]; [|exact Hi].
              exists findid, (l1 ++ ans :: l2). split; [exact Hcf|].
              apply elem_of_app in Hi as [?|?]; apply elem_of_app;
                [now left | right; now right].
        -- intros (k & c' & Hc' & Hi).
           destruct (decide (i = ans)) as [->|Hne].
           { apply chained_insert_new;
               [unfold cs1; rewrite length_insert; lia | now left]. }
           assert (Hi1 : chained cs1 i).
           { eapply chained_insert_old; eauto. intros ->.
             rewrite Hcf in Hc'. injection Hc' as <-.
             apply elem_of_app in Hi as [Hi|Hi]; apply elem_of_app; [now left|].
             apply elem_of_cons in Hi as [->|Hi]; [congruence | now right]. }
           destruct Hi1 as (k1 & c1' & Hc1' & Hi1).
           eapply chained_insert_old; eauto. intros ->.
           rewrite Hc1 in Hc1'. injection Hc1' as <-. now right.
Qed.

(** The same, in terms of the invariant. *)
Lemma bget_outcome st (H : nat -> Prop) dv bn :
  inv st H ->
  (bget NBUCKET st dv bn = Fault /\
   (heads st !! hash NBUCKET bn = None \/
    exists ans ba,
      bufs st !! ans = Some ba /\ refcnt ba = 0 /\
      forall hd c,
        heads st !! Z.to_nat (blockno ba mod 13) = Some hd ->
        chain (bufs st) hd c -> ans ∉ c)) \/
  (bget NBUCKET st dv bn = Panic "bget: no buffers" /\
   cached NBUCKET st dv bn = None /\
   forall i bf, bufs st !! i = Some bf -> refcnt bf = 0 ->
                ~ time_stamp bf < UINT32_MAX) \/
  exists st_m b,
    bget NBUCKET st dv bn = acquiresleep st_m b /\
    is_Some (bufs st_m !! b) /\
    inv st_m (fun d => d = b \/ H d) /\
    (cached NBUCKET st dv bn = Some b \/
     (cached NBUCKET st dv bn = None /\
      exists bf, bufs st !! b = Some bf /\ refcnt bf = 0 /\
                 time_stamp bf < UINT32_MAX)).
Proof.
  intros (cs & Hs & Hk & Hl & Hp & Hc).
  destruct (bget_outcome_at st cs H dv bn Hs Hk)
    as [[E Hwhy]|[Hpanic|(st_m & b & cs' & E & Hb & Hs' & Hk' & Hl' & Hp' & Hc' & Hcand)]].
  - left. split; [exact E|]. destruct Hwhy as [Hno|(ans & ba & Hba & Hz & Hout)];
      [now left|]. right. exists ans, ba. split; [exact Hba|]. split; [exact Hz|].
    intros hd c Hh Hch. pose proof Hs as [Sl Sc Sn Sd].
    destruct (lookup_lt_is_Some_2 cs (Z.to_nat (blockno ba mod 13))) as [c0 Hc0].
    { rewrite <- Sl. eapply lookup_lt_Some; eauto. }
    rewrite (chain_inj _ _ _ _ Hch (Sc _ _ _ Hh Hc0)). now apply Hout.
  - right. now left.
  - right. right. exists st_m, b. split; [exact E|]. split; [exact Hb|].
    split; [|exact Hcand]. exists cs'.
    split; [exact Hs'|]. split; [exact Hk'|]. split; [congruence|].
    split; [congruence|]. intros i. rewrite Hc'. apply Hc.
Qed.

End Keyed.

End BioInv.

(** ** The cache after [binit] *)

Module BioInit.
Import Bio BioFacts BioInv.

Local Open Scope Z_scope.

Section Init.

Variables (NBUF NBUCKET : nat).

(** Loop invariant of [binit]: [b] descriptors have been linked. *)
Record linked (st : bcache) (b : nat) (cs : list (list nat)) : Prop := Linked {
  li_pool : length (bufs st) = NBUF;
  li_buckets : length cs = NBUCKET;
  li_shape : shape st cs;
  li_below : forall k c i, cs !! k = Some c -> i ∈ c -> (i < b)%nat;
  li_all : forall i, (i < b)%nat -> chained cs i;
  li_blockno : forall k c i bf,
    cs !! k = Some c -> i ∈ c -> bufs st !! i = Some bf ->
    blockno bf = Z.of_nat k;
  li_idle : forall i bf, bufs st !! i = Some bf -> refcnt bf = 0
}.

Lemma linked_zeroed : linked (zeroed NBUF NBUCKET) 0 (replicate NBUCKET []).
Proof.
  split; simpl.
  - apply length_replicate.
  - apply length_replicate.
  - split; simpl.
    + now rewrite !length_replicate.
    + intros k hd c Hh Hc. apply lookup_replicate in Hh as [-> _].
      apply lookup_replicate in Hc as [-> _]. reflexivity.
    + intros k c Hc. apply lookup_replicate in Hc as [-> _]. constructor.
    + intros k1 k2 c1 c2 i Hc _ Hi. apply lookup_replicate in Hc as [-> _].
      now apply elem_of_nil in Hi.
  - intros k c i Hc Hi. apply lookup_replicate in Hc as [-> _].
    now apply elem_of_nil in Hi.
  - intros i Hi. lia.
  - intros k c i bf Hc Hi. apply lookup_replicate in Hc as [-> _].
    now apply elem_of_nil in Hi.
  - intros i bf Hb. apply lookup_replicate in Hb as [-> _]. reflexivity.
Qed.

Lemma linked_step st b cs i :
  linked st b cs -> (i < NBUCKET)%nat -> (b < NBUF)%nat ->
  exists cs', linked (fst (binit_link i (st, b))) (S b) cs' /\
              snd (binit_link i (st, b)) = S b.
Proof.
  intros [Lp Lb Ls Lw La Lk Li] Hi Hb.
  destruct (lookup_lt_is_Some_2 cs i) as [c Hc]; [lia|].
  pose proof Ls as [Sl Sc Sn Sd].
  destruct (lookup_lt_is_Some_2 (heads st) i) as [h Hh]; [lia|].
  destruct (lookup_lt_is_Some_2 (bufs st) b) as [bb Hbb]; [lia|].
  exists (<[i := b :: c]> cs). split; [|reflexivity].
  assert (Hfree : forall k c', cs !! k = Some c' -> b ∉ c').
  { intros k c' Hc' Hin. specialize (Lw _ _ _ Hc' Hin). lia. }
  unfold binit_link. cbn [fst]. fold (upd st b (set_blockno (Z.of_nat i))).
  set (st1 := upd st b (set_blockno (Z.of_nat i))).
  assert (Hh1 : heads st1 !! i = Some h) by exact Hh.
  rewrite Hh1. cbn [default].
  assert (Hsub : forall k c', <[i := b :: c]> cs !! k = Some c' ->
            (k = i /\ c' = b :: c) \/ (k ≠ i /\ cs !! k = Some c')).
  { intros k c' H'. destruct (decide (i = k)) as [<-|Hne].
    - rewrite list_lookup_insert_eq in H' by lia. injection H' as <-. now left.
    - rewrite list_lookup_insert_ne in H' by done. right. split; congruence. }
  assert (Hlook : forall j bf, bufs (set_head (upd st1 b (set_next h)) i (Some b)) !! j = Some bf ->
            exists bf0, bufs st !! j = Some bf0 /\ refcnt bf = refcnt bf0 /\
              (j ≠ b -> blockno bf = blockno bf0) /\
              (j = b -> blockno bf = Z.of_nat i)).
  { intros j bf Hj. simpl in Hj. destruct (decide (b = j)) as [<-|Hne].
    - rewrite !list_lookup_alter_eq, Hbb in Hj. injection Hj as <-.
      exists bb. simpl. repeat split; congruence.
    - rewrite !list_lookup_alter_ne in Hj by done.
      exists bf. repeat split; congruence. }
  split.
  - simpl. now rewrite !length_alter.
  - now rewrite length_insert.
  - apply shape_push; auto.
    + apply shape_upd; [exact Ls | intros x; reflexivity].
    + unfold st1. rewrite lookup_upd_eq, Hbb. simpl. eauto.
  - intros k c' j Hc' Hj. destruct (Hsub _ _ Hc') as [[-> ->]|[Hne Hc0]].
    + apply elem_of_cons in Hj as [->|Hj]; [lia|].
      specialize (Lw _ _ _ Hc Hj). lia.
    + specialize (Lw _ _ _ Hc0 Hj). lia.
  - intros j Hj. destruct (decide (j = b)) as [->|Hne].
    + apply chained_insert_new; [lia | now left].
    + destruct (La j) as (k & c' & Hc' & Hin); [lia|].
      eapply chained_insert_old; eauto. intros ->.
      rewrite Hc in Hc'. injection Hc' as <-. now right.
  - intros k c' j bf Hc' Hj Hbf.
    destruct (Hlook _ _ Hbf) as (bf0 & Hbf0 & _ & Hother & Hself).
    destruct (Hsub _ _ Hc') as [[-> ->]|[Hne Hc0]].
    + apply elem_of_cons in Hj as [->|Hj]; [now apply Hself|].
      rewrite Hother; [eauto|]. intros ->. eapply Hfree; eauto.
    + rewrite Hother; [eauto|]. intros ->. eapply Hfree; eauto.
  - intros j bf Hbf. destruct (Hlook _ _ Hbf) as (bf0 & Hbf0 & -> & _). eauto.
Qed.

Lemma linked_bucket i : forall (l : list nat) st b cs,
  linked st b cs -> (i < NBUCKET)%nat -> (b + length l <= NBUF)%nat ->
  exists cs',
    linked (fst (foldl (fun a _ => binit_link i a) (st, b) l)) (b + length l) cs' /\
    snd (foldl (fun a _ => binit_link i a) (st, b) l) = (b + length l)%nat.
Proof.
  induction l as [|x l IH]; intros st b cs Hl Hi Hb.
  - simpl. rewrite Nat.add_0_r. eauto.
  - simpl in Hb. cbn [foldl].
    destruct (linked_step st b cs i Hl Hi) as (cs1 & Hl1 & Hb1); [lia|].
    destruct (binit_link i (st, b)) as [st1 b1] eqn:E. simpl in Hl1, Hb1.
    subst b1. destruct (IH st1 (S b) cs1 Hl1 Hi) as (cs' & Hl' & Hb'); [lia|].
    exists cs'. simpl. replace (b + S (length l))%nat with (S b + length l)%nat by lia.
    auto.
Qed.

Lemma linked_buckets : forall n lo st b cs,
  linked st b cs -> (lo + n <= NBUCKET)%nat ->
  (b + n * (NBUF `div` NBUCKET) <= NBUF)%nat ->
  exists cs',
    linked (fst (foldl (binit_bucket NBUF NBUCKET) (st, b) (seq lo n)))
           (b + n * (NBUF `div` NBUCKET)) cs'.
Proof.
  induction n as [|n IH]; intros lo st b cs Hl Hlo Hb.
  - simpl. rewrite Nat.add_0_r. eauto.
  - cbn [seq foldl]. unfold binit_bucket at 2.
    destruct (linked_bucket lo (seq 0 (NBUF `div` NBUCKET)) st b cs Hl)
      as (cs1 & Hl1 & Hb1); [lia | rewrite length_seq; lia |].
    rewrite length_seq in Hl1, Hb1.
    destruct (foldl (fun a _ => binit_link lo a) (st, b)
                (seq 0 (NBUF `div` NBUCKET))) as [st1 b1] eqn:E.
    simpl in Hl1, Hb1. subst b1.
    destruct (IH (S lo) st1 _ cs1 Hl1) as (cs' & Hl'); [lia | lia |].
    exists cs'.
    replace (b + S n * (NBUF `div` NBUCKET))%nat
      with (b + NBUF `div` NBUCKET + n * (NBUF `div` NBUCKET))%nat by lia.
    exact Hl'.
Qed.

Lemma init_sleeplocks_zeroed :
  init_sleeplocks (zeroed NBUF NBUCKET) = zeroed NBUF NBUCKET.
Proof.
  unfold init_sleeplocks, zeroed. simpl. now rewrite fmap_replicate.
Qed.

Lemma binit_linked :
  exists cs, linked (binit NBUF NBUCKET) (NBUCKET * (NBUF `div` NBUCKET)) cs.
Proof.
  unfold binit. rewrite init_sleeplocks_zeroed.
  pose proof (Nat.Div0.mul_div_le NBUF NBUCKET) as Hle.
  destruct (linked_buckets NBUCKET 0 _ 0 _ linked_zeroed) as (cs & Hl);
    [lia | lia |].
  exists cs. exact Hl.
Qed.

(** The initialized cache is well formed and nothing is handed out. *)
Lemma binit_inv : inv NBUF NBUCKET (binit NBUF NBUCKET) (fun _ => False).
Proof.
  destruct binit_linked as (cs & [Lp Lb Ls Lw La Lk Li]).
  exists cs. split; [exact Ls|]. split; [|split; [exact Lb|split; [exact Lp|]]].
  - split.
    + intros k c i bf Hc Hi Hbf. rewrite (Lk _ _ _ _ Hc Hi Hbf).
      unfold hash. pose proof (lookup_lt_Some _ _ _ Hc).
      rewrite Z.mod_small by lia. apply Nat2Z.id.
    + intros d bf [].
    + intros d bf Hbf Hn. apply Hn. eauto.
  - intros i. split; [|apply La].
    intros (k & c & Hc & Hi). eapply Lw; eauto.
Qed.

End Init.

End BioInit.

(** ** Call sequences *)

Module BioRun.
Import Bio BioFacts BioInv BioInit.

Local Open Scope Z_scope.

(** The cache together with the [struct buf *] values the caller has
    been given by [bget] or [bread]. *)
Record sys := Sys {
  cache : bcache;
  handles : list nat
}.

Inductive call :=
| Bget (dv bn : Z)
| Bread (dv bn : Z)
| Bwrite (b : nat)
| Brelse (b : nat) (ticks : Z)
| Bpin (b : nat)
| Bunpin (b : nat).

Section Run.

Variable NBUCKET : nat.

(** A call on a pointer the caller holds, keeping the pointers. *)
Definition on_handle (s : sys) (b : nat) (o : outcome unit) : option sys :=
  if bool_decide (b ∈ handles s)
  then match o with
       | Ret st _ => Some (Sys st (handles s))
       | _ => None
       end
  else None.

(** One call that returns to the caller; [None] when it does not return
    (panic, fault, sleep) or names a pointer the caller was never given. *)
Definition exec (s : sys) (c : call) : option sys :=
  match c with
  | Bget dv bn =>
      match bget NBUCKET (cache s) dv bn with
      | Ret st b => Some (Sys st (b :: handles s))
      | _ => None
      end
  | Bread dv bn =>
      match bread NBUCKET (cache s) dv bn with
      | Ret st b => Some (Sys st (b :: handles s))
      | _ => None
      end
  | Bwrite b => on_handle s b (bwrite (cache s) b)
  | Brelse b ticks => on_handle s b (brelse NBUCKET (cache s) b ticks)
  | Bpin b => on_handle s b (bpin NBUCKET (cache s) b)
  | Bunpin b => on_handle s b (bunpin NBUCKET (cache s) b)
  end.

Fixpoint run (s : sys) (cs : list call) : option sys :=
  match cs with
  | [] => Some s
  | c :: cs' =>
      match exec s c with
      | Some s' => run s' cs'
      | None => None
      end
  end.

(** The state in which a call that does not return leaves its caller
    asleep on a descriptor's lock, if that is how it ends. *)
Definition asleep (s : sys) (c : call) : list bcache :=
  match c with
  | Bget dv bn =>
      match bget NBUCKET (cache s) dv bn with
      | Sleeps st _ => [st]
      | _ => []
      end
  | Bread dv bn =>
      match bread NBUCKET (cache s) dv bn with
      | Sleeps st _ => [st]
      | _ => []
      end
  | _ => []
  end.

(** Every state of the cache a sequence of calls goes through, up to
    the first call that does not return. *)
Fixpoint visited (s : sys) (cs : list call) : list bcache :=
  cache s ::
  match cs with
  | [] => []
  | c :: cs' =>
      match exec s c with
      | Some s' => visited s' cs'
      | None => asleep s c
      end
  end.

End Run.

(** The system after [binit]. *)
Definition boot (NBUF NBUCKET : nat) : sys := Sys (binit NBUF NBUCKET) [].

Section RunFacts.

Variables (NBUF NBUCKET : nat).

Lemma acquiresleep_Ret st b st' b' :
  acquiresleep st b = Ret st' b' ->
  b' = b /\ st' = upd st b (set_locked true) /\
  exists bf, bufs st !! b = Some bf /\ locked bf = false.
Proof.
  unfold acquiresleep. destruct (bufs st !! b) as [bf|]; [|discriminate].
  destruct (locked bf) eqn:E; [discriminate|].
  intros H. injection H as <- <-. eauto.
Qed.

Lemma acquiresleep_Sleeps st b st' b' :
  acquiresleep st b = Sleeps st' b' -> b' = b /\ st' = st.
Proof.
  unfold acquiresleep. destruct (bufs st !! b) as [bf|]; [|discriminate].
  destruct (locked bf); [|discriminate].
  intros H. injection H as <- <-. auto.
Qed.

Lemma acquiresleep_total st b :
  is_Some (bufs st !! b) ->
  (exists st', acquiresleep st b = Ret st' b) \/ acquiresleep st b = Sleeps st b.
Proof.
  intros [bf Hbf]. unfold acquiresleep. rewrite Hbf.
  destruct (locked bf); eauto.
Qed.

(** [bget] keeps the cache well formed, whether it returns or leaves the
    caller asleep on the descriptor's lock. *)
Lemma bget_inv st (H : nat -> Prop) dv bn st' b :
  inv NBUF NBUCKET st H ->
  bget NBUCKET st dv bn = Ret st' b \/ bget NBUCKET st dv bn = Sleeps st' b ->
  inv NBUF NBUCKET st' (fun d => d = b \/ H d).
Proof.
  intros Hi Hres.
  destruct (bget_outcome NBUF NBUCKET st H dv bn Hi)
    as [[E _]|[[E _]|(st_m & b0 & E & Hb0 & Hm & _)]];
    try (rewrite E in Hres; destruct Hres; discriminate).
  rewrite E in Hres. destruct Hres as [R|S].
  - apply acquiresleep_Ret in R as (-> & -> & _).
    apply inv_upd; [exact Hm | now left | intros x; simpl; auto].
  - apply acquiresleep_Sleeps in S as (-> & ->). exact Hm.
Qed.

Lemma bget_no_diverge st (H : nat -> Prop) dv bn :
  inv NBUF NBUCKET st H -> bget NBUCKET st dv bn ≠ Diverges.
Proof.
  intros Hi.
  destruct (bget_outcome NBUF NBUCKET st H dv bn Hi)
    as [[E _]|[[E _]|(st_m & b0 & E & Hb0 & Hm & _)]];
    rewrite E; try discriminate.
  destruct (acquiresleep_total st_m b0 Hb0) as [[st' ->]| ->]; discriminate.
Qed.

Lemma bread_inv st (H : nat -> Prop) dv bn st' b :
  inv NBUF NBUCKET st H ->
  bread NBUCKET st dv bn = Ret st' b \/ bread NBUCKET st dv bn = Sleeps st' b ->
  inv NBUF NBUCKET st' (fun d => d = b \/ H d).
Proof.
  intros Hi Hres. unfold bread in Hres.
  destruct (bget NBUCKET st dv bn) as [st1 b1|st1 b1| | |] eqn:E;
    try (destruct Hres; discriminate).
  - destruct Hres as [R|R]; [|destruct (bufs st1 !! b1) as [bf|];
      [destruct (valid bf =? 0)|]; discriminate].
    assert (Hi1 : inv NBUF NBUCKET st1 (fun d => d = b1 \/ H d)).
    { eapply bget_inv; eauto. }
    destruct (bufs st1 !! b1) as [bf|]; [|discriminate].
    destruct (valid bf =? 0); injection R as <- <-; [|exact Hi1].
    apply inv_upd; [|now left | intros x; simpl; auto].
    now apply inv_disk_io.
  - destruct Hres as [R|R]; [discriminate|]. injection R as <- <-.
    eapply bget_inv; eauto.
Qed.

Lemma on_handle_Some s b o s' :
  on_handle s b o = Some s' ->
  b ∈ handles s /\ exists st, o = Ret st tt /\ s' = Sys st (handles s).
Proof.
  unfold on_handle. case_bool_decide; [|discriminate].
  destruct o as [st []| | | |]; try discriminate.
  intros E. injection E as <-. eauto.
Qed.

Lemma exec_inv s c s' :
  inv NBUF NBUCKET (cache s) (fun d => d ∈ handles s) ->
  exec NBUCKET s c = Some s' ->
  inv NBUF NBUCKET (cache s') (fun d => d ∈ handles s').
Proof.
  intros Hi He. destruct c as [dv bn|dv bn|b|b ticks|b|b]; simpl in He.
  - destruct (bget NBUCKET (cache s) dv bn) as [st b| | | |] eqn:E;
      try discriminate.
    injection He as <-. simpl.
    eapply inv_iff; [|eapply bget_inv; eauto].
    intros d. simpl. now rewrite elem_of_cons.
  - destruct (bread NBUCKET (cache s) dv bn) as [st b| | | |] eqn:E;
      try discriminate.
    injection He as <-. simpl.
    eapply inv_iff; [|eapply bread_inv; eauto].
    intros d. simpl. now rewrite elem_of_cons.
  - apply on_handle_Some in He as (Hb & st & E & ->). simpl.
    unfold bwrite in E. destruct (bufs (cache s) !! b) as [bf|]; [|discriminate].
    destruct (negb (locked bf)); [discriminate|]. injection E as <-.
    now apply inv_disk_io.
  - apply on_handle_Some in He as (Hb & st & E & ->). simpl.
    unfold brelse in E. destruct (bufs (cache s) !! b) as [bf|]; [|discriminate].
    destruct (negb (locked bf)); [discriminate|].
    destruct (heads (cache s) !! hash NBUCKET (blockno bf)); [|discriminate].
    injection E as <-. apply inv_upd; auto.
    intros x. destruct (uint (refcnt bf - 1) =? 0); simpl; auto.
  - apply on_handle_Some in He as (Hb & st & E & ->). simpl.
    unfold bpin in E. destruct (bufs (cache s) !! b) as [bf|]; [|discriminate].
    destruct (heads (cache s) !! hash NBUCKET (blockno bf)); [|discriminate].
    injection E as <-. apply inv_upd; auto.
  - apply on_handle_Some in He as (Hb & st & E & ->). simpl.
    unfold bunpin in E. destruct (bufs (cache s) !! b) as [bf|]; [|discriminate].
    destruct (heads (cache s) !! hash NBUCKET (blockno bf)); [|discriminate].
    injection E as <-. apply inv_upd; auto.
Qed.

Lemma run_inv : forall calls s s',
  inv NBUF NBUCKET (cache s) (fun d => d ∈ handles s) ->
  run NBUCKET s calls = Some s' ->
  inv NBUF NBUCKET (cache s') (fun d => d ∈ handles s').
Proof.
  induction calls as [|c calls IH]; intros s s' Hi Hr; simpl in Hr.
  - injection Hr as <-. exact Hi.
  - destruct (exec NBUCKET s c) as [s1|] eqn:E; [|discriminate].
    eapply IH; [|exact Hr]. eapply exec_inv; eauto.
Qed.

Lemma reachable_inv calls s :
  run NBUCKET (boot NBUF NBUCKET) calls = Some s ->
  inv NBUF NBUCKET (cache s) (fun d => d ∈ handles s).
Proof.
  apply run_inv. simpl. eapply inv_iff; [|apply binit_inv].
  intros d. simpl. now rewrite elem_of_nil.
Qed.

Lemma visited_unique : forall calls s,
  inv NBUF NBUCKET (cache s) (fun d => d ∈ handles s) ->
  Forall unique_keys (visited NBUCKET s calls).
Proof.
  induction calls as [|c calls IH]; intros s Hi; cbn [visited];
    (constructor; [eapply inv_unique; eauto|]); [constructor|].
  destruct (exec NBUCKET s c) as [s'|] eqn:E.
  - apply IH. eapply exec_inv; eauto.
  - destruct c as [dv bn|dv bn|b|b ticks|b|b]; simpl; try constructor.
    + destruct (bget NBUCKET (cache s) dv bn) as [| st b | | |] eqn:Eg;
        constructor; [|constructor].
      eapply inv_unique. eapply bget_inv; eauto.
    + destruct (bread NBUCKET (cache s) dv bn) as [| st b | | |] eqn:Eg;
        constructor; [|constructor].
      eapply inv_unique. eapply bread_inv; eauto.
Qed.

End RunFacts.

(** C6: along every sequence of [bget], [bread], [bwrite], [brelse],
    [bpin] and [bunpin] calls from the initialized cache, the caller
    passing only pointers it was given, in no state the cache goes
    through do two distinct descriptors with nonzero reference count
    cache the same (device, block) pair; the state in which a call
    leaves its caller asleep on a descriptor's lock is one of them. *)
Theorem cache_key_uniqueness NBUF NBUCKET calls :
  Forall unique_keys (visited NBUCKET (boot NBUF NBUCKET) calls).
Proof.
  apply (visited_unique NBUF). simpl.
  eapply inv_iff; [|apply binit_inv].
  intros d. simpl. now rewrite elem_of_nil.
Qed.

End BioRun.

(** ** What one [bget] does to each descriptor *)

Module BioPaths.
Import Bio BioFacts BioInv BioRun.

Local Open Scope Z_scope.

(** Two descriptors that differ at most in their chain pointer. *)
Definition same_but_next (a b : buf) : Prop :=
  valid a = valid b /\ dev a = dev b /\ blockno a = blockno b /\
  locked a = locked b /\ refcnt a = refcnt b /\ time_stamp a = time_stamp b.

Lemma same_but_next_refl a : same_but_next a a.
Proof. repeat split. Qed.

Lemma same_but_next_set_next v a : same_but_next (set_next v a) a.
Proof. repeat split. Qed.

Lemma scan_hit_Some bs dv bn b : forall fuel p,
  scan_hit fuel bs p dv bn = Exit (Some b) ->
  exists bf, bs !! b = Some bf /\ dev bf = dv /\ blockno bf = bn.
Proof.
  induction fuel as [|fuel IH]; intros p H; [discriminate|].
  simpl in H. destruct p as [i|]; [|discriminate].
  destruct (bs !! i) as [bf|] eqn:Hbf; [|discriminate].
  destruct (Z.eqb_spec (dev bf) dv) as [Hd|Hd];
    destruct (Z.eqb_spec (blockno bf) bn) as [Hb|Hb]; simpl in H; eauto.
  injection H as <-. eauto.
Qed.

Lemma scan_lru_Some bs x : forall fuel p nowmin ans m,
  scan_lru fuel bs p nowmin ans = Exit (m, Some x) ->
  ans = Some x \/ exists bf, bs !! x = Some bf /\ refcnt bf = 0.
Proof.
  induction fuel as [|fuel IH]; intros p nowmin ans m H; [discriminate|].
  simpl in H. destruct p as [i|]; [|left; congruence].
  destruct (bs !! i) as [bf|] eqn:Hbf; [|discriminate].
  destruct (Z.eqb_spec (refcnt bf) 0) as [Hz|Hz]; simpl in H.
  - destruct (time_stamp bf <? nowmin).
    + destruct (IH _ _ _ _ H) as [E|Hex]; [|now right].
      injection E as <-. right. eauto.
    + eauto.
  - eauto.
Qed.

Lemma link_set_next_lookup_inv st pre v i bf0 :
  bufs st !! i = Some bf0 ->
  exists bf, bufs (link_set_next st pre v) !! i = Some bf /\ same_but_next bf bf0.
Proof.
  intros H. destruct pre as [k|x]; simpl.
  - exists bf0. split; [exact H | apply same_but_next_refl].
  - destruct (decide (x = i)) as [->|Hne].
    + rewrite list_lookup_alter_eq, H. simpl. eexists. split; [reflexivity|].
      apply same_but_next_set_next.
    + rewrite list_lookup_alter_ne by done.
      exists bf0. split; [exact H | apply same_but_next_refl].
Qed.

Section Paths.

Variable NBUCKET : nat.

(** The bookkeeping state [st_m] in which [bget] goes for the lock of
    [b], by path: hit, eviction inside the bucket, eviction from the
    whole pool. *)
Inductive settled (st : bcache) (dv bn : Z) (b : nat) (st_m : bcache) : Prop :=
| settled_hit bf0 :
    cached NBUCKET st dv bn = Some b ->
    bufs st !! b = Some bf0 -> dev bf0 = dv -> blockno bf0 = bn ->
    st_m = upd st b (fun bf => set_refcnt (uint (refcnt bf + 1)) bf) ->
    settled st dv bn b st_m
| settled_evict bf0 :
    cached NBUCKET st dv bn = None ->
    bufs st !! b = Some bf0 -> refcnt bf0 = 0 ->
    st_m = upd st b (repurpose dv bn) ->
    settled st dv bn b st_m
| settled_steal ba pre h :
    cached NBUCKET st dv bn = None ->
    bufs st !! b = Some ba -> refcnt ba = 0 ->
    st_m = upd (set_head (upd (link_set_next st pre (next ba)) b (set_next h))
                         (hash NBUCKET bn) (Some b))
               b (repurpose dv bn) ->
    settled st dv bn b st_m.

Lemma bget_settles st dv bn st' b :
  bget NBUCKET st dv bn = Ret st' b \/ bget NBUCKET st dv bn = Sleeps st' b ->
  exists st_m,
    bget NBUCKET st dv bn = acquiresleep st_m b /\ settled st dv bn b st_m.
Proof.
  unfold bget, cached.
  destruct (heads st !! hash NBUCKET bn) as [hd|] eqn:Hhd;
    [|intros [?|?]; discriminate].
  destruct (scan_hit (chain_fuel st) (bufs st) hd dv bn) as [[h|]| |] eqn:Hscan;
    try (intros [?|?]; discriminate).
  - (* hit *)
    intros Hres.
    assert (b = h) as ->.
    { destruct Hres as [R|S];
        [apply acquiresleep_Ret in R | apply acquiresleep_Sleeps in S]; tauto. }
    destruct (scan_hit_Some _ _ _ _ _ _ Hscan) as (bf0 & Hbf0 & Ed & Eb).
    eexists. split; [reflexivity|].
    eapply settled_hit; eauto. unfold cached. now rewrite Hhd, Hscan.
  - assert (Hmiss : cached NBUCKET st dv bn = None).
    { unfold cached. now rewrite Hhd, Hscan. }
    destruct (scan_lru (chain_fuel st) (bufs st) hd UINT32_MAX None)
      as [[nowmin [ans|]]| |] eqn:Hlru; try (intros [?|?]; discriminate).
    + (* eviction inside the bucket *)
      intros Hres.
      assert (b = ans) as ->.
      { destruct Hres as [R|S];
          [apply acquiresleep_Ret in R | apply acquiresleep_Sleeps in S]; tauto. }
      destruct (scan_lru_Some _ _ _ _ _ _ _ Hlru) as [E|(bf0 & Hbf0 & Hz)];
        [discriminate|].
      eexists. split; [reflexivity|]. eapply settled_evict; eauto.
    + (* eviction from the pool *)
      unfold bget_steal.
      destruct (scan_pool (bufs st) 0 nowmin None) as [m [ans|]] eqn:Hpool;
        [|intros [?|?]; discriminate].
      destruct (scan_pool_Some _ _ _ _ _ _ Hpool) as [E|(_ & ba & Hba & Hz)];
        [discriminate|].
      rewrite Nat.sub_0_r in Hba. rewrite Hba.
      destruct (heads st !! Z.to_nat (blockno ba mod 13)) as [now0|];
        [|intros [?|?]; discriminate].
      destruct (find_pre (chain_fuel st) st
                  (Some (HeadOf (Z.to_nat (blockno ba mod 13)))) now0 ans)
        as [[pre|]| |]; try (intros [?|?]; discriminate).
      destruct (heads (link_set_next st pre (next ba)) !! hash NBUCKET bn)
        as [h|]; [|intros [?|?]; discriminate].
      intros Hres.
      assert (b = ans) as ->.
      { destruct Hres as [R|S];
          [apply acquiresleep_Ret in R | apply acquiresleep_Sleeps in S]; tauto. }
      eexists. split; [reflexivity|]. eapply settled_steal; eauto.
Qed.

(** The descriptor [bget] settles on carries the requested key; its
    other fields depend on the path. *)
Lemma settled_target st dv bn b st_m :
  settled st dv bn b st_m ->
  exists bf0 bf,
    bufs st !! b = Some bf0 /\ bufs st_m !! b = Some bf /\
    dev bf = dv /\ blockno bf = bn /\
    locked bf = locked bf0 /\ time_stamp bf = time_stamp bf0 /\
    match cached NBUCKET st dv bn with
    | Some h => b = h /\ valid bf = valid bf0 /\ refcnt bf = uint (refcnt bf0 + 1)
    | None => valid bf = 0 /\ refcnt bf = 1 /\ refcnt bf0 = 0
    end.
Proof.
  intros [bf0 Hc Hb Ed Eb ->|bf0 Hc Hb Hz ->|ba pre h Hc Hb Hz ->].
  - exists bf0. eexists. split; [exact Hb|]. rewrite lookup_upd_eq, Hb.
    split; [reflexivity|]. rewrite Hc. simpl. repeat split; auto.
  - exists bf0. eexists. split; [exact Hb|]. rewrite lookup_upd_eq, Hb.
    split; [reflexivity|]. rewrite Hc. simpl. repeat split; auto.
  - destruct (link_set_next_lookup_inv st pre (next ba) b ba Hb)
      as (b1 & Hb1 & S1).
    exists ba. eexists. split; [exact Hb|]. simpl.
    rewrite !list_lookup_alter_eq, Hb1. split; [reflexivity|].
    rewrite Hc. destruct S1 as (_ & _ & _ & Hl & _ & Ht).
    simpl. repeat split; auto.
Qed.

(** Every other descriptor keeps all its fields but, possibly, its chain
    pointer. *)
Lemma settled_others st dv bn b st_m i bi :
  settled st dv bn b st_m -> i ≠ b -> bufs st !! i = Some bi ->
  exists bf, bufs st_m !! i = Some bf /\ same_but_next bf bi.
Proof.
  intros [bf0 Hc Hb Ed Eb ->|bf0 Hc Hb Hz ->|ba pre h Hc Hb Hz ->] Hne Hi.
  - rewrite lookup_upd_ne by done. eauto using same_but_next_refl.
  - rewrite lookup_upd_ne by done. eauto using same_but_next_refl.
  - destruct (link_set_next_lookup_inv st pre (next ba) i bi Hi)
      as (b1 & Hb1 & S1).
    simpl. rewrite !list_lookup_alter_ne by done. eauto.
Qed.

End Paths.

End BioPaths.

(** ** What holds of every reachable cache *)

Module BioTotal.
Import Bio BioFacts BioInv BioInit BioRun BioPaths.

Local Open Scope Z_scope.

(** X1: at every point of every run the chained descriptors are the
    first [NBUCKET * (NBUF / NBUCKET)] of the pool, all of them when
    [NBUCKET] divides [NBUF]; each of them is on one chain only, and
    once. *)
Theorem chained_descriptors NBUF NBUCKET calls s :
  run NBUCKET (boot NBUF NBUCKET) calls = Some s ->
  (forall i, on_chain (cache s) i <-> (i < NBUCKET * (NBUF `div` NBUCKET))%nat) /\
  (forall k hd c, heads (cache s) !! k = Some hd ->
     chain (bufs (cache s)) hd c -> NoDup c) /\
  (forall i k1 hd1 c1 k2 hd2 c2,
     heads (cache s) !! k1 = Some hd1 -> chain (bufs (cache s)) hd1 c1 -> i ∈ c1 ->
     heads (cache s) !! k2 = Some hd2 -> chain (bufs (cache s)) hd2 c2 -> i ∈ c2 ->
     k1 = k2).
Proof.
  intros Hr.
  destruct (reachable_inv NBUF NBUCKET calls s Hr) as (cs & Hs & Hk & Hl & Hp & Hc).
  pose proof Hs as [Sl Sc Sn Sd].
  assert (Hcs : forall k hd c, heads (cache s) !! k = Some hd ->
            chain (bufs (cache s)) hd c -> cs !! k = Some c).
  { intros k hd c Hh Hch.
    destruct (lookup_lt_is_Some_2 cs k) as [c0 Hc0].
    { rewrite <- Sl. eapply lookup_lt_Some; eauto. }
    now rewrite (chain_inj _ _ _ _ Hch (Sc _ _ _ Hh Hc0)). }
  split; [|split].
  - intros i. rewrite (on_chain_chained _ _ _ Hs). apply Hc.
  - intros k hd c Hh Hch. eapply Sn. eapply Hcs; eauto.
  - intros i k1 hd1 c1 k2 hd2 c2 H1 C1 I1 H2 C2 I2.
    eapply (Sd k1 k2 c1 c2 i); eauto.
Qed.

Lemma chained_descriptors_witness :
  run 13 (boot 30 13) [] = Some (boot 30 13) /\
  forall i, on_chain (cache (boot 30 13)) i <-> (i < 13 * (30 `div` 13))%nat.
Proof.
  split; [reflexivity|].
  exact (proj1 (chained_descriptors 30 13 [] (boot 30 13) eq_refl)).
Defined.

Lemma hash_13 bn : hash 13 bn = Z.to_nat (bn mod 13).
Proof. reflexivity. Qed.

Lemma hash_13_lt bn : (hash 13 bn < 13)%nat.
Proof.
  rewrite hash_13. pose proof (Z.mod_pos_bound bn 13 ltac:(lia)). lia.
Qed.

(** With 13 buckets and a pool that is a multiple of 13 the victim of
    the global scan is on the chain of bucket [blockno % 13], and the
    walk that looks for it there finds it. *)
Lemma bget_no_fault_13 NBUF st (H : nat -> Prop) dv bn :
  (NBUF `mod` 13 = 0)%nat -> inv NBUF 13 st H -> bget 13 st dv bn ≠ Fault.
Proof.
  intros Hdiv (cs & Hs & Hk & Hl & Hp & Hc).
  pose proof Hs as [Sl Sc Sn Sd]. pose proof Hk as [Kh Kf Kr].
  destruct (bget_outcome_at 13 st cs _ dv bn Hs Hk)
    as [[E Hwhy]|[[E _]|(st_m & b & cs' & E & Hb & _)]].
  - exfalso. destruct Hwhy as [Hno|(ans & ba & Hba & Hz & Hout)].
    + apply lookup_ge_None in Hno. pose proof (hash_13_lt bn). lia.
    + assert (Hlt : (ans < 13 * (NBUF `div` 13))%nat).
      { apply lookup_lt_Some in Hba. pose proof (Nat.div_mod_eq NBUF 13). lia. }
      apply Hc in Hlt as (k & c & Hck & Hin).
      pose proof (Kh _ _ _ _ Hck Hin Hba) as Hhash. rewrite hash_13 in Hhash.
      apply (Hout c); [congruence | exact Hin].
  - rewrite E. discriminate.
  - rewrite E. destruct (acquiresleep_total st_m b Hb) as [[st' ->]| ->];
      discriminate.
Qed.

(** X2: with 13 buckets and a pool that is a multiple of 13, [bget]
    never crashes and never loops, in any state a sequence of calls
    reaches from the initialized cache. *)
Theorem bget_safe_with_13_buckets NBUF calls s dv bn :
  (NBUF `mod` 13 = 0)%nat ->
  run 13 (boot NBUF 13) calls = Some s ->
  bget 13 (cache s) dv bn ≠ Fault /\ bget 13 (cache s) dv bn ≠ Diverges.
Proof.
  intros Hdiv Hr. pose proof (reachable_inv NBUF 13 calls s Hr) as Hi.
  split; [eapply bget_no_fault_13; eauto | eapply bget_no_diverge; eauto].
Qed.

Lemma bget_safe_with_13_buckets_witness :
  (26 `mod` 13 = 0)%nat /\
  run 13 (boot 26 13) [] = Some (boot 26 13) /\
  bget 13 (cache (boot 26 13)) 1 7 ≠ Fault /\
  bget 13 (cache (boot 26 13)) 1 7 ≠ Diverges.
Proof.
  split; [reflexivity|]. split; [reflexivity|].
  exact (bget_safe_with_13_buckets 26 [] (boot 26 13) 1 7 eq_refl eq_refl).
Defined.

(** X3: in that configuration [bget] panics exactly when the block is
    not cached and every idle descriptor of the pool is stamped 2^32-1
    or more; in all other cases it settles on a descriptor, and either
    returns it or leaves the caller asleep on its lock. *)
Theorem bget_panics_iff_no_candidate NBUF calls s dv bn :
  (NBUF `mod` 13 = 0)%nat ->
  run 13 (boot NBUF 13) calls = Some s ->
  ((exists msg, bget 13 (cache s) dv bn = Panic msg) <->
   (cached 13 (cache s) dv bn = None /\
    forall i bf, bufs (cache s) !! i = Some bf -> refcnt bf = 0 ->
                 ~ time_stamp bf < UINT32_MAX)) /\
  ((forall msg, bget 13 (cache s) dv bn ≠ Panic msg) ->
   exists st' b, bget 13 (cache s) dv bn = Ret st' b \/
                 bget 13 (cache s) dv bn = Sleeps st' b).
Proof.
  intros Hdiv Hr.
  pose proof (reachable_inv NBUF 13 calls s Hr) as Hi.
  pose proof (bget_no_fault_13 NBUF _ _ dv bn Hdiv Hi) as Hnf.
  destruct (bget_outcome NBUF 13 (cache s) _ dv bn Hi)
    as [[E _]|[(E & Hmiss & Hnone)|(st_m & b & E & Hb & _ & Hcand)]];
    [contradiction | |].
  - split; [split; [auto | eauto]|].
    intros Hno. exfalso. eapply Hno; eauto.
  - assert (Hsettle : exists st' b', bget 13 (cache s) dv bn = Ret st' b' \/
                        bget 13 (cache s) dv bn = Sleeps st' b').
    { rewrite E. destruct (acquiresleep_total st_m b Hb) as [[st' ->]| ->]; eauto. }
    split; [|auto]. split.
    + intros [msg Hp]. destruct Hsettle as (st' & b' & [R|R]); congruence.
    + intros [Hmiss Hnone]. exfalso.
      destruct Hcand as [Hhit|(_ & bf & Hbf & Hz & Hts)]; [congruence|].
      eapply Hnone; eauto.
Qed.

Lemma bget_panics_iff_no_candidate_witness :
  (13 `mod` 13 = 0)%nat /\
  run 13 (boot 13 13) [] = Some (boot 13 13) /\
  ((exists msg, bget 13 (cache (boot 13 13)) 1 7 = Panic msg) <->
   (cached 13 (cache (boot 13 13)) 1 7 = None /\
    forall i bf, bufs (cache (boot 13 13)) !! i = Some bf -> refcnt bf = 0 ->
                 ~ time_stamp bf < UINT32_MAX)).
Proof.
  split; [reflexivity|]. split; [reflexivity|].
  exact (proj1 (bget_panics_iff_no_candidate 13 [] (boot 13 13) 1 7
                  eq_refl eq_refl)).
Defined.

(** X4: on a miss, when the bucket holds an idle descriptor stamped
    below 2^32-1, [bget] repurposes a descriptor of that bucket that is
    idle and whose stamp is the smallest among the bucket's idle
    descriptors. *)
Theorem bget_evicts_bucket_lru NBUF NBUCKET calls s dv bn hd c :
  run NBUCKET (boot NBUF NBUCKET) calls = Some s ->
  heads (cache s) !! hash NBUCKET bn = Some hd ->
  chain (bufs (cache s)) hd c ->
  cached NBUCKET (cache s) dv bn = None ->
  (exists a bf, a ∈ c /\ bufs (cache s) !! a = Some bf /\
                refcnt bf = 0 /\ time_stamp bf < UINT32_MAX) ->
  exists b bf0,
    b ∈ c /\ bufs (cache s) !! b = Some bf0 /\ refcnt bf0 = 0 /\
    (forall a bf, a ∈ c -> bufs (cache s) !! a = Some bf -> refcnt bf = 0 ->
                  time_stamp bf0 <= time_stamp bf) /\
    bget NBUCKET (cache s) dv bn =
      acquiresleep (upd (cache s) b (repurpose dv bn)) b.
Proof.
  intros Hr Hhd Hch Hmiss (a & ba & Ha & Hba & Hza & Hta).
  destruct (reachable_inv NBUF NBUCKET calls s Hr) as (cs & Hs & _).
  pose proof Hs as [Sl Sc Sn Sd].
  destruct (lookup_lt_is_Some_2 cs (hash NBUCKET bn)) as [c0 Hc0].
  { rewrite <- Sl. eapply lookup_lt_Some; eauto. }
  pose proof (chain_inj _ _ _ _ Hch (Sc _ _ _ Hhd Hc0)) as ->.
  pose proof (shape_fuel _ _ _ _ Hs Hc0) as Hfuel.
  assert (Hfm : first_match (bufs (cache s)) c0 dv bn = None).
  { now rewrite <- (cached_chain NBUCKET _ cs _ hd c0 dv bn Hs eq_refl Hhd Hc0). }
  unfold bget. rewrite Hhd.
  rewrite (scan_hit_chain _ _ _ _ _ _ Hch Hfuel), Hfm.
  rewrite (scan_lru_chain _ _ _ _ _ _ Hch Hfuel).
  destruct (lru (bufs (cache s)) c0 UINT32_MAX None) as [m r] eqn:Hlru.
  destruct (lru_spec _ _ _ _ _ _ Hlru)
    as (_ & Hmin & [[-> ->]|(x & bx & -> & Hx & Hbx & Hzx & Htx & _)]).
  { intros i Hi. eapply chain_lookup; eauto. }
  - specialize (Hmin _ _ Ha Hba Hza). lia.
  - exists x, bx. repeat split; auto.
    intros a' bf' Ha' Hbf' Hz'. rewrite Htx. eauto.
Qed.

Lemma bget_evicts_bucket_lru_witness :
  run 13 (boot 13 13) [] = Some (boot 13 13) /\
  cached 13 (cache (boot 13 13)) 1 7 = None /\
  exists b bf0,
    b ∈ [7%nat] /\ bufs (cache (boot 13 13)) !! b = Some bf0 /\ refcnt bf0 = 0 /\
    (forall a bf, a ∈ [7%nat] -> bufs (cache (boot 13 13)) !! a = Some bf ->
                  refcnt bf = 0 -> time_stamp bf0 <= time_stamp bf) /\
    bget 13 (cache (boot 13 13)) 1 7 =
      acquiresleep (upd (cache (boot 13 13)) b (repurpose 1 7)) b.
Proof.
  split; [reflexivity|]. split; [vm_compute; reflexivity|].
  apply (bget_evicts_bucket_lru 13 13 [] (boot 13 13) 1 7 (Some 7%nat)).
  - reflexivity.
  - vm_compute; reflexivity.
  - split; [reflexivity|]. eexists. split; [vm_compute; reflexivity|].
    reflexivity.
  - vm_compute; reflexivity.
  - exists 7%nat. eexists. split; [left|].
    split; [vm_compute; reflexivity|]. split; reflexivity.
Defined.

End BioTotal.

(** ** The claims about the buffer cache *)

Module BioClaims.
Import Bio BioFacts BioInv BioInit BioRun BioPaths.

Local Open Scope Z_scope.

(** Closed goals about concrete runs are settled by evaluation. *)
Ltac by_eval := vm_compute; reflexivity.
Ltac eval_each := repeat (split; [by_eval|]); try by_eval.

(** Two buckets of one descriptor each: with descriptor 0 held for
    block 0, a request for block 2 (same bucket) takes descriptor 1 from
    bucket 1 and puts it at the head of bucket 0. *)
Example steals_from_the_other_bucket :
  exists s st' b0 b1,
    run 2 (boot 2 2) [Bget 0 0] = Some s /\
    bget 2 (cache s) 0 2 = Ret st' 1%nat /\
    heads st' = [Some 1%nat; None] /\
    bufs st' !! 0%nat = Some b0 /\ bufs st' !! 1%nat = Some b1 /\
    next b1 = Some 0%nat /\ next b0 = None /\
    blockno b1 = 2 /\ refcnt b1 = 1 /\ refcnt b0 = 1.
Proof. do 4 eexists. eval_each. Qed.

(** A block read, released and read again is found in the cache: the
    same descriptor comes back and the disk is read once. *)
Example second_read_hits :
  exists s,
    run 13 (boot 13 13) [Bread 1 7; Brelse 7 3; Bread 1 7] = Some s /\
    handles s = [7%nat; 7%nat] /\
    disk_io (cache s) = [(7%nat, false)].
Proof. eexists. eval_each. Qed.

(** C1 as stated fails: on a miss [bget] returns the descriptor with
    [valid] cleared; here device 1, block 0 on the cache just
    initialized. *)
Lemma bget_miss_returns_invalid :
  exists st' bf,
    bget 13 (binit 13 13) 1 0 = Ret st' 0%nat /\
    bufs st' !! 0%nat = Some bf /\
    dev bf = 1 /\ blockno bf = 0 /\ locked bf = true /\ valid bf = 0.
Proof. do 2 eexists. eval_each. Qed.

(** C1, amended: whenever [bget] returns, the descriptor carries the
    requested key and its sleep-lock, free before, is now held; on a hit
    [valid] is left as it was (and the count is bumped), on a miss
    [valid] is 0 and the count is 1.  It is [bread] that returns a
    descriptor with [valid] set.  From any state reached from the
    initialized cache neither of them loops forever. *)
Theorem bget_locks_bread_validates NBUCKET st dv bn :
  (forall st' b, bget NBUCKET st dv bn = Ret st' b ->
     exists bf0 bf,
       bufs st !! b = Some bf0 /\ bufs st' !! b = Some bf /\
       locked bf0 = false /\ locked bf = true /\
       dev bf = dv /\ blockno bf = bn /\
       match cached NBUCKET st dv bn with
       | Some h => b = h /\ valid bf = valid bf0 /\
                   refcnt bf = uint (refcnt bf0 + 1)
       | None => valid bf = 0 /\ refcnt bf = 1
       end) /\
  (forall st' b, bread NBUCKET st dv bn = Ret st' b ->
     exists bf,
       bufs st' !! b = Some bf /\ locked bf = true /\
       dev bf = dv /\ blockno bf = bn /\ valid bf ≠ 0) /\
  (forall NBUF calls s,
     run NBUCKET (boot NBUF NBUCKET) calls = Some s -> st = cache s ->
     bget NBUCKET st dv bn ≠ Diverges /\ bread NBUCKET st dv bn ≠ Diverges).
Proof.
  assert (Hget : forall st' b, bget NBUCKET st dv bn = Ret st' b ->
     exists bf0 bf,
       bufs st !! b = Some bf0 /\ bufs st' !! b = Some bf /\
       locked bf0 = false /\ locked bf = true /\
       dev bf = dv /\ blockno bf = bn /\
       match cached NBUCKET st dv bn with
       | Some h => b = h /\ valid bf = valid bf0 /\
                   refcnt bf = uint (refcnt bf0 + 1)
       | None => valid bf = 0 /\ refcnt bf = 1
       end).
  { intros st' b R.
    destruct (bget_settles NBUCKET st dv bn st' b (or_introl R))
      as (st_m & E & Hset).
    rewrite E in R. apply acquiresleep_Ret in R as (_ & -> & bfm & Hbfm & Hfree).
    destruct (settled_target _ _ _ _ _ _ Hset)
      as (bf0 & bf & H0 & Hm & Ed & Eb & El & _ & Hpath).
    rewrite Hbfm in Hm. injection Hm as <-.
    exists bf0, (set_locked true bfm). split; [exact H0|].
    rewrite lookup_upd_eq, Hbfm. split; [reflexivity|].
    split; [congruence|]. split; [reflexivity|].
    split; [exact Ed|]. split; [exact Eb|].
    destruct (cached NBUCKET st dv bn); simpl; tauto. }
  split; [exact Hget|]. split.
  - intros st' b R. unfold bread in R.
    destruct (bget NBUCKET st dv bn) as [st1 b1| | | |] eqn:E; try discriminate.
    destruct (Hget st1 b1 eq_refl) as (bf0 & bf & _ & Hbf & _ & Hl & Ed & Eb & _).
    rewrite Hbf in R. destruct (Z.eqb_spec (valid bf) 0) as [Hv|Hv].
    + injection R as <- <-. exists (set_valid 1 bf). simpl.
      rewrite list_lookup_alter_eq, Hbf. simpl.
      repeat split; auto; discriminate.
    + injection R as <- <-. exists bf. repeat split; auto.
  - intros NBUF calls s Hr ->.
    pose proof (reachable_inv NBUF NBUCKET calls s Hr) as Hi.
    pose proof (bget_no_diverge NBUF NBUCKET _ _ dv bn Hi) as Hnd.
    split; [exact Hnd|]. unfold bread.
    destruct (bget NBUCKET (cache s) dv bn) as [st1 b1| | | |];
      try discriminate; [|congruence].
    destruct (bufs st1 !! b1) as [bf|]; [|discriminate].
    destruct (valid bf =? 0); discriminate.
Qed.

Lemma bget_locks_bread_validates_witness :
  exists st',
    bread 13 (binit 13 13) 1 0 = Ret st' 0%nat /\
    exists bf,
      bufs st' !! 0%nat = Some bf /\ locked bf = true /\
      dev bf = 1 /\ blockno bf = 0 /\ valid bf ≠ 0.
Proof.
  eexists. split; [by_eval|].
  apply (bget_locks_bread_validates 13 (binit 13 13) 1 0). by_eval.
Defined.

(** C3: the code unlinks the victim from bucket [blockno % 13], whatever
    [NBUCKET] is.  With three buckets, a victim caching block 13 sits on
    chain 13 % 3 = 1 but is searched for on chain 13 % 13 = 0, and the
    walk runs off the end of that chain. *)
Theorem steal_unlinks_from_bucket_mod_13 :
  exists s victim,
    run 3 (boot 3 3) [Bget 0 13; Brelse 1 1; Bget 0 2; Bget 0 0] = Some s /\
    scan_pool (bufs (cache s)) 0 UINT32_MAX None = (1, Some 1%nat) /\
    bufs (cache s) !! 1%nat = Some victim /\
    blockno victim = 13 /\
    hash 3 (blockno victim) = 1%nat /\
    heads (cache s) !! 1%nat = Some (Some 1%nat) /\
    Z.to_nat (blockno victim mod 13) = 0%nat /\
    heads (cache s) !! 0%nat = Some (Some 0%nat) /\
    chain (bufs (cache s)) (Some 0%nat) [0%nat] /\
    bget 3 (cache s) 0 5 = Fault.
Proof.
  do 2 eexists. do 8 (split; [by_eval|]). split; [|by_eval].
  vm_compute. eauto.
Qed.

(** C4: [binit] links only [NBUCKET * (NBUF / NBUCKET)] descriptors.
    With xv6's 30 buffers and 13 buckets the chains are [2k+1; 2k] and
    descriptors 26 to 29 are on none; with 3 buffers and 2 buckets the
    third descriptor is on no chain and the first global scan that
    picks it walks off the end of a chain. *)
Theorem binit_leaves_remainder_unchained :
  (exists cs,
     Forall2 (chain (bufs (binit 30 13))) (heads (binit 30 13)) cs /\
     length (bufs (binit 30 13)) = 30%nat /\
     (26%nat ∉ concat cs) /\ (27%nat ∉ concat cs) /\
     (28%nat ∉ concat cs) /\ (29%nat ∉ concat cs)) /\
  (exists s,
     run 2 (boot 3 2) [Bget 0 0; Bget 0 1] = Some s /\
     Forall2 (chain (bufs (cache s))) (heads (cache s)) [[0%nat]; [1%nat]] /\
     scan_pool (bufs (cache s)) 0 UINT32_MAX None = (0, Some 2%nat) /\
     bget 2 (cache s) 0 3 = Fault).
Proof.
  split.
  - exists ((fun k => [2 * k + 1; 2 * k]%nat) <$> seq 0 13).
    split; [|split; [reflexivity|]].
    + vm_compute. repeat constructor; eexists; (split; [reflexivity|]);
        split; try reflexivity; eexists; split; reflexivity.
    + repeat split; apply (bool_decide_unpack _); vm_compute; exact I.
  - eexists. split; [by_eval|]. split; [|split; by_eval].
    vm_compute. repeat constructor; eexists; split; reflexivity.
Qed.

(** C5: a descriptor released when the tick counter reads 2^32-1 is
    never chosen by the scans ([time_stamp < nowmin] with [nowmin]
    starting at 2^32-1), so [bget] panics although descriptor 0 has
    reference count 0. *)
Theorem bget_panics_with_idle_descriptor :
  exists s bf,
    run 13 (boot 13 13)
        (Bget 0 0 :: Brelse 0 UINT32_MAX ::
         ((fun k => Bget 0 (Z.of_nat k)) <$> seq 1 12)) = Some s /\
    bufs (cache s) !! 0%nat = Some bf /\
    refcnt bf = 0 /\ time_stamp bf = UINT32_MAX /\
    bget 13 (cache s) 0 13 = Panic "bget: no buffers".
Proof. do 2 eexists. eval_each. Qed.

(** C9: same defect.  Bucket 0 holds exactly one descriptor, number 0,
    with reference count 0 and stamp 2^32-1; a miss on bucket 0 does not
    repurpose it but takes descriptor 1 from bucket 1. *)
Theorem bget_skips_idle_descriptor_of_bucket :
  exists s bf st' bf0',
    run 13 (boot 13 13) [Bget 0 0; Brelse 0 UINT32_MAX] = Some s /\
    heads (cache s) !! hash 13 13 = Some (Some 0%nat) /\
    chain (bufs (cache s)) (Some 0%nat) [0%nat] /\
    bufs (cache s) !! 0%nat = Some bf /\
    refcnt bf = 0 /\ time_stamp bf = UINT32_MAX /\
    cached 13 (cache s) 0 13 = None /\
    bget 13 (cache s) 0 13 = Ret st' 1%nat /\
    bufs st' !! 0%nat = Some bf0' /\
    dev bf0' = 0 /\ blockno bf0' = 0 /\ refcnt bf0' = 0.
Proof.
  do 4 eexists. do 2 (split; [by_eval|]).
  split; [vm_compute; eauto|]. eval_each.
Qed.

(** A run through an eviction inside the bucket, a release, two hits, an
    eviction from the pool and a second request for a block whose
    descriptor is held: seven states, the last one with the caller
    asleep. *)
Example visited_seven_states :
  length (visited 13 (boot 13 13)
            [Bget 0 13; Brelse 0 1; Bget 0 2; Bget 0 13; Bget 0 26; Bget 0 2])
  = 7%nat.
Proof. by_eval. Qed.

(** C10 as stated fails: the wrapped count does not stay.  After
    [bunpin] took the count of descriptor 0 from 0 to 2^32-1, one
    [bpin], or one hit of [bget] on its block, brings the count back to
    0, and the next miss on the bucket repurposes the descriptor. *)
Lemma wrapped_count_comes_back_to_zero :
  exists s1 b1 s2 st3 b3 s4 b4 st5 b5,
    run 13 (boot 13 13) [Bget 0 0; Brelse 0 5; Bunpin 0] = Some s1 /\
    bufs (cache s1) !! 0%nat = Some b1 /\
    refcnt b1 = UINT32_MAX /\ blockno b1 = 0 /\
    run 13 s1 [Bpin 0] = Some s2 /\
    bget 13 (cache s2) 0 13 = Ret st3 0%nat /\
    bufs st3 !! 0%nat = Some b3 /\ blockno b3 = 13 /\ valid b3 = 0 /\
    run 13 s1 [Bget 0 0] = Some s4 /\
    bufs (cache s4) !! 0%nat = Some b4 /\ refcnt b4 = 0 /\
    bget 13 (cache s4) 0 13 = Sleeps st5 0%nat /\
    bufs st5 !! 0%nat = Some b5 /\ blockno b5 = 13 /\ valid b5 = 0.
Proof. do 9 eexists. eval_each. Qed.

(** C10, amended: [bunpin] checks nothing and always returns, the count
    going down by one modulo 2^32, from 0 to 2^32-1.  A descriptor whose
    count is not 0 when [bget] is called is not repurposed by that call:
    its key and [valid] are unchanged.  The wrapped count is not
    permanent: one [bpin], or one hit of [bget] on the descriptor's
    block, takes 2^32-1 back to 0. *)
Theorem bunpin_wraps_busy_not_evicted NBUCKET st b bf :
  bufs st !! b = Some bf ->
  is_Some (heads st !! hash NBUCKET (blockno bf)) ->
  bunpin NBUCKET st b = Ret (upd st b (set_refcnt (uint (refcnt bf - 1)))) tt /\
  (refcnt bf = 0 -> uint (refcnt bf - 1) = UINT32_MAX) /\
  (refcnt bf ≠ 0 ->
   forall dv bn st' b',
     bget NBUCKET st dv bn = Ret st' b' \/
     bget NBUCKET st dv bn = Sleeps st' b' ->
     exists bf',
       bufs st' !! b = Some bf' /\
       dev bf' = dev bf /\ blockno bf' = blockno bf /\ valid bf' = valid bf) /\
  (refcnt bf = UINT32_MAX ->
   bpin NBUCKET st b = Ret (upd st b (set_refcnt 0)) tt /\
   forall st' b',
     cached NBUCKET st (dev bf) (blockno bf) = Some b ->
     bget NBUCKET st (dev bf) (blockno bf) = Ret st' b' \/
     bget NBUCKET st (dev bf) (blockno bf) = Sleeps st' b' ->
     b' = b /\ exists bf', bufs st' !! b = Some bf' /\ refcnt bf' = 0).
Proof.
  intros Hb [h Hh]. split; [|split; [|split]].
  - unfold bunpin. now rewrite Hb, Hh.
  - intros ->. reflexivity.
  - intros Hbusy dv bn st' b' Hres.
    destruct (bget_settles NBUCKET st dv bn st' b' Hres) as (st_m & E & Hset).
    assert (Hm : exists bfm, bufs st_m !! b = Some bfm /\
              dev bfm = dev bf /\ blockno bfm = blockno bf /\ valid bfm = valid bf).
    { destruct (decide (b = b')) as [<-|Hne].
      - destruct (settled_target _ _ _ _ _ _ Hset)
          as (bf0 & bfm & H0 & Hm & Ed & Eb & _ & _ & Hpath).
        rewrite Hb in H0. injection H0 as <-.
        destruct (cached NBUCKET st dv bn) as [hit|] eqn:Hc.
        + destruct Hpath as (_ & Hv & _). exists bfm.
          destruct Hset as [x Hc' Hx Hd Hn _|x Hc' _ _ _|x p y Hc' _ _ _];
            try congruence.
          rewrite Hb in Hx. injection Hx as <-. repeat split; congruence.
        + destruct Hpath as (_ & _ & Hz). contradiction.
      - destruct (settled_others _ _ _ _ _ _ b bf Hset Hne Hb)
          as (bfm & Hm & Hv & Hd & Hn & _).
        eauto. }
    destruct Hm as (bfm & Hm & Hd & Hn & Hv).
    rewrite E in Hres. destruct Hres as [R|S].
    + apply acquiresleep_Ret in R as (_ & -> & _).
      destruct (decide (b' = b)) as [->|Hne].
      * rewrite lookup_upd_eq, Hm. simpl. eexists. split; [reflexivity|].
        simpl. auto.
      * rewrite lookup_upd_ne by done. eauto.
    + apply acquiresleep_Sleeps in S as (_ & ->). eauto.
  - intros Hmax. split.
    + unfold bpin. rewrite Hb, Hh, Hmax. reflexivity.
    + intros st' b' Hc Hres.
      destruct (bget_settles NBUCKET st _ _ st' b' Hres) as (st_m & E & Hset).
      destruct (settled_target _ _ _ _ _ _ Hset)
        as (bf0 & bfm & H0 & Hm & _ & _ & _ & _ & Hpath).
      rewrite Hc in Hpath. destruct Hpath as (-> & _ & Hcount).
      rewrite Hb in H0. injection H0 as <-. split; [reflexivity|].
      assert (Hzero : refcnt bfm = 0) by (rewrite Hcount, Hmax; reflexivity).
      rewrite E in Hres. destruct Hres as [R|S].
      * apply acquiresleep_Ret in R as (_ & -> & _).
        rewrite lookup_upd_eq, Hm. simpl. eauto.
      * apply acquiresleep_Sleeps in S as (_ & ->). eauto.
Qed.

Lemma bunpin_wraps_busy_not_evicted_witness :
  bufs (binit 13 13) !! 0%nat = Some zero_buf /\
  is_Some (heads (binit 13 13) !! hash 13 (blockno zero_buf)) /\
  bunpin 13 (binit 13 13) 0 =
    Ret (upd (binit 13 13) 0 (set_refcnt (uint (refcnt zero_buf - 1)))) tt /\
  uint (refcnt zero_buf - 1) = UINT32_MAX.
Proof.
  assert (Hb : bufs (binit 13 13) !! 0%nat = Some zero_buf) by by_eval.
  assert (Hh : is_Some (heads (binit 13 13) !! hash 13 (blockno zero_buf))).
  { exists (Some 0%nat). by_eval. }
  split; [exact Hb|]. split; [exact Hh|].
  destruct (bunpin_wraps_busy_not_evicted 13 (binit 13 13) 0 zero_buf Hb Hh)
    as (Hret & Hwrap & _).
  split; [exact Hret | apply Hwrap; reflexivity].
Defined.

End BioClaims.

(** ** The free lists as lists of pages *)

Module KallocLists.
Import Kalloc KallocFacts.

Local Open Scope Z_scope.

(** The list that starts at [p] in memory [m] holds the pages [l]: each
    page stores the address of the next one in its first eight bytes,
    and the last one stores null. *)
Fixpoint flist (m : memory) (p : Z) (l : list Z) : Prop :=
  match l with
  | [] => p = 0
  | a :: l' => p = a /\ a ≠ 0 /\ flist m (load64 m a) l'
  end.

(** The whole pages of [pa_start, pa_end), in the order [freerange]
    frees them. *)
Definition range_pages (pa_start pa_end : Z) : list Z :=
  let p := PGROUNDUP pa_start in
  map (fun k => p + Z.of_nat k * PGSIZE)
      (seq 0 (Z.to_nat ((pa_end - p) / PGSIZE))).

(** The pages [freerange] hands to [kfree], as the loop produces them. *)
Fixpoint pages_from (p : Z) (n : nat) : list Z :=
  match n with
  | O => []
  | S n' => p :: pages_from (p + PGSIZE) n'
  end.

(** Calls made by the CPUs, one at a time. *)
Inductive kcall :=
| KAlloc (cpu : nat)
| KFree (cpu : nat) (pa : Z).

(** Some call of [cs] frees page [h]. *)
Definition frees (h : Z) (cs : list kcall) : bool :=
  existsb (fun c => match c with
                    | KFree _ pa => pa =? h
                    | KAlloc _ => false
                    end) cs.

(** Every call of [cs] is a [kalloc] on one of [NCPU] CPUs. *)
Definition only_allocs (NCPU : nat) (cs : list kcall) : bool :=
  forallb (fun c => match c with
                    | KAlloc cpu => bool_decide (cpu < NCPU)%nat
                    | KFree _ _ => false
                    end) cs.

(** Where a sequence of calls ends.  [held] are the pages handed out by
    [kalloc] and not given back yet, most recent first.  A [kfree] of a
    page that is not held and a call on a CPU that does not exist are
    not made by a correct kernel: the sequence is then [Misused].  A
    panic or a fault inside the allocator gives [Stopped]. *)
Inductive kstate :=
| Ran (st : kmem) (held : list Z)
| Misused
| Stopped.

Fixpoint krun (kend PHYSTOP : Z) (NCPU : nat) (st : kmem) (held : list Z)
    (cs : list kcall) : kstate :=
  match cs with
  | [] => Ran st held
  | KAlloc cpu :: cs' =>
      if bool_decide (cpu < NCPU)%nat then
        match kalloc NCPU cpu st with
        | Done (r, st', _) =>
            krun kend PHYSTOP NCPU st' (if r =? 0 then held else r :: held) cs'
        | _ => Stopped
        end
      else Misused
  | KFree cpu pa :: cs' =>
      if bool_decide (cpu < NCPU)%nat && bool_decide (pa ∈ held) then
        match kfree kend PHYSTOP cpu st pa with
        | Done (st', _) =>
            krun kend PHYSTOP NCPU st' (filter (fun x => x ≠ pa) held) cs'
        | _ => Stopped
        end
      else Misused
  end.


Lemma memset_outside m dst c n a :
  a < dst \/ dst + n <= a -> memset m dst c n a = m a.
Proof.
  intros H. unfold memset.
  destruct (Z.leb_spec dst a); [|reflexivity].
  destruct (Z.ltb_spec a (dst + n)); [lia | reflexivity].
Qed.

Lemma load_bytes_ext n : forall m m' a,
  (forall x, a <= x < a + Z.of_nat n -> m' x = m x) ->
  load_bytes m' a n = load_bytes m a n.
Proof.
  induction n as [|n IH]; intros m m' a H; [reflexivity|].
  cbn [load_bytes]. rewrite (H a) by lia. f_equal. f_equal.
  apply IH. intros x Hx. apply H. lia.
Qed.

Lemma load64_ext m m' a :
  (forall x, a <= x < a + 8 -> m' x = m x) -> load64 m' a = load64 m a.
Proof. intros H. apply load_bytes_ext. simpl. exact H. Qed.

(** A list survives every write that leaves the links of its pages
    alone. *)
Lemma flist_frame m m' : forall l p,
  (forall a, a ∈ l -> forall x, a <= x < a + 8 -> m' x = m x) ->
  flist m p l -> flist m' p l.
Proof.
  induction l as [|a l IH]; intros p Hm H; [exact H|].
  destruct H as (-> & Hnz & Hl). cbn [flist].
  split; [reflexivity|]. split; [exact Hnz|].
  rewrite (load64_ext m m') by (apply Hm; left).
  apply IH; [|exact Hl]. intros b Hb. apply Hm. now right.
Qed.

Lemma flist_null m l : flist m 0 l -> l = [].
Proof. destruct l as [|a l]; [reflexivity|]. intros (<- & H & _). congruence. Qed.

Lemma flist_head m p l : p ≠ 0 -> flist m p l ->
  exists l', l = p :: l' /\ flist m (load64 m p) l'.
Proof.
  destruct l as [|a l]; cbn [flist]; [congruence|].
  intros _ (-> & _ & H). eauto.
Qed.

Lemma PGROUNDUP_aligned sz : PGROUNDUP sz mod PGSIZE = 0.
Proof. unfold PGROUNDUP. apply Z.mod_mul. discriminate. Qed.

Lemma PGROUNDUP_bounds sz : sz <= PGROUNDUP sz < sz + PGSIZE.
Proof.
  unfold PGROUNDUP, PGSIZE.
  pose proof (Z.div_mod (sz + 4096 - 1) 4096).
  pose proof (Z.mod_pos_bound (sz + 4096 - 1) 4096). lia.
Qed.

Lemma aligned_apart a b x y :
  a mod PGSIZE = 0 -> b mod PGSIZE = 0 -> a ≠ b ->
  a <= x < a + PGSIZE -> b <= y < b + PGSIZE -> x ≠ y.
Proof.
  unfold PGSIZE. intros Ha Hb Hne Hx Hy.
  pose proof (Z.div_mod a 4096). pose proof (Z.div_mod b 4096). lia.
Qed.

Lemma elem_of_concat {A} (x : A) (ls : list (list A)) :
  x ∈ concat ls <-> exists l, x ∈ l /\ l ∈ ls.
Proof.
  induction ls as [|l0 ls IH]; simpl.
  - split; [intros H; now apply elem_of_nil in H|].
    intros (l & _ & H). now apply elem_of_nil in H.
  - rewrite elem_of_app, IH. split.
    + intros [H|(l & H1 & H2)]; [exists l0 | exists l]; split; auto; now constructor.
    + intros (l & H1 & H2). apply elem_of_cons in H2 as [->|H2]; eauto.
Qed.

Lemma concat_lookup_perm {A} (ls : list (list A)) i l :
  ls !! i = Some l -> concat ls ≡ₚ l ++ concat (<[i := []]> ls).
Proof.
  revert i. induction ls as [|l0 ls IH]; intros [|i] H; try discriminate.
  - injection H as ->. simpl. reflexivity.
  - simpl in *. rewrite (IH _ H).
    rewrite !app_assoc. f_equiv. apply Permutation_app_comm.
Qed.

Lemma concat_insert_perm {A} (ls : list (list A)) i l l' :
  ls !! i = Some l -> concat (<[i := l']> ls) ≡ₚ l' ++ concat (<[i := []]> ls).
Proof.
  intros H.
  rewrite (concat_lookup_perm (<[i := l']> ls) i l').
  - now rewrite list_insert_insert_eq.
  - apply list_lookup_insert_eq. eapply lookup_lt_Some; eauto.
Qed.

Section Pages.

Variables (kend PHYSTOP : Z) (NCPU : nat).

(** The addresses [kfree] accepts. *)
Definition page (a : Z) : Prop := a mod PGSIZE = 0 /\ kend <= a < PHYSTOP.

(** The allocator's state is consistent with the free pages [ls], one
    list per CPU, and the pages [held] by the rest of the kernel: every
    [mem[i].freelist] is the list [ls !! i], and no page occurs twice. *)
Record consistent (st : kmem) (ls : list (list Z)) (held : list Z) : Prop := {
  co_lists : Forall2 (flist (ram st)) (freelist st) ls;
  co_pages : Forall page (concat ls ++ held);
  co_nodup : NoDup (concat ls ++ held)
}.

(** The invariant of a run that starts when [kinit] has returned. *)
Definition accounted (st : kmem) (held : list Z) : Prop :=
  length (freelist st) = NCPU /\
  exists ls, consistent st ls held /\
             concat ls ++ held ≡ₚ range_pages kend PHYSTOP.

(** The kernel is loaded above address 0 and physical addresses fit in
    64 bits. *)
Hypothesis kend_pos : 0 < kend.
Hypothesis PHYSTOP_fits : PHYSTOP <= 2 ^ 64.

Lemma page_apart a b x :
  page a -> page b -> a ≠ b -> a <= x < a + 8 -> ~ b <= x < b + PGSIZE.
Proof.
  intros [Ha _] [Hb _] Hne Hx Hy.
  eapply (aligned_apart a b x x); eauto. unfold PGSIZE in *. lia.
Qed.

Lemma flist_bound m : forall l p,
  Forall page l -> flist m p l -> 0 <= p < 2 ^ 64.
Proof.
  intros [|a l] p Hp H; cbn [flist] in H.
  - subst. lia.
  - destruct H as (-> & _). apply Forall_cons in Hp as [[_ Ha] _]. lia.
Qed.

Lemma consistent_perm st ls held held' :
  held ≡ₚ held' -> consistent st ls held -> consistent st ls held'.
Proof.
  intros Hp [H1 H2 H3]. split; [exact H1| |]; now rewrite <- Hp.
Qed.

(** Pushing a held page on the list of CPU [id]. *)
Lemma kfree_push id st ls held pa :
  consistent st ls (pa :: held) -> (id < length (freelist st))%nat ->
  exists l st' tr,
    ls !! id = Some l /\
    kfree kend PHYSTOP id st pa = Done (st', tr) /\
    consistent st' (<[id := pa :: l]> ls) held /\
    (forall a, ~ pa <= a < pa + PGSIZE -> ram st' a = ram st a).
Proof.
  intros [Hl Hp Hnd] Hid.
  destruct (lookup_lt_is_Some_2 (freelist st) id Hid) as [head Hh].
  destruct (Forall2_lookup_l _ _ _ _ _ Hl Hh) as (l & Hls & Hfl).
  assert (Hpa : page pa).
  { rewrite Forall_app, Forall_cons in Hp. tauto. }
  assert (Hmid : concat ls ++ pa :: held ≡ₚ pa :: concat ls ++ held).
  { now rewrite <- Permutation_middle. }
  rewrite Hmid in Hp, Hnd.
  apply Forall_cons in Hp as [_ Hp]. apply NoDup_cons in Hnd as [Hfresh Hnd].
  assert (Hin : forall b, b ∈ concat ls -> page b /\ b ≠ pa).
  { intros b Hb. split.
    - rewrite Forall_forall in Hp. apply Hp. apply elem_of_app. now left.
    - intros ->. apply Hfresh. apply elem_of_app. now left. }
  assert (Hframe : forall l0 p0, l0 ∈ ls -> flist (ram st) p0 l0 ->
            flist (store64 (memset (ram st) pa 1 PGSIZE) pa head) p0 l0).
  { intros l0 p0 Hl0. apply flist_frame. intros a Ha x Hx.
    destruct (Hin a) as [Hpg Hne].
    { apply elem_of_concat. eauto. }
    pose proof (page_apart a pa x Hpg Hpa Hne Hx) as Hout.
    rewrite store64_outside by (unfold PGSIZE in *; lia).
    apply memset_outside. lia. }
  exists l. do 2 eexists. split; [exact Hls|].
  split; [apply kfree_valid; [apply Hpa | apply Hpa | exact Hh]|].
  split; [split|]; cbn [ram freelist].
  - apply Forall2_insert.
    + eapply Forall2_impl; [|intros p0 l0 H; exact H].
      apply Forall2_same_length_lookup. split; [eapply Forall2_length; eauto|].
      intros i p0 l0 Hp0 Hl0. apply Hframe.
      * eapply list_elem_of_lookup_2; eauto.
      * eapply Forall2_lookup_lr; eauto.
    + cbn [flist]. split; [reflexivity|].
      split; [destruct Hpa as [_ ?]; lia|].
      rewrite load_store64.
      assert (Hb : 0 <= head < 2 ^ 64).
      { eapply flist_bound; [|exact Hfl].
        rewrite Forall_forall. intros b Hb. apply Hin.
        apply elem_of_concat. exists l. split; [exact Hb|].
        eapply list_elem_of_lookup_2; eauto. }
      rewrite Z.mod_small by exact Hb.
      apply Hframe; [eapply list_elem_of_lookup_2; eauto | exact Hfl].
  - rewrite (concat_insert_perm ls id l) by exact Hls.
    rewrite <- app_comm_cons, <- (concat_lookup_perm ls id l) by exact Hls.
    rewrite <- app_comm_cons. apply Forall_cons. split; [exact Hpa | exact Hp].
  - rewrite (concat_insert_perm ls id l) by exact Hls.
    rewrite <- app_comm_cons, <- (concat_lookup_perm ls id l) by exact Hls.
    rewrite <- app_comm_cons. apply NoDup_cons. split; [exact Hfresh | exact Hnd].
  - intros a Ha. rewrite store64_outside by (unfold PGSIZE in *; lia).
    apply memset_outside. lia.
Qed.

(** Popping the first page of list [i]. *)
Lemma popped_consistent st ls held i r :
  consistent st ls held -> freelist st !! i = Some r -> r ≠ 0 ->
  exists l',
    ls !! i = Some (r :: l') /\
    consistent (popped st i r) (<[i := l']> ls) (r :: held) /\
    concat ls ≡ₚ r :: concat (<[i := l']> ls).
Proof.
  intros [Hl Hp Hnd] Hi Hr.
  destruct (Forall2_lookup_l _ _ _ _ _ Hl Hi) as (l & Hls & Hfl).
  destruct (flist_head _ _ _ Hr Hfl) as (l' & -> & Hfl').
  assert (Hperm : concat ls ≡ₚ r :: concat (<[i := l']> ls)).
  { rewrite (concat_lookup_perm ls i (r :: l')) by exact Hls.
    rewrite (concat_insert_perm ls i (r :: l') l') by exact Hls.
    reflexivity. }
  assert (Hall : concat ls ++ held ≡ₚ r :: concat (<[i := l']> ls) ++ held).
  { now rewrite Hperm. }
  assert (Hmid : concat (<[i := l']> ls) ++ r :: held
                 ≡ₚ r :: concat (<[i := l']> ls) ++ held).
  { now rewrite <- Permutation_middle. }
  rewrite Hall in Hp, Hnd.
  assert (Hr' : page r) by (apply Forall_cons in Hp; tauto).
  assert (Hin : forall b, b ∈ concat (<[i := l']> ls) -> page b /\ b ≠ r).
  { apply Forall_cons in Hp as [_ Hp]. apply NoDup_cons in Hnd as [Hfresh _].
    intros b Hb. split.
    - rewrite Forall_forall in Hp. apply Hp. apply elem_of_app. now left.
    - intros ->. apply Hfresh. apply elem_of_app. now left. }
  assert (Hframe : forall l0 p0, l0 ∈ <[i := l']> ls -> flist (ram st) p0 l0 ->
            flist (memset (ram st) r 5 PGSIZE) p0 l0).
  { intros l0 p0 Hl0. apply flist_frame. intros a Ha x Hx.
    destruct (Hin a) as [Hpg Hne].
    { apply elem_of_concat. eauto. }
    pose proof (page_apart a r x Hpg Hr' Hne Hx) as Hout.
    apply memset_outside. lia. }
  assert (Hi' : (i < length ls)%nat) by (eapply lookup_lt_Some; eauto).
  exists l'. split; [exact Hls|]. split; [|exact Hperm].
  split; cbn [popped ram freelist].
  - apply Forall2_same_length_lookup. split.
    { rewrite !length_insert. eapply Forall2_length; eauto. }
    intros j p0 l0 Hp0 Hl0. apply Hframe.
    { eapply list_elem_of_lookup_2; eauto. }
    destruct (decide (j = i)) as [->|Hne].
    + rewrite list_lookup_insert_eq in Hp0
        by (erewrite Forall2_length by eauto; exact Hi').
      rewrite list_lookup_insert_eq in Hl0 by exact Hi'.
      injection Hp0 as <-. injection Hl0 as <-. exact Hfl'.
    + rewrite list_lookup_insert_ne in Hp0 by congruence.
      rewrite list_lookup_insert_ne in Hl0 by congruence.
      eapply Forall2_lookup_lr; eauto.
  - now rewrite Hmid.
  - now rewrite Hmid.
Qed.

Lemma flist_all_null st ls :
  Forall2 (flist (ram st)) (freelist st) ls ->
  (forall j, (j < length (freelist st))%nat -> freelist st !! j = Some 0) ->
  concat ls = [].
Proof.
  intros Hl Hz. apply (Forall2_length _ _ _) in Hl as Hlen.
  assert (H : Forall (fun l => l = []) ls).
  { apply Forall_lookup. intros j l Hj.
    destruct (Forall2_lookup_r _ _ _ _ _ Hl Hj) as (p & Hp & Hf).
    rewrite Hz in Hp by (eapply lookup_lt_Some; eauto).
    injection Hp as <-. eapply flist_null; eauto. }
  clear Hl Hlen. induction H as [|l ls' -> _ IH]; [reflexivity | exact IH].
Qed.

(** What the stealing loop does: nothing when the lists it visits are
    empty, and otherwise it pops the first page of one of them. *)
Lemma steal_cases id st : forall cpus,
  (forall j, j ∈ cpus -> (j < length (freelist st))%nat) ->
  (exists tr, steal id cpus st 0 = Done (0, st, tr) /\
     forall j, j ∈ cpus -> j ≠ id -> freelist st !! j = Some 0) \/
  (exists i r tr, freelist st !! i = Some r /\ r ≠ 0 /\ i ≠ id /\
     steal id cpus st 0 = Done (r, popped st i r, tr)).
Proof.
  induction cpus as [|i rest IH]; intros Hlen.
  - left. eexists. split; [reflexivity|]. intros j Hj. now apply elem_of_nil in Hj.
  - assert (Hrest : forall j, j ∈ rest -> (j < length (freelist st))%nat).
    { intros j Hj. apply Hlen. now right. }
    cbn [steal]. destruct (Nat.eqb_spec id i) as [->|Hne].
    + destruct (IH Hrest) as [(tr & E & Hz)|H]; [left | now right].
      exists tr. split; [exact E|]. intros j Hj Hji.
      apply elem_of_cons in Hj as [->|Hj]; [congruence | now apply Hz].
    + destruct (lookup_lt_is_Some_2 (freelist st) i) as [r' Hr'].
      { apply Hlen. now left. }
      rewrite Hr'. destruct (Z.eqb_spec r' 0) as [Hz'|Hnz].
      * subst r'. destruct (IH Hrest) as [(tr & E & Hz)|(k & r & tr & H1 & H2 & H3 & E)].
        -- left. rewrite E. eexists. split; [reflexivity|]. intros j Hj Hji.
           apply elem_of_cons in Hj as [->|Hj]; [exact Hr' | now apply Hz].
        -- right. rewrite E. exists k, r. eexists. repeat split; eauto.
      * right. exists i, r'. eexists. repeat split; eauto.
Qed.

Lemma kalloc_cases id st :
  length (freelist st) = NCPU -> (id < NCPU)%nat ->
  (exists tr, kalloc NCPU id st = Done (0, st, tr) /\
     forall j, (j < NCPU)%nat -> freelist st !! j = Some 0) \/
  (exists i r tr, freelist st !! i = Some r /\ r ≠ 0 /\
     kalloc NCPU id st = Done (r, popped st i r, tr)).
Proof.
  intros Hlen Hid. unfold kalloc.
  destruct (lookup_lt_is_Some_2 (freelist st) id) as [r Hr]; [lia|].
  rewrite Hr. destruct (Z.eqb_spec r 0) as [Hz|Hnz].
  - subst r. destruct (steal_cases id st (seq 0 NCPU))
      as [(tr & E & Hall)|(i & r & tr & H1 & H2 & _ & E)].
    { intros j Hj. apply elem_of_seq in Hj. lia. }
    + left. rewrite E. eexists. split; [reflexivity|]. intros j Hj.
      destruct (decide (j = id)) as [->|Hne]; [exact Hr|].
      apply Hall; [apply elem_of_seq; lia | exact Hne].
    + right. rewrite E. exists i, r. eexists. repeat split; eauto.
  - right. exists id, r. eexists. repeat split; eauto.
Qed.


Lemma kfree_push_perm (ls : list (list Z)) id l pa :
  ls !! id = Some l -> concat (<[id := pa :: l]> ls) ≡ₚ pa :: concat ls.
Proof.
  intros H. rewrite (concat_insert_perm ls id l) by exact H.
  rewrite <- app_comm_cons. now rewrite <- (concat_lookup_perm ls id l).
Qed.

Lemma held_split (held : list Z) pa :
  NoDup held -> pa ∈ held -> held ≡ₚ pa :: filter (fun x => x ≠ pa) held.
Proof.
  induction held as [|h held IH]; intros Hnd Hin.
  - now apply elem_of_nil in Hin.
  - apply NoDup_cons in Hnd as [Hh Hnd].
    destruct (decide (h = pa)) as [->|Hne].
    + rewrite filter_cons_False by (intros H; now apply H).
      f_equiv. clear IH Hin Hnd.
      induction held as [|x held IH]; [reflexivity|].
      rewrite not_elem_of_cons in Hh. destruct Hh as [Hx Hh].
      rewrite filter_cons_True by congruence. constructor. now apply IH.
    + rewrite filter_cons_True by exact Hne.
      apply elem_of_cons in Hin as [->|Hin]; [congruence|].
      rewrite (IH Hnd Hin) at 1. apply Permutation_swap.
Qed.

Lemma pages_from_seq n : forall p,
  pages_from p n = map (fun k => p + Z.of_nat k * PGSIZE) (seq 0 n).
Proof.
  induction n as [|n IH]; intros p; [reflexivity|].
  cbn [pages_from seq map]. f_equal; [lia|].
  rewrite IH, <- seq_shift, map_map. apply map_ext. intros k. lia.
Qed.

Lemma range_pages_from pa_start pa_end :
  range_pages pa_start pa_end =
    pages_from (PGROUNDUP pa_start)
               (Z.to_nat ((pa_end - PGROUNDUP pa_start) / PGSIZE)).
Proof. unfold range_pages. now rewrite pages_from_seq. Qed.

Lemma elem_of_pages_from n : forall p x,
  x ∈ pages_from p n ->
  p <= x /\ x + PGSIZE <= p + Z.of_nat n * PGSIZE /\
  (p mod PGSIZE = 0 -> x mod PGSIZE = 0).
Proof.
  induction n as [|n IH]; intros p x H; [now apply elem_of_nil in H|].
  cbn [pages_from] in H. apply elem_of_cons in H as [->|H].
  - unfold PGSIZE. split; [lia|]. split; [lia | auto].
  - apply IH in H as (H1 & H2 & H3). unfold PGSIZE in *.
    split; [lia|]. split; [lia|]. intros Hp. apply H3.
    rewrite <- Z.add_mod_idemp_l, Hp by lia. reflexivity.
Qed.

Lemma NoDup_pages_from n : forall p, NoDup (pages_from p n).
Proof.
  induction n as [|n IH]; intros p; [constructor|].
  cbn [pages_from]. apply NoDup_cons. split; [|apply IH].
  intros H. apply elem_of_pages_from in H as [H _]. unfold PGSIZE in H. lia.
Qed.

Lemma range_pages_spec pa_start pa_end x :
  x ∈ range_pages pa_start pa_end ->
  x mod PGSIZE = 0 /\ pa_start <= x /\ x + PGSIZE <= pa_end.
Proof.
  rewrite range_pages_from. intros H.
  apply elem_of_pages_from in H as (H1 & H2 & H3).
  pose proof (PGROUNDUP_bounds pa_start) as Hb.
  split; [apply H3, PGROUNDUP_aligned|]. split; [lia|].
  set (p := PGROUNDUP pa_start) in *.
  pose proof (Z.mul_div_le (pa_end - p) PGSIZE eq_refl).
  unfold PGSIZE in *. lia.
Qed.

Lemma concat_replicate_nil {A} n : concat (replicate n (@nil A)) = [].
Proof. induction n; simpl; auto. Qed.

Lemma length_freelist_kfree id st pa st' tr :
  kfree kend PHYSTOP id st pa = Done (st', tr) ->
  length (freelist st') = length (freelist st).
Proof.
  unfold kfree. destruct (_ || _); [discriminate|].
  destruct (freelist st !! id); [|discriminate].
  intros E. injection E as <- <-. simpl. apply length_insert.
Qed.

(** The loop of [freerange] on held pages: they end up on the list of
    CPU [id], the last one freed first. *)
Lemma free_pages_push id : forall n st ls held p l,
  consistent st ls (pages_from p n ++ held) ->
  (id < length (freelist st))%nat -> ls !! id = Some l ->
  exists st' tr,
    free_pages kend PHYSTOP id st p n = Done (st', tr) /\
    consistent st' (<[id := rev (pages_from p n) ++ l]> ls) held /\
    length (freelist st') = length (freelist st).
Proof.
  induction n as [|n IH]; intros st ls held p l Hc Hid Hl.
  - do 2 eexists. split; [reflexivity|]. simpl.
    rewrite list_insert_id by exact Hl. auto.
  - cbn [pages_from] in *. rewrite <- app_comm_cons in Hc.
    destruct (kfree_push id st ls _ p Hc Hid) as (l0 & st1 & tr1 & Hl0 & E & Hc1 & _).
    assert (l0 = l) by congruence. subst l0.
    pose proof (length_freelist_kfree _ _ _ _ _ E) as Hlen.
    destruct (IH st1 (<[id := p :: l]> ls) held (p + PGSIZE) (p :: l))
      as (st' & tr & E' & Hc' & Hlen'); [exact Hc1 | lia | |].
    { apply list_lookup_insert_eq. eapply lookup_lt_Some; eauto. }
    cbn [free_pages]. rewrite E, E'. do 2 eexists.
    split; [reflexivity|]. split; [|lia].
    rewrite list_insert_insert_eq in Hc'.
    cbn [rev]. now rewrite <- app_assoc.
Qed.


(** X6: with consistent free lists, [kalloc] returns null only when no
    CPU has a free page; otherwise it returns a page of some free list,
    which is therefore held by nobody, and the lists stay consistent
    with that page added to the held ones.  It never writes to a page
    that is held. *)
Theorem kalloc_takes_a_free_page id st ls held :
  consistent st ls held -> length (freelist st) = NCPU -> (id < NCPU)%nat ->
  exists r st' tr,
    kalloc NCPU id st = Done (r, st', tr) /\
    (r = 0 <-> concat ls = []) /\
    (r = 0 -> st' = st) /\
    (r ≠ 0 ->
       page r /\ (r ∉ held) /\
       exists ls', consistent st' ls' (r :: held) /\
                   concat ls ≡ₚ r :: concat ls') /\
    (forall h a, h ∈ held -> h <= a < h + PGSIZE -> ram st' a = ram st a).
Proof.
  intros Hc Hlen Hid.
  destruct (kalloc_cases id st Hlen Hid)
    as [(tr & E & Hall)|(i & r & tr & Hi & Hr & E)].
  - exists 0, st, tr. split; [exact E|].
    assert (Hnil : concat ls = []).
    { eapply flist_all_null; [apply Hc|]. intros j Hj. apply Hall. lia. }
    repeat split; auto; congruence.
  - destruct (popped_consistent st ls held i r Hc Hi Hr) as (l' & Hl & Hc' & Hperm).
    destruct Hc as [_ Hp Hnd]. rewrite Hperm in Hp, Hnd.
    cbn [app] in Hp, Hnd.
    apply Forall_cons in Hp as [Hpr Hp]. apply NoDup_cons in Hnd as [Hfresh _].
    rewrite Forall_app in Hp. destruct Hp as [_ Hheld].
    rewrite not_elem_of_app in Hfresh. destruct Hfresh as [_ Hfresh].
    exists r, (popped st i r), tr. split; [exact E|].
    split; [|split; [|split]].
    + split; [contradiction|]. intros Hnil. rewrite Hnil in Hperm.
      now apply Permutation_nil_cons in Hperm.
    + contradiction.
    + intros _. split; [exact Hpr|]. split; [exact Hfresh|]. eauto.
    + intros h a Hh Ha. cbn [popped ram]. apply memset_outside.
      rewrite Forall_forall in Hheld. destruct (Hheld h Hh) as [Hal _].
      destruct Hpr as [Har _].
      assert (Hne : h ≠ r) by (intros ->; contradiction).
      destruct (Z.lt_ge_cases a r) as [?|?]; [now left|].
      destruct (Z.le_gt_cases (r + PGSIZE) a) as [?|?]; [now right|].
      exfalso. eapply (aligned_apart h r a a); eauto.
Qed.

(** X7: [kfree] of a held page puts it at the head of the executing
    CPU's list and keeps the lists consistent, the page being no longer
    held; it writes only inside the page it is given. *)
Theorem kfree_gives_the_page_back id st ls held pa :
  consistent st ls held -> (id < length (freelist st))%nat -> pa ∈ held ->
  exists st' tr ls',
    kfree kend PHYSTOP id st pa = Done (st', tr) /\
    freelist st' !! id = Some pa /\
    consistent st' ls' (filter (fun x => x ≠ pa) held) /\
    concat ls' ≡ₚ pa :: concat ls /\
    (forall a, ~ pa <= a < pa + PGSIZE -> ram st' a = ram st a).
Proof.
  intros Hc Hid Hpa.
  assert (Hnd : NoDup held).
  { destruct Hc as [_ _ H]. now apply NoDup_app in H as (_ & _ & H). }
  apply (consistent_perm _ _ _ _ (held_split held pa Hnd Hpa)) in Hc.
  destruct (kfree_push id st ls _ pa Hc Hid) as (l & st' & tr & Hl & E & Hc' & Hram).
  exists st', tr, (<[id := pa :: l]> ls). split; [exact E|].
  split; [|split; [exact Hc'|split; [now apply kfree_push_perm | exact Hram]]].
  destruct Hc' as [H2 _ _].
  destruct (Forall2_lookup_r _ _ _ id (pa :: l) H2) as (p0 & Hp0 & Hf).
  { apply list_lookup_insert_eq. eapply lookup_lt_Some; eauto. }
  destruct Hf as (-> & _). exact Hp0.
Qed.

Lemma krun_accounted cs : forall st held,
  accounted st held ->
  match krun kend PHYSTOP NCPU st held cs with
  | Ran st' held' => accounted st' held'
  | Misused => True
  | Stopped => False
  end.
Proof.
  induction cs as [|[cpu|cpu pa] cs IH]; intros st held (Hlen & ls & Hc & Hperm).
  - simpl. split; eauto.
  - cbn [krun]. case_bool_decide as Hcpu; [|exact I].
    destruct (kalloc_cases cpu st Hlen Hcpu)
      as [(tr & E & Hall)|(i & r & tr & Hi & Hr & E)]; rewrite E.
    + simpl. apply IH. split; eauto.
    + destruct (Z.eqb_spec r 0); [contradiction|].
      destruct (popped_consistent st ls held i r Hc Hi Hr) as (l' & Hl & Hc' & Hp).
      apply IH. split; [simpl; now rewrite length_insert|].
      exists (<[i := l']> ls). split; [exact Hc'|].
      rewrite <- Hperm, Hp. now rewrite <- Permutation_middle.
  - cbn [krun]. case_bool_decide as Hcpu; [|exact I].
    case_bool_decide as Hpa; [|exact I]. cbn [andb].
    assert (Hnd : NoDup held).
    { destruct Hc as [_ _ H]. now apply NoDup_app in H as (_ & _ & H). }
    pose proof (held_split held pa Hnd Hpa) as Hs.
    apply (consistent_perm _ _ _ _ Hs) in Hc.
    destruct (kfree_push cpu st ls _ pa Hc) as (l & st' & tr & Hl & E & Hc' & _);
      [lia|].
    rewrite E. apply IH. split.
    + erewrite length_freelist_kfree by eauto. exact Hlen.
    + exists (<[cpu := pa :: l]> ls). split; [exact Hc'|].
      rewrite (kfree_push_perm ls cpu l pa Hl), <- Hperm.
      etransitivity; [|apply Permutation_app_head; symmetry; exact Hs].
      apply Permutation_middle.
Qed.

Lemma kinit_accounted id st :
  freelist st = replicate NCPU 0 -> (id < NCPU)%nat ->
  exists st1 tr,
    kinit kend PHYSTOP id st = Done (st1, tr) /\ accounted st1 [].
Proof.
  intros Hfl Hid. unfold kinit, freerange.
  pose proof (range_pages_spec kend PHYSTOP) as Hpg.
  unfold accounted. rewrite range_pages_from in *.
  set (p := PGROUNDUP kend) in *.
  set (n := Z.to_nat ((PHYSTOP - p) / PGSIZE)) in *.
  destruct (free_pages_push id n st (replicate NCPU []) [] p [])
    as (st1 & tr & E & Hc & Hlen).
  - rewrite app_nil_r. split.
    + rewrite Hfl. apply Forall2_replicate. reflexivity.
    + rewrite concat_replicate_nil. simpl. apply Forall_forall.
      intros x Hx. apply Hpg in Hx. unfold page, PGSIZE in *. lia.
    + rewrite concat_replicate_nil. simpl. apply NoDup_pages_from.
  - rewrite Hfl, length_replicate. exact Hid.
  - now apply lookup_replicate.
  - exists st1, tr. split; [exact E|]. rewrite app_nil_r in Hc.
    split; [rewrite Hlen, Hfl; apply length_replicate|].
    eexists. split; [exact Hc|]. rewrite app_nil_r.
    rewrite (concat_insert_perm _ id []) by now apply lookup_replicate.
    rewrite list_insert_id by now apply lookup_replicate.
    rewrite concat_replicate_nil, app_nil_r.
    symmetry. apply Permutation_rev.
Qed.

(** X8: from [kinit] on, whatever the CPUs call: as long as only held
    pages are freed, the allocator never panics, no page is held twice,
    every held page is a whole page of [end, PHYSTOP), and the held
    pages together with the pages of the free lists are exactly the
    pages [kinit] freed. *)
Theorem no_page_is_issued_twice id st cs :
  freelist st = replicate NCPU 0 -> (id < NCPU)%nat ->
  match kinit kend PHYSTOP id st with
  | Done (st1, _) =>
      match krun kend PHYSTOP NCPU st1 [] cs with
      | Ran st' held =>
          NoDup held /\ Forall page held /\
          exists ls,
            Forall2 (flist (ram st')) (freelist st') ls /\
            concat ls ++ held ≡ₚ range_pages kend PHYSTOP
      | Misused => True
      | Stopped => False
      end
  | _ => False
  end.
Proof.
  intros Hfl Hid.
  destruct (kinit_accounted id st Hfl Hid) as (st1 & tr & -> & Ha).
  pose proof (krun_accounted cs st1 [] Ha) as H.
  destruct (krun kend PHYSTOP NCPU st1 [] cs) as [st' held| |]; auto.
  destruct H as (_ & ls & [H1 H2 H3] & H4).
  split; [now apply NoDup_app in H3 as (_ & _ & H3)|].
  split; [now apply Forall_app in H2 as [_ H2]|].
  exists ls. split; [exact H1 | exact H4].
Qed.

Lemma held_apart st ls held h r a :
  consistent st ls held -> h ∈ held -> r ∈ concat ls \/ (r ∈ held /\ r ≠ h) ->
  h <= a < h + PGSIZE -> ~ r <= a < r + PGSIZE.
Proof.
  intros [_ Hp Hnd] Hh Hr Ha Hra.
  rewrite Forall_forall in Hp.
  assert (Hph : page h) by (apply Hp, elem_of_app; now right).
  assert (Hne : h ≠ r).
  { destruct Hr as [Hr|[_ Hr]]; [|congruence].
    intros ->. apply NoDup_app in Hnd as (_ & Hd & _). eapply Hd; eauto. }
  assert (Hpr : page r).
  { apply Hp, elem_of_app. destruct Hr as [?|[? _]]; auto. }
  eapply (aligned_apart h r a a); eauto; [apply Hph | apply Hpr].
Qed.

(** X9: a page that is held and is not freed by any call of a sequence
    is still held after the sequence, and no call has written a byte of
    it. *)
Theorem held_page_is_never_written h : forall cs st ls held,
  consistent st ls held -> length (freelist st) = NCPU ->
  h ∈ held -> frees h cs = false ->
  match krun kend PHYSTOP NCPU st held cs with
  | Ran st' held' =>
      h ∈ held' /\ forall a, h <= a < h + PGSIZE -> ram st' a = ram st a
  | Misused => True
  | Stopped => False
  end.
Proof.
  induction cs as [|[cpu|cpu pa] cs IH]; intros st ls held Hc Hlen Hh Hf.
  - simpl. auto.
  - cbn [krun]. case_bool_decide as Hcpu; [|exact I].
    cbn [frees existsb orb] in Hf.
    destruct (kalloc_cases cpu st Hlen Hcpu)
      as [(tr & E & Hall)|(i & r & tr & Hi & Hr & E)]; rewrite E.
    + simpl. eapply IH; eauto.
    + destruct (Z.eqb_spec r 0); [contradiction|].
      destruct (popped_consistent st ls held i r Hc Hi Hr)
        as (l' & Hl & Hc' & Hp).
      specialize (IH (popped st i r) _ (r :: held) Hc').
      cbn [popped freelist] in IH. rewrite length_insert in IH.
      specialize (IH Hlen ltac:(now right) Hf).
      destruct (krun kend PHYSTOP NCPU _ (r :: held) cs) as [st' held'| |];
        auto.
      destruct IH as [Hin Hram]. split; [exact Hin|].
      intros a Ha. rewrite (Hram a Ha). cbn [popped ram].
      apply memset_outside.
      assert (Hout : ~ r <= a < r + PGSIZE).
      { apply (held_apart st ls held h r a Hc Hh);
          [left; rewrite Hp; now left | exact Ha]. }
      lia.
  - cbn [krun]. case_bool_decide as Hcpu; [|exact I].
    case_bool_decide as Hpa; [|exact I]. cbn [andb].
    cbn [frees existsb] in Hf. apply orb_false_iff in Hf as [Hne Hf].
    apply Z.eqb_neq in Hne.
    assert (Hnd : NoDup held).
    { destruct Hc as [_ _ H]. now apply NoDup_app in H as (_ & _ & H). }
    pose proof (held_split held pa Hnd Hpa) as Hs.
    pose proof (consistent_perm _ _ _ _ Hs Hc) as Hc1.
    destruct (kfree_push cpu st ls _ pa Hc1)
      as (l & st1 & tr & Hl & E & Hc' & Hram1); [lia|].
    rewrite E.
    specialize (IH st1 _ _ Hc').
    rewrite (length_freelist_kfree _ _ _ _ _ E) in IH.
    specialize (IH Hlen).
    assert (Hh' : h ∈ filter (fun x => x ≠ pa) held).
    { apply list_elem_of_filter. split; [congruence | exact Hh]. }
    specialize (IH Hh' Hf).
    destruct (krun kend PHYSTOP NCPU st1 _ cs) as [st' held'| |]; auto.
    destruct IH as [Hin Hram]. split; [exact Hin|].
    intros a Ha. rewrite (Hram a Ha). apply Hram1.
    apply (held_apart st ls held h pa a Hc Hh);
      [right; split; [exact Hpa | congruence] | exact Ha].
Qed.

Lemma krun_allocs : forall cs st held,
  accounted st held -> only_allocs NCPU cs = true ->
  exists st' held',
    krun kend PHYSTOP NCPU st held cs = Ran st' held' /\
    length held' =
      Nat.min (length held + length cs) (length (range_pages kend PHYSTOP)).
Proof.
  induction cs as [|[cpu|cpu pa] cs IH]; intros st held Ha Hcs.
  - destruct Ha as (_ & ls & _ & Hperm).
    exists st, held. split; [reflexivity|].
    apply Permutation_length in Hperm. rewrite length_app in Hperm.
    cbn [length]. lia.
  - cbn [only_allocs forallb] in Hcs. apply andb_true_iff in Hcs as [Hcpu Hcs].
    apply bool_decide_eq_true in Hcpu.
    destruct Ha as (Hlen & ls & Hc & Hperm).
    cbn [krun]. rewrite bool_decide_eq_true_2 by exact Hcpu.
    destruct (kalloc_cases cpu st Hlen Hcpu)
      as [(tr & E & Hall)|(i & r & tr & Hi & Hr & E)]; rewrite E.
    + simpl.
      assert (Hnil : concat ls = []).
      { eapply flist_all_null; [apply Hc|]. intros j Hj. apply Hall. lia. }
      destruct (IH st held) as (st' & held' & E' & Hl'); [|exact Hcs|].
      { split; [exact Hlen|]. eauto. }
      exists st', held'. split; [exact E'|]. rewrite Hl'.
      rewrite Hnil in Hperm. apply Permutation_length in Hperm.
      cbn [app length] in *. lia.
    + destruct (Z.eqb_spec r 0); [contradiction|].
      destruct (popped_consistent st ls held i r Hc Hi Hr)
        as (l' & Hl & Hc' & Hp).
      destruct (IH (popped st i r) (r :: held)) as (st' & held' & E' & Hl');
        [|exact Hcs|].
      { split; [simpl; now rewrite length_insert|].
        exists (<[i := l']> ls). split; [exact Hc'|].
        rewrite <- Hperm, Hp. now rewrite <- Permutation_middle. }
      exists st', held'. split; [exact E'|]. rewrite Hl'. cbn [length]. lia.
  - discriminate.
Qed.

(** X10: after [kinit], calls of [kalloc] alone, on whatever CPUs, hand
    out every page [kinit] freed before one of them returns null: after
    [n] calls the number of pages held is [n], or the number of whole
    pages of [end, PHYSTOP) if that is less. *)
Theorem kalloc_fails_only_when_all_pages_are_held id st cs :
  freelist st = replicate NCPU 0 -> (id < NCPU)%nat ->
  only_allocs NCPU cs = true ->
  match kinit kend PHYSTOP id st with
  | Done (st1, _) =>
      exists st' held,
        krun kend PHYSTOP NCPU st1 [] cs = Ran st' held /\
        length held =
          Nat.min (length cs) (length (range_pages kend PHYSTOP))
  | _ => False
  end.
Proof.
  intros Hfl Hid Hcs.
  destruct (kinit_accounted id st Hfl Hid) as (st1 & tr & -> & Ha).
  apply (krun_allocs cs st1 [] Ha Hcs).
Qed.

End Pages.

Section Misuse.

Variables (kend PHYSTOP : Z) (NCPU : nat).

(** X11: a page freed and then allocated on the same CPU comes back from
    [kalloc], and the free lists are as they were before the two
    calls: the list of a CPU is last in, first out. *)
Theorem kalloc_returns_the_page_just_freed id st pa st1 tr1 :
  kfree kend PHYSTOP id st pa = Done (st1, tr1) -> pa ≠ 0 ->
  (forall head, freelist st !! id = Some head -> 0 <= head < 2 ^ 64) ->
  exists st2 tr2,
    kalloc NCPU id st1 = Done (pa, st2, tr2) /\
    freelist st2 = freelist st /\
    (forall a, ~ pa <= a < pa + PGSIZE -> ram st2 a = ram st a).
Proof.
  unfold kfree. destruct (_ || _); [discriminate|].
  destruct (freelist st !! id) as [head|] eqn:Hh; [|discriminate].
  intros E Hpa Hb. injection E as <- <-.
  assert (Hid : (id < length (freelist st))%nat) by (eapply lookup_lt_Some; eauto).
  unfold kalloc. cbn [freelist ram].
  rewrite list_lookup_insert_eq by exact Hid.
  destruct (Z.eqb_spec pa 0); [contradiction|].
  do 2 eexists. split; [reflexivity|]. cbn [freelist ram]. split.
  - rewrite load_store64, Z.mod_small by (now apply Hb).
    rewrite list_insert_insert_eq. now apply list_insert_id.
  - intros a Ha. rewrite memset_outside by lia.
    rewrite store64_outside by (unfold PGSIZE in *; lia).
    apply memset_outside. lia.
Qed.

Lemma load64_memset m pa c :
  load64 (memset m pa c PGSIZE) pa =
    c mod 256 * 72340172838076673.
Proof.
  unfold load64. cbn [load_bytes].
  rewrite !memset_inside by (unfold PGSIZE; lia). lia.
Qed.

(** X12: [kfree] does not notice a page that is freed twice: the page
    then links to itself, the next two calls of [kalloc] on that CPU
    both return it, and what is left as the head of the list is the
    fill pattern of the page, 0x0505050505050505, not a page. *)
Theorem page_freed_twice_is_issued_twice id st pa :
  pa mod PGSIZE = 0 -> kend <= pa < PHYSTOP -> 0 < pa < 2 ^ 64 ->
  (id < length (freelist st))%nat ->
  exists st1 tr1 st2 tr2 st3 tr3 st4 tr4,
    kfree kend PHYSTOP id st pa = Done (st1, tr1) /\
    kfree kend PHYSTOP id st1 pa = Done (st2, tr2) /\
    load64 (ram st2) pa = pa /\
    kalloc NCPU id st2 = Done (pa, st3, tr3) /\
    kalloc NCPU id st3 = Done (pa, st4, tr4) /\
    freelist st4 !! id = Some 361700864190383365.
Proof.
  intros Hal Hr Hpa Hid.
  destruct (lookup_lt_is_Some_2 (freelist st) id Hid) as [head Hh].
  do 8 eexists.
  split; [eapply kfree_valid; eauto|].
  split; [eapply kfree_valid; eauto;
          cbn [freelist]; now apply list_lookup_insert_eq|].
  cbn [ram freelist].
  assert (Hlink : load64 (store64 (memset (store64 (memset (ram st) pa 1 PGSIZE)
                     pa head) pa 1 PGSIZE) pa pa) pa = pa).
  { rewrite load_store64. apply Z.mod_small. lia. }
  split; [exact Hlink|].
  split.
  { unfold kalloc. cbn [freelist ram].
    rewrite list_lookup_insert_eq by now rewrite length_insert.
    destruct (Z.eqb_spec pa 0); [lia | reflexivity]. }
  cbn [ram freelist]. rewrite Hlink. split.
  { unfold kalloc. cbn [freelist ram].
    rewrite list_lookup_insert_eq by now rewrite !length_insert.
    destruct (Z.eqb_spec pa 0); [lia | reflexivity]. }
  cbn [ram freelist]. rewrite load64_memset.
  apply list_lookup_insert_eq. now rewrite !length_insert.
Qed.








End Misuse.

(** *** The theorems on a small machine *)

(** Two CPUs: page [kend0] is on the list of CPU 0, page
    [kend0 + PGSIZE] is held. *)
Definition one_free : kmem :=
  {| ram := store64 (memset (fun _ => 0) kend0 1 PGSIZE) kend0 0;
     freelist := [kend0; 0] |}.

Lemma one_free_consistent :
  consistent kend0 PHYSTOP0 one_free [[kend0]; []] [kend0 + PGSIZE].
Proof.
  split.
  - constructor; [|constructor; [reflexivity | constructor]].
    cbn [flist]. split; [reflexivity|]. split; [discriminate|].
    vm_compute. reflexivity.
  - simpl. apply Forall_cons. split; [|apply Forall_singleton];
      (split; [reflexivity | vm_compute; split; congruence]).
  - simpl. apply NoDup_cons. split; [|apply NoDup_singleton].
    intros H. apply list_elem_of_singleton in H. discriminate.
Qed.



Lemma kalloc_takes_a_free_page_witness :
  length (freelist one_free) = 2%nat /\ (1 < 2)%nat /\
  exists r st' tr,
    kalloc 2 1 one_free = Done (r, st', tr) /\
    (r = 0 <-> concat [[kend0]; []] = []) /\
    (r ≠ 0 -> page kend0 PHYSTOP0 r /\ (r ∉ [kend0 + PGSIZE])).
Proof.
  split; [reflexivity|]. split; [lia|].
  destruct (kalloc_takes_a_free_page kend0 PHYSTOP0 2 1 one_free
              [[kend0]; []] [kend0 + PGSIZE] one_free_consistent)
    as (r & st' & tr & E & Hz & _ & Hnz & _); [reflexivity | lia |].
  exists r, st', tr. split; [exact E|]. split; [exact Hz|].
  intros Hr. destruct (Hnz Hr) as (H1 & H2 & _). auto.
Defined.

Lemma kfree_gives_the_page_back_witness :
  0 < kend0 /\ PHYSTOP0 <= 2 ^ 64 /\
  (1 < length (freelist one_free))%nat /\
  exists st' tr ls',
    kfree kend0 PHYSTOP0 1 one_free (kend0 + PGSIZE) = Done (st', tr) /\
    freelist st' !! 1%nat = Some (kend0 + PGSIZE) /\
    concat ls' ≡ₚ (kend0 + PGSIZE) :: concat [[kend0]; []].
Proof.
  split; [reflexivity|]. split; [vm_compute; discriminate|].
  split; [simpl; lia|].
  destruct (kfree_gives_the_page_back kend0 PHYSTOP0) with
    (id := 1%nat) (st := one_free) (ls := [[kend0]; []])
    (held := [kend0 + PGSIZE]) (pa := kend0 + PGSIZE)
    as (st' & tr & ls' & E & Hh & _ & Hp & _);
    [reflexivity | vm_compute; discriminate | exact one_free_consistent
    | simpl; lia | left |].
  exists st', tr, ls'. auto.
Defined.

Lemma no_page_is_issued_twice_witness :
  0 < kend0 /\ kend0 + 2 * PGSIZE <= 2 ^ 64 /\
  freelist two_cpus = replicate 2 0 /\
  match kinit kend0 (kend0 + 2 * PGSIZE) 0 two_cpus with
  | Done (st1, _) =>
      match krun kend0 (kend0 + 2 * PGSIZE) 2 st1 []
                 [KAlloc 1; KAlloc 0; KFree 1 kend0; KAlloc 1; KAlloc 0] with
      | Ran st' held =>
          NoDup held /\ Forall (page kend0 (kend0 + 2 * PGSIZE)) held /\
          exists ls,
            Forall2 (flist (ram st')) (freelist st') ls /\
            concat ls ++ held ≡ₚ range_pages kend0 (kend0 + 2 * PGSIZE)
      | Misused => True
      | Stopped => False
      end
  | _ => False
  end.
Proof.
  split; [reflexivity|]. split; [vm_compute; discriminate|].
  split; [reflexivity|].
  apply (no_page_is_issued_twice kend0 (kend0 + 2 * PGSIZE) 2);
    [reflexivity | vm_compute; discriminate | reflexivity | lia].
Defined.

Lemma kalloc_returns_the_page_just_freed_witness :
  exists st1 tr1 st2 tr2,
    kfree kend0 PHYSTOP0 0 two_cpus kend0 = Done (st1, tr1) /\
    kalloc 2 0 st1 = Done (kend0, st2, tr2) /\
    freelist st2 = freelist two_cpus.
Proof.
  do 2 eexists.
  assert (E : kfree kend0 PHYSTOP0 0 two_cpus kend0 =
              Done ({| ram := store64 (memset (ram two_cpus) kend0 1 PGSIZE) kend0 0;
                       freelist := [kend0; 0] |},
                    [PushOff; Acquire 0%nat; Release 0%nat; PopOff]))
    by reflexivity.
  destruct (kalloc_returns_the_page_just_freed kend0 PHYSTOP0 2 0 two_cpus
              kend0 _ _ E) as (st2 & tr2 & E2 & Hfl & _).
  - discriminate.
  - intros head Hh. injection Hh as <-. lia.
  - exists st2, tr2. split; [exact E|]. split; [exact E2 | exact Hfl].
Defined.

Lemma page_freed_twice_is_issued_twice_witness :
  kend0 mod PGSIZE = 0 /\ kend0 <= kend0 < PHYSTOP0 /\ 0 < kend0 < 2 ^ 64 /\
  (0 < length (freelist two_cpus))%nat /\
  exists st1 tr1 st2 tr2 st3 tr3 st4 tr4,
    kfree kend0 PHYSTOP0 0 two_cpus kend0 = Done (st1, tr1) /\
    kfree kend0 PHYSTOP0 0 st1 kend0 = Done (st2, tr2) /\
    load64 (ram st2) kend0 = kend0 /\
    kalloc 2 0 st2 = Done (kend0, st3, tr3) /\
    kalloc 2 0 st3 = Done (kend0, st4, tr4) /\
    freelist st4 !! 0%nat = Some 361700864190383365.
Proof.
  split; [reflexivity|]. split; [vm_compute; split; congruence|].
  split; [vm_compute; split; congruence|]. split; [simpl; lia|].
  apply (page_freed_twice_is_issued_twice kend0 PHYSTOP0 2 0 two_cpus kend0);
    [reflexivity | vm_compute; split; congruence
    | vm_compute; split; congruence | simpl; lia].
Defined.

Lemma held_page_is_never_written_witness :
  length (freelist one_free) = 2%nat /\
  frees (kend0 + PGSIZE) [KAlloc 1; KFree 0 kend0; KAlloc 0] = false /\
  match krun kend0 PHYSTOP0 2 one_free [kend0 + PGSIZE]
             [KAlloc 1; KFree 0 kend0; KAlloc 0] with
  | Ran st' held' =>
      kend0 + PGSIZE ∈ held' /\
      forall a, kend0 + PGSIZE <= a < kend0 + PGSIZE + PGSIZE ->
                ram st' a = ram one_free a
  | Misused => True
  | Stopped => False
  end.
Proof.
  split; [reflexivity|]. split; [reflexivity|].
  apply (held_page_is_never_written kend0 PHYSTOP0 2) with (ls := [[kend0]; []]);
    [reflexivity | vm_compute; discriminate | exact one_free_consistent
    | reflexivity | left | reflexivity].
Defined.

Lemma kalloc_fails_only_when_all_pages_are_held_witness :
  0 < kend0 /\ kend0 + 2 * PGSIZE <= 2 ^ 64 /\
  freelist two_cpus = replicate 2 0 /\
  only_allocs 2 [KAlloc 1; KAlloc 0; KAlloc 1] = true /\
  match kinit kend0 (kend0 + 2 * PGSIZE) 0 two_cpus with
  | Done (st1, _) =>
      exists st' held,
        krun kend0 (kend0 + 2 * PGSIZE) 2 st1 []
             [KAlloc 1; KAlloc 0; KAlloc 1] = Ran st' held /\
        length held =
          Nat.min (length [KAlloc 1; KAlloc 0; KAlloc 1])
                  (length (range_pages kend0 (kend0 + 2 * PGSIZE)))
  | _ => False
  end.
Proof.
  split; [reflexivity|]. split; [vm_compute; discriminate|].
  split; [reflexivity|]. split; [reflexivity|].
  apply (kalloc_fails_only_when_all_pages_are_held kend0 (kend0 + 2 * PGSIZE) 2);
    [reflexivity | vm_compute; discriminate | reflexivity | lia | reflexivity].
Defined.

End KallocLists.

(** ** The calls of the buffer cache, one after the other *)

Module BioUse.
Import Bio BioFacts BioInv BioInit BioRun BioPaths.

Local Open Scope Z_scope.

(** Every reference count fits the [uint] it is stored in. *)
Definition counts_fit (st : bcache) : Prop :=
  forall i bf, bufs st !! i = Some bf -> 0 <= refcnt bf < 2 ^ 32.

(** The chain pointers of two states are the same. *)
Definition same_links (st st' : bcache) : Prop :=
  heads st' = heads st /\
  forall i, next <$> bufs st' !! i = next <$> bufs st !! i.

(** What [binit] leaves in a descriptor besides [blockno] and [next]. *)
Definition fresh (bf : buf) : Prop :=
  valid bf = 0 /\ dev bf = 0 /\ locked bf = false /\
  refcnt bf = 0 /\ time_stamp bf = 0.

(** The descriptor a call works on: the one it names, or the one it
    returns. *)
Definition subject (c : call) (s' : sys) : option nat :=
  match c with
  | Bget _ _ | Bread _ _ => head (handles s')
  | Bwrite b | Brelse b _ | Bpin b | Bunpin b => Some b
  end.

(** What a call adds to the log of the disk driver. *)
Definition disk_calls (c : call) (s s' : sys) : Prop :=
  match c with
  | Bwrite b => disk_io (cache s') = (b, true) :: disk_io (cache s)
  | Bread _ _ =>
      disk_io (cache s') = disk_io (cache s) \/
      exists b, subject c s' = Some b /\
                disk_io (cache s') = (b, false) :: disk_io (cache s)
  | _ => disk_io (cache s') = disk_io (cache s)
  end.

(** The descriptors below [b] carry the index of their bucket, [q]
    descriptors to a bucket. *)
Definition numbered (q : nat) (st : bcache) (b : nat) : Prop :=
  forall j bf, (j < b)%nat -> bufs st !! j = Some bf ->
               blockno bf = Z.of_nat (j `div` q).

Lemma uint_range z : 0 <= uint z < 2 ^ 32.
Proof. unfold uint. apply Z.mod_pos_bound. lia. Qed.

Lemma uint_succ_pred r : 0 <= r < 2 ^ 32 -> uint (uint (r + 1) - 1) = r.
Proof.
  intros Hr. unfold uint.
  destruct (Z.eq_dec r (2 ^ 32 - 1)) as [->|Hne]; [reflexivity|].
  rewrite (Z.mod_small (r + 1)) by lia.
  replace (r + 1 - 1) with r by lia. apply Z.mod_small. lia.
Qed.

Lemma uint_pred_succ r : 0 <= r < 2 ^ 32 -> uint (uint (r - 1) + 1) = r.
Proof.
  intros Hr. unfold uint.
  destruct (Z.eq_dec r 0) as [->|Hne]; [reflexivity|].
  rewrite (Z.mod_small (r - 1)) by lia.
  replace (r - 1 + 1) with r by lia. apply Z.mod_small. lia.
Qed.

Lemma alter_fixed {A} (f : A -> A) (l : list A) i x :
  l !! i = Some x -> f x = x -> alter f i l = l.
Proof.
  intros Hi Hx. apply list_eq. intros j.
  destruct (decide (i = j)) as [<-|Hne].
  - rewrite list_lookup_alter_eq, Hi. simpl. now rewrite Hx.
  - now rewrite list_lookup_alter_ne.
Qed.

Lemma upd_upd st b f g : upd (upd st b f) b g = upd st b (fun x => g (f x)).
Proof.
  unfold upd. simpl. f_equal. apply list_alter_alter_eq.
Qed.

Lemma upd_fixed st b f bf :
  bufs st !! b = Some bf -> f bf = bf -> upd st b f = st.
Proof.
  intros Hb Hf. destruct st as [bs hs io]. unfold upd. simpl in *.
  f_equal. eapply alter_fixed; eauto.
Qed.

Lemma same_links_trans st1 st2 st3 :
  same_links st1 st2 -> same_links st2 st3 -> same_links st1 st3.
Proof.
  intros [H1 N1] [H2 N2]. split; [congruence|].
  intros i. now rewrite N2, N1.
Qed.

Lemma same_links_upd st b f :
  (forall x, next (f x) = next x) -> same_links st (upd st b f).
Proof.
  intros Hf. split; [reflexivity|]. intros i.
  destruct (decide (b = i)) as [->|Hne].
  - rewrite lookup_upd_eq. destruct (bufs st !! i) as [x|]; [|reflexivity].
    simpl. now rewrite Hf.
  - now rewrite lookup_upd_ne.
Qed.

Lemma same_links_disk_io st b w : same_links st (virtio_disk_rw st b w).
Proof. split; reflexivity. Qed.

Section Use.

Variables (NBUF NBUCKET : nat).

(** The first loop of [bget] decides the call when the block is cached. *)
Lemma bget_of_cached st dv bn b :
  cached NBUCKET st dv bn = Some b ->
  bget NBUCKET st dv bn =
    acquiresleep (upd st b (fun bf => set_refcnt (uint (refcnt bf + 1)) bf)) b.
Proof.
  unfold cached, bget.
  destruct (heads st !! hash NBUCKET bn) as [hd|]; [|discriminate].
  destruct (scan_hit (chain_fuel st) (bufs st) hd dv bn) as [[h|]| |];
    try discriminate.
  intros E. injection E as ->. reflexivity.
Qed.

Lemma bget_Ret_bucket st dv bn st' b :
  bget NBUCKET st dv bn = Ret st' b -> is_Some (heads st !! hash NBUCKET bn).
Proof.
  unfold bget. destruct (heads st !! hash NBUCKET bn); [eauto | discriminate].
Qed.

Lemma settled_frame st dv bn b st_m :
  settled NBUCKET st dv bn b st_m ->
  length (heads st_m) = length (heads st) /\ disk_io st_m = disk_io st.
Proof.
  intros [bf0 Hc Hb Ed Eb ->|bf0 Hc Hb Hz ->|ba pre h Hc Hb Hz ->]; simpl; auto.
  rewrite length_insert. destruct pre; simpl; [|auto].
  now rewrite length_insert.
Qed.

(** The count of every descriptor after the bookkeeping of [bget]. *)
Lemma settled_counts st dv bn b st_m i bf :
  settled NBUCKET st dv bn b st_m -> bufs st_m !! i = Some bf ->
  refcnt bf = 1 \/
  (exists bf0, bufs st !! i = Some bf0 /\
     (refcnt bf = refcnt bf0 \/ refcnt bf = uint (refcnt bf0 + 1))).
Proof.
  intros [bf0 Hc Hb Ed Eb ->|bf0 Hc Hb Hz ->|ba pre h Hc Hb Hz ->] Hi.
  - apply lookup_upd in Hi as (x & Hx & ->). right. exists x.
    split; [exact Hx|]. destruct (decide (b = i)); simpl; auto.
  - apply lookup_upd in Hi as (x & Hx & ->).
    destruct (decide (b = i)); [now left|]. right. eauto.
  - apply lookup_upd in Hi as (x & Hx & ->).
    destruct (decide (b = i)) as [E|Hne]; [now left|]. right.
    simpl in Hx. rewrite list_lookup_alter_ne in Hx by exact Hne.
    destruct pre as [k|p]; simpl in Hx; [eauto|].
    destruct (decide (p = i)) as [->|Hp].
    + rewrite list_lookup_alter_eq in Hx.
      destruct (bufs st !! i) as [y|]; [|discriminate].
      injection Hx as <-. eauto.
    + rewrite list_lookup_alter_ne in Hx by exact Hp. eauto.
Qed.

(** What [bget] hands back. *)
Lemma bget_Ret_fields st dv bn st' b :
  bget NBUCKET st dv bn = Ret st' b ->
  exists bf,
    bufs st' !! b = Some bf /\ locked bf = true /\
    dev bf = dv /\ blockno bf = bn /\
    (cached NBUCKET st dv bn = None -> valid bf = 0) /\
    (forall h, cached NBUCKET st dv bn = Some h ->
       b = h /\ exists bh, bufs st !! h = Some bh /\ valid bf = valid bh) /\
    length (heads st') = length (heads st) /\ disk_io st' = disk_io st.
Proof.
  intros R.
  destruct (bget_settles NBUCKET st dv bn st' b (or_introl R))
    as (st_m & E & Hset).
  rewrite E in R. apply acquiresleep_Ret in R as (_ & -> & bfm & Hbfm & Hfree).
  destruct (settled_target _ _ _ _ _ _ Hset)
    as (bf0 & bf & H0 & Hm & Ed & Eb & El & _ & Hpath).
  destruct (settled_frame _ _ _ _ _ Hset) as [Hlen Hio].
  rewrite Hbfm in Hm. injection Hm as <-.
  exists (set_locked true bfm). rewrite lookup_upd_eq, Hbfm.
  split; [reflexivity|]. split; [reflexivity|].
  split; [exact Ed|]. split; [exact Eb|].
  split; [|split; [|split; [exact Hlen | exact Hio]]].
  - intros Hc. rewrite Hc in Hpath. simpl. tauto.
  - intros h Hc. rewrite Hc in Hpath. destruct Hpath as (-> & Hv & _).
    split; [reflexivity|]. exists bf0. split; [exact H0 | exact Hv].
Qed.

(** [bread] is [bget] followed by a disk read when the descriptor is not
    valid. *)
Lemma bread_Ret st dv bn st' b :
  bread NBUCKET st dv bn = Ret st' b ->
  exists st1 bf1,
    bget NBUCKET st dv bn = Ret st1 b /\ bufs st1 !! b = Some bf1 /\
    st' = (if valid bf1 =? 0
           then upd (virtio_disk_rw st1 b false) b (set_valid 1)
           else st1).
Proof.
  unfold bread.
  destruct (bget NBUCKET st dv bn) as [st1 b1| | | |]; try discriminate.
  destruct (bufs st1 !! b1) as [bf|] eqn:Hbf; [|discriminate].
  destruct (valid bf =? 0) eqn:Hv; intros E; injection E as <- <-;
    exists st1, bf; rewrite Hv; auto.
Qed.

Lemma bread_Ret_fields st dv bn st' b :
  bread NBUCKET st dv bn = Ret st' b ->
  exists bf,
    bufs st' !! b = Some bf /\ locked bf = true /\
    dev bf = dv /\ blockno bf = bn /\ valid bf ≠ 0 /\
    length (heads st') = length (heads st) /\
    is_Some (heads st !! hash NBUCKET bn).
Proof.
  intros R. destruct (bread_Ret _ _ _ _ _ R) as (st1 & bf1 & G & Hb1 & ->).
  pose proof (bget_Ret_bucket _ _ _ _ _ G) as Hbk.
  destruct (bget_Ret_fields _ _ _ _ _ G)
    as (bf & Hbf & Hl & Ed & Eb & _ & _ & Hlen & _).
  rewrite Hb1 in Hbf. injection Hbf as ->.
  destruct (Z.eqb_spec (valid bf) 0) as [Hv|Hv].
  - exists (set_valid 1 bf). rewrite lookup_upd_eq. simpl. rewrite Hb1.
    repeat split; auto; simpl; discriminate.
  - exists bf. repeat split; auto.
Qed.

(** A descriptor that is handed out is the one a lookup of its block
    finds. *)
Lemma held_is_cached st (H : nat -> Prop) b bf :
  inv NBUF NBUCKET st H -> H b -> bufs st !! b = Some bf ->
  cached NBUCKET st (dev bf) (blockno bf) = Some b.
Proof.
  intros (cs & Hs & Hk & _) Hb Hbf. pose proof Hs as [Sl Sc Sn Sd].
  destruct (ky_first _ _ _ _ Hk b bf Hb Hbf) as (k & c & Hc & F).
  destruct (first_match_Some _ _ _ _ _ F) as [Hin _].
  pose proof (ky_hash _ _ _ _ Hk _ _ _ _ Hc Hin Hbf) as Hh.
  destruct (lookup_lt_is_Some_2 (heads st) k) as [hd Hhd].
  { rewrite Sl. eapply lookup_lt_Some; eauto. }
  rewrite (cached_chain NBUCKET st cs k hd c); auto.
Qed.

(** *** Reference counts stay in range *)

Lemma counts_fit_upd st b f :
  counts_fit st -> (forall x, 0 <= refcnt (f x) < 2 ^ 32) ->
  counts_fit (upd st b f).
Proof.
  intros Hc Hf i bf Hi. apply lookup_upd in Hi as (x & Hx & ->).
  destruct (decide (b = i)); [apply Hf | eauto].
Qed.

Lemma counts_fit_upd_same st b f :
  counts_fit st -> (forall x, refcnt (f x) = refcnt x) ->
  counts_fit (upd st b f).
Proof.
  intros Hc Hf i bf Hi. apply lookup_upd in Hi as (x & Hx & ->).
  destruct (decide (b = i)); [rewrite Hf|]; eauto.
Qed.

Lemma bget_counts st dv bn st' b :
  counts_fit st -> bget NBUCKET st dv bn = Ret st' b -> counts_fit st'.
Proof.
  intros Hc R.
  destruct (bget_settles NBUCKET st dv bn st' b (or_introl R))
    as (st_m & E & Hset).
  rewrite E in R. apply acquiresleep_Ret in R as (_ & -> & _).
  apply counts_fit_upd_same; [|reflexivity].
  intros i bf Hi.
  destruct (settled_counts _ _ _ _ _ _ _ Hset Hi)
    as [->|(bf0 & H0 & [->| ->])]; [lia | eauto | apply uint_range].
Qed.

Lemma exec_counts s c s' :
  counts_fit (cache s) -> exec NBUCKET s c = Some s' -> counts_fit (cache s').
Proof.
  intros Hc He. destruct c as [dv bn|dv bn|b|b ticks|b|b]; simpl in He.
  - destruct (bget NBUCKET (cache s) dv bn) as [st b| | | |] eqn:E;
      try discriminate.
    injection He as <-. eapply bget_counts; eauto.
  - destruct (bread NBUCKET (cache s) dv bn) as [st b| | | |] eqn:E;
      try discriminate.
    injection He as <-. simpl.
    destruct (bread_Ret _ _ _ _ _ E) as (st1 & bf1 & G & _ & ->).
    pose proof (bget_counts _ _ _ _ _ Hc G) as Hc1.
    destruct (valid bf1 =? 0); [|exact Hc1].
    apply counts_fit_upd_same; [exact Hc1 | reflexivity].
  - apply on_handle_Some in He as (_ & st & E & ->). simpl.
    unfold bwrite in E. destruct (bufs (cache s) !! b) as [bf|]; [|discriminate].
    destruct (negb (locked bf)); [discriminate|]. injection E as <-. exact Hc.
  - apply on_handle_Some in He as (_ & st & E & ->). simpl.
    unfold brelse in E. destruct (bufs (cache s) !! b) as [bf|]; [|discriminate].
    destruct (negb (locked bf)); [discriminate|].
    destruct (heads (cache s) !! hash NBUCKET (blockno bf)); [|discriminate].
    injection E as <-. apply counts_fit_upd; [exact Hc|].
    intros x. destruct (uint (refcnt bf - 1) =? 0); simpl; apply uint_range.
  - apply on_handle_Some in He as (_ & st & E & ->). simpl.
    unfold bpin in E. destruct (bufs (cache s) !! b) as [bf|]; [|discriminate].
    destruct (heads (cache s) !! hash NBUCKET (blockno bf)); [|discriminate].
    injection E as <-. apply counts_fit_upd; [exact Hc|].
    intros x. apply uint_range.
  - apply on_handle_Some in He as (_ & st & E & ->). simpl.
    unfold bunpin in E. destruct (bufs (cache s) !! b) as [bf|]; [|discriminate].
    destruct (heads (cache s) !! hash NBUCKET (blockno bf)); [|discriminate].
    injection E as <-. apply counts_fit_upd; [exact Hc|].
    intros x. apply uint_range.
Qed.

Lemma run_counts : forall calls s s',
  counts_fit (cache s) -> run NBUCKET s calls = Some s' -> counts_fit (cache s').
Proof.
  induction calls as [|c calls IH]; intros s s' Hc Hr; simpl in Hr.
  - injection Hr as <-. exact Hc.
  - destruct (exec NBUCKET s c) as [s1|] eqn:E; [|discriminate].
    eapply IH; [|exact Hr]. eapply exec_counts; eauto.
Qed.

Lemma reachable_counts calls s :
  run NBUCKET (boot NBUF NBUCKET) calls = Some s -> counts_fit (cache s).
Proof.
  apply run_counts. simpl. intros i bf Hi.
  destruct (binit_linked NBUF NBUCKET) as (cs & [_ _ _ _ _ _ Li]).
  rewrite (Li _ _ Hi). lia.
Qed.

(** *** What [binit] writes *)

Lemma binit_link_fresh i st b :
  Forall fresh (bufs st) -> disk_io st = [] ->
  Forall fresh (bufs (fst (binit_link i (st, b)))) /\
  disk_io (fst (binit_link i (st, b))) = [].
Proof.
  intros Hf Hio. simpl. split; [|exact Hio].
  apply Forall_alter; [apply Forall_alter; [exact Hf|]|];
    intros x _ Hx; exact Hx.
Qed.

Lemma binit_bucket_fresh i : forall (l : list nat) acc,
  Forall fresh (bufs (fst acc)) -> disk_io (fst acc) = [] ->
  Forall fresh (bufs (fst (foldl (fun a _ => binit_link i a) acc l))) /\
  disk_io (fst (foldl (fun a _ => binit_link i a) acc l)) = [].
Proof.
  induction l as [|x l IH]; intros [st b] Hf Hio; [auto|].
  cbn [foldl]. apply IH; apply (binit_link_fresh i st b); auto.
Qed.

Lemma binit_buckets_fresh : forall (l : list nat) acc,
  Forall fresh (bufs (fst acc)) -> disk_io (fst acc) = [] ->
  Forall fresh (bufs (fst (foldl (binit_bucket NBUF NBUCKET) acc l))) /\
  disk_io (fst (foldl (binit_bucket NBUF NBUCKET) acc l)) = [].
Proof.
  induction l as [|i l IH]; intros acc Hf Hio; [auto|].
  cbn [foldl]. apply IH; apply binit_bucket_fresh; auto.
Qed.

Lemma binit_fresh :
  Forall fresh (bufs (binit NBUF NBUCKET)) /\ disk_io (binit NBUF NBUCKET) = [].
Proof.
  unfold binit. apply binit_buckets_fresh; [|reflexivity].
  rewrite init_sleeplocks_zeroed. simpl.
  apply Forall_replicate. repeat split.
Qed.


(** *** Composed calls *)

Lemma cached_Some st dv bn h :
  cached NBUCKET st dv bn = Some h ->
  exists bh, bufs st !! h = Some bh /\ dev bh = dv /\ blockno bh = bn.
Proof.
  unfold cached.
  destruct (heads st !! hash NBUCKET bn) as [hd|]; [|discriminate].
  destruct (scan_hit (chain_fuel st) (bufs st) hd dv bn) as [r| |] eqn:E;
    try discriminate.
  intros ->. eapply scan_hit_Some; eauto.
Qed.

Lemma bread_disk_io st dv bn st' b :
  bread NBUCKET st dv bn = Ret st' b ->
  (cached NBUCKET st dv bn = None ->
     disk_io st' = (b, false) :: disk_io st) /\
  (forall h bh, cached NBUCKET st dv bn = Some h -> bufs st !! h = Some bh ->
     b = h /\
     disk_io st' = if valid bh =? 0 then (h, false) :: disk_io st
                   else disk_io st).
Proof.
  intros R. destruct (bread_Ret _ _ _ _ _ R) as (st1 & bf1 & G & Hb1 & ->).
  destruct (bget_Ret_fields _ _ _ _ _ G)
    as (bf & Hbf & _ & _ & _ & Hmiss & Hhit & _ & Hio).
  rewrite Hb1 in Hbf. injection Hbf as ->. split.
  - intros Hc. rewrite (Hmiss Hc). simpl. now rewrite Hio.
  - intros h bh Hc Hbh. destruct (Hhit h Hc) as (-> & bh' & Hbh' & Hv).
    rewrite Hbh in Hbh'. injection Hbh' as <-. split; [reflexivity|].
    rewrite Hv. destruct (valid bh =? 0); simpl; now rewrite Hio.
Qed.

(** X15: [bread] calls the disk driver exactly when the descriptor it got
    from [bget] is not valid: always on a miss, and on a hit only when
    the cached descriptor had not been read yet.  Nothing else is added
    to the driver's log, and the descriptor comes back valid. *)
Theorem bread_reads_the_disk_when_not_valid st dv bn st' b :
  bread NBUCKET st dv bn = Ret st' b ->
  (cached NBUCKET st dv bn = None ->
     disk_io st' = (b, false) :: disk_io st) /\
  (forall h bh, cached NBUCKET st dv bn = Some h -> bufs st !! h = Some bh ->
     b = h /\
     disk_io st' = if valid bh =? 0 then (h, false) :: disk_io st
                   else disk_io st) /\
  (exists bf, bufs st' !! b = Some bf /\ valid bf ≠ 0).
Proof.
  intros R. destruct (bread_Ret_fields _ _ _ _ _ R)
    as (bf' & Hbf' & _ & _ & _ & Hv' & _).
  destruct (bread_disk_io _ _ _ _ _ R) as [Hmiss Hhit].
  split; [exact Hmiss|]. split; [exact Hhit | eauto].
Qed.

(** X16: the caller of [bread] holds the sleep-lock of the descriptor it
    is given, so [bwrite] and then [brelse] on it do not panic: the
    write reaches the driver, and the descriptor is left unlocked, still
    valid and still caching the block. *)
Theorem buffer_read_can_be_written_and_released st dv bn st1 b ticks :
  bread NBUCKET st dv bn = Ret st1 b ->
  bwrite st1 b = Ret (virtio_disk_rw st1 b true) tt /\
  exists st2 bf,
    brelse NBUCKET (virtio_disk_rw st1 b true) b ticks = Ret st2 tt /\
    disk_io st2 = (b, true) :: disk_io st1 /\
    bufs st2 !! b = Some bf /\ locked bf = false /\
    dev bf = dv /\ blockno bf = bn /\ valid bf ≠ 0.
Proof.
  intros R. destruct (bread_Ret_fields _ _ _ _ _ R)
    as (bf & Hbf & Hl & Ed & Eb & Hv & Hlen & Hbk).
  split.
  - unfold bwrite. now rewrite Hbf, Hl.
  - unfold brelse. cbn [virtio_disk_rw bufs heads]. rewrite Hbf, Hl. simpl.
    destruct (lookup_lt_is_Some_2 (heads st1) (hash NBUCKET (blockno bf)))
      as [hd Hhd].
    { rewrite Hlen, Eb. now apply lookup_lt_is_Some_1. }
    rewrite Hhd. do 2 eexists. split; [reflexivity|].
    split; [reflexivity|]. simpl. rewrite list_lookup_alter_eq, Hbf. simpl.
    split; [reflexivity|].
    destruct (uint (refcnt bf - 1) =? 0); simpl; auto.
Qed.

(** X17: a buffer that has been released cannot be released or written
    again: after [bread] and [brelse], a second [brelse] of the same
    buffer panics, and so does [bwrite]. *)
Theorem released_buffer_cannot_be_released_again st dv bn st1 b ticks st2 :
  bread NBUCKET st dv bn = Ret st1 b ->
  brelse NBUCKET st1 b ticks = Ret st2 tt ->
  (forall ticks', brelse NBUCKET st2 b ticks' = Panic "brelse") /\
  bwrite st2 b = Panic "bwrite".
Proof.
  intros R E. destruct (bread_Ret_fields _ _ _ _ _ R) as (bf & Hbf & Hl & _).
  unfold brelse in E. rewrite Hbf, Hl in E. simpl in E.
  destruct (heads st1 !! hash NBUCKET (blockno bf)); [|discriminate].
  injection E as <-.
  match goal with |- context [bwrite ?s b] => set (st2 := s) end.
  assert (Hb : exists bf2, bufs st2 !! b = Some bf2 /\ locked bf2 = false).
  { unfold st2. rewrite lookup_upd_eq, Hbf. simpl. eexists.
    split; [reflexivity|].
    destruct (uint (refcnt bf - 1) =? 0); reflexivity. }
  destruct Hb as (bf2 & Hbf2 & Hl2). split.
  - intros ticks'. unfold brelse. now rewrite Hbf2, Hl2.
  - unfold bwrite. now rewrite Hbf2, Hl2.
Qed.

(** X18: a block that is read, released and read again is found in the
    cache: the second [bread] returns the same descriptor and does not
    call the disk driver. *)
Theorem block_read_again_after_release_is_a_hit calls s dv bn st1 b ticks :
  run NBUCKET (boot NBUF NBUCKET) calls = Some s ->
  bread NBUCKET (cache s) dv bn = Ret st1 b ->
  exists st2 st3,
    brelse NBUCKET st1 b ticks = Ret st2 tt /\
    cached NBUCKET st2 dv bn = Some b /\
    bread NBUCKET st2 dv bn = Ret st3 b /\
    disk_io st3 = disk_io st1.
Proof.
  intros Hr R.
  pose proof (reachable_inv NBUF NBUCKET calls s Hr) as Hi.
  pose proof (bread_inv NBUF NBUCKET _ _ dv bn st1 b Hi (or_introl R)) as Hi1.
  destruct (bread_Ret_fields _ _ _ _ _ R)
    as (bf & Hbf & Hl & Ed & Eb & Hv & Hlen & Hbk).
  destruct (lookup_lt_is_Some_2 (heads st1) (hash NBUCKET (blockno bf)))
    as [hd Hhd].
  { rewrite Hlen, Eb. now apply lookup_lt_is_Some_1. }
  set (r := uint (refcnt bf - 1)).
  set (g := fun x => let x1 := set_refcnt r (set_locked false x) in
                     if r =? 0 then set_time_stamp ticks x1 else x1).
  assert (Hg : forall x, next (g x) = next x /\ dev (g x) = dev x /\
                         blockno (g x) = blockno x /\ valid (g x) = valid x /\
                         locked (g x) = false).
  { intros x. unfold g. destruct (r =? 0); simpl; auto. }
  assert (E2 : brelse NBUCKET st1 b ticks = Ret (upd st1 b g) tt).
  { unfold brelse. rewrite Hbf, Hl, Hhd. reflexivity. }
  assert (Hi2 : inv NBUF NBUCKET (upd st1 b g) (fun d => d = b \/ d ∈ handles s)).
  { apply inv_upd; [exact Hi1 | now left|]. intros x.
    destruct (Hg x) as (? & ? & ? & _). auto. }
  assert (Hb2 : bufs (upd st1 b g) !! b = Some (g bf)).
  { now rewrite lookup_upd_eq, Hbf. }
  destruct (Hg bf) as (_ & Gd & Gb & Gv & Gl).
  assert (Hc2 : cached NBUCKET (upd st1 b g) dv bn = Some b).
  { rewrite <- Ed, <- Eb, <- Gd, <- Gb.
    eapply held_is_cached; [exact Hi2 | now left | exact Hb2]. }
  exists (upd st1 b g). eexists. split; [exact E2|]. split; [exact Hc2|].
  unfold bread. rewrite (bget_of_cached _ _ _ _ Hc2).
  unfold acquiresleep. rewrite lookup_upd_eq, Hb2. simpl. rewrite Gl.
  rewrite lookup_upd_eq, lookup_upd_eq, Hb2. simpl.
  rewrite Gv. destruct (Z.eqb_spec (valid bf) 0); [contradiction|].
  split; reflexivity.
Qed.

(** X19: while a caller holds a block it got from [bget], a second [bget]
    or [bread] of the same block does not return: it counts the
    reference and leaves its caller asleep on the descriptor's
    sleep-lock. *)
Theorem bget_of_a_held_block_sleeps calls s dv bn st1 b :
  run NBUCKET (boot NBUF NBUCKET) calls = Some s ->
  bget NBUCKET (cache s) dv bn = Ret st1 b ->
  bget NBUCKET st1 dv bn =
    Sleeps (upd st1 b (fun bf => set_refcnt (uint (refcnt bf + 1)) bf)) b /\
  bread NBUCKET st1 dv bn =
    Sleeps (upd st1 b (fun bf => set_refcnt (uint (refcnt bf + 1)) bf)) b.
Proof.
  intros Hr R.
  pose proof (reachable_inv NBUF NBUCKET calls s Hr) as Hi.
  pose proof (bget_inv NBUF NBUCKET _ _ dv bn st1 b Hi (or_introl R)) as Hi1.
  destruct (bget_Ret_fields _ _ _ _ _ R) as (bf & Hbf & Hl & Ed & Eb & _).
  assert (Hc : cached NBUCKET st1 dv bn = Some b).
  { rewrite <- Ed, <- Eb.
    eapply held_is_cached; [exact Hi1 | now left | exact Hbf]. }
  assert (E : bget NBUCKET st1 dv bn =
    Sleeps (upd st1 b (fun bf => set_refcnt (uint (refcnt bf + 1)) bf)) b).
  { rewrite (bget_of_cached _ _ _ _ Hc). unfold acquiresleep.
    rewrite lookup_upd_eq, Hbf. simpl. now rewrite Hl. }
  split; [exact E|]. unfold bread. now rewrite E.
Qed.

(** X20: [bpin] and [bunpin] undo each other, in either order and also
    across the wrap of the counter: the cache is back in the state it
    was in. *)
Theorem bpin_and_bunpin_cancel calls s b :
  run NBUCKET (boot NBUF NBUCKET) calls = Some s ->
  (forall st1, bpin NBUCKET (cache s) b = Ret st1 tt ->
     bunpin NBUCKET st1 b = Ret (cache s) tt) /\
  (forall st1, bunpin NBUCKET (cache s) b = Ret st1 tt ->
     bpin NBUCKET st1 b = Ret (cache s) tt).
Proof.
  intros Hr. pose proof (reachable_counts calls s Hr) as Hc.
  split; intros st1; unfold bpin, bunpin;
    destruct (bufs (cache s) !! b) as [bf|] eqn:Hbf; try discriminate;
    destruct (heads (cache s) !! hash NBUCKET (blockno bf)) eqn:Hhd;
    try discriminate;
    intros E; injection E as <-;
    rewrite lookup_upd_eq, Hbf; cbn [fmap option_fmap option_map];
    cbn [blockno set_refcnt heads upd]; rewrite Hhd; f_equal;
    rewrite upd_upd; apply (upd_fixed _ _ _ bf Hbf);
    destruct bf as [v d n l r nx ts]; unfold set_refcnt; cbn; f_equal;
    [apply uint_succ_pred | apply uint_pred_succ]; apply (Hc _ _ Hbf).
Qed.

(** X21: the chains change only on the last path of [bget].  Every call
    that returns leaves all bucket heads and all [next] pointers as they
    were, unless it is a [bget] or [bread] of a block that is not cached
    and whose bucket holds no idle descriptor stamped below 2^32-1. *)
Theorem chains_change_only_on_pool_eviction calls s c s' :
  run NBUCKET (boot NBUF NBUCKET) calls = Some s ->
  exec NBUCKET s c = Some s' ->
  same_links (cache s) (cache s') \/
  exists dv bn,
    (c = Bget dv bn \/ c = Bread dv bn) /\
    cached NBUCKET (cache s) dv bn = None /\
    forall hd ch a bf,
      heads (cache s) !! hash NBUCKET bn = Some hd ->
      chain (bufs (cache s)) hd ch -> a ∈ ch ->
      bufs (cache s) !! a = Some bf -> refcnt bf = 0 ->
      ~ time_stamp bf < UINT32_MAX.
Proof.
  intros Hr He.
  destruct (reachable_inv NBUF NBUCKET calls s Hr) as (cs & Hs & _).
  pose proof Hs as [Sl Sc Sn Sd].
  assert (Hget : forall dv bn st b,
            bget NBUCKET (cache s) dv bn = Ret st b ->
            same_links (cache s) st \/
            (cached NBUCKET (cache s) dv bn = None /\
             forall hd ch a bf,
               heads (cache s) !! hash NBUCKET bn = Some hd ->
               chain (bufs (cache s)) hd ch -> a ∈ ch ->
               bufs (cache s) !! a = Some bf -> refcnt bf = 0 ->
               ~ time_stamp bf < UINT32_MAX)).
  { intros dv bn st b R.
    destruct (bget_Ret_bucket _ _ _ _ _ R) as [hd Hhd].
    destruct (lookup_lt_is_Some_2 cs (hash NBUCKET bn)) as [c0 Hc0].
    { rewrite <- Sl. eapply lookup_lt_Some; eauto. }
    pose proof (Sc _ _ _ Hhd Hc0) as Hch.
    pose proof (shape_fuel _ _ _ _ Hs Hc0) as Hfuel.
    pose proof (cached_chain NBUCKET _ cs _ hd c0 dv bn Hs eq_refl Hhd Hc0)
      as Hcached.
    unfold bget in R. rewrite Hhd in R.
    rewrite (scan_hit_chain _ _ _ _ _ _ Hch Hfuel) in R.
    destruct (first_match (bufs (cache s)) c0 dv bn) as [h|] eqn:Hfm.
    - left. apply acquiresleep_Ret in R as (_ & -> & _).
      eapply same_links_trans; apply same_links_upd; reflexivity.
    - rewrite (scan_lru_chain _ _ _ _ _ _ Hch Hfuel) in R.
      destruct (lru (bufs (cache s)) c0 UINT32_MAX None) as [m [x|]] eqn:Hlru.
      + left. apply acquiresleep_Ret in R as (_ & -> & _).
        eapply same_links_trans; apply same_links_upd; reflexivity.
      + right. split; [exact Hcached|].
        intros hd' ch a bf Hhd' Hch' Ha Hbf Hz.
        rewrite Hhd in Hhd'. injection Hhd' as <-.
        rewrite (chain_inj _ _ _ _ Hch' Hch) in Ha.
        destruct (lru_spec _ _ _ _ _ _ Hlru)
          as (_ & Hmin & [[_ ->]|(y & by' & E & _)]);
          [intros i Hi; eapply chain_lookup; [exact Hch | exact Hi]
          | | discriminate].
        specialize (Hmin _ _ Ha Hbf Hz). lia. }
  destruct c as [dv bn|dv bn|b|b ticks|b|b]; simpl in He.
  - destruct (bget NBUCKET (cache s) dv bn) as [st b| | | |] eqn:E;
      try discriminate.
    injection He as <-. simpl.
    destruct (Hget _ _ _ _ E) as [Hsame|Hno]; [now left|].
    right. exists dv, bn. split; [now left | exact Hno].
  - destruct (bread NBUCKET (cache s) dv bn) as [st b| | | |] eqn:E;
      try discriminate.
    injection He as <-. simpl.
    destruct (bread_Ret _ _ _ _ _ E) as (st1 & bf1 & G & _ & ->).
    destruct (Hget _ _ _ _ G) as [Hsame|Hno].
    + left. destruct (valid bf1 =? 0); [|exact Hsame].
      eapply same_links_trans; [exact Hsame|].
      eapply same_links_trans; [apply same_links_disk_io|].
      apply same_links_upd. reflexivity.
    + right. exists dv, bn. split; [now right | exact Hno].
  - left. apply on_handle_Some in He as (_ & st & E & ->). simpl.
    unfold bwrite in E. destruct (bufs (cache s) !! b) as [bf|]; [|discriminate].
    destruct (negb (locked bf)); [discriminate|]. injection E as <-.
    apply same_links_disk_io.
  - left. apply on_handle_Some in He as (_ & st & E & ->). simpl.
    unfold brelse in E. destruct (bufs (cache s) !! b) as [bf|]; [|discriminate].
    destruct (negb (locked bf)); [discriminate|].
    destruct (heads (cache s) !! hash NBUCKET (blockno bf)); [|discriminate].
    injection E as <-. apply same_links_upd.
    intros x. destruct (uint (refcnt bf - 1) =? 0); reflexivity.
  - left. apply on_handle_Some in He as (_ & st & E & ->). simpl.
    unfold bpin in E. destruct (bufs (cache s) !! b) as [bf|]; [|discriminate].
    destruct (heads (cache s) !! hash NBUCKET (blockno bf)); [|discriminate].
    injection E as <-. apply same_links_upd. reflexivity.
  - left. apply on_handle_Some in He as (_ & st & E & ->). simpl.
    unfold bunpin in E. destruct (bufs (cache s) !! b) as [bf|]; [|discriminate].
    destruct (heads (cache s) !! hash NBUCKET (blockno bf)); [|discriminate].
    injection E as <-. apply same_links_upd. reflexivity.
Qed.

(** X22: [binit] leaves a pool of [NBUF] descriptors and [NBUCKET] bucket
    heads, every descriptor idle, unlocked and not valid, the ones on
    the chain of bucket [k] with block number [k], and it does no disk
    I/O; so the first [bread] of any block calls the disk driver. *)
Theorem binit_leaves_every_descriptor_idle :
  length (bufs (binit NBUF NBUCKET)) = NBUF /\
  length (heads (binit NBUF NBUCKET)) = NBUCKET /\
  disk_io (binit NBUF NBUCKET) = [] /\
  (forall i bf, bufs (binit NBUF NBUCKET) !! i = Some bf ->
     valid bf = 0 /\ dev bf = 0 /\ locked bf = false /\
     refcnt bf = 0 /\ time_stamp bf = 0) /\
  (forall k hd c i bf,
     heads (binit NBUF NBUCKET) !! k = Some hd ->
     chain (bufs (binit NBUF NBUCKET)) hd c -> i ∈ c ->
     bufs (binit NBUF NBUCKET) !! i = Some bf -> blockno bf = Z.of_nat k) /\
  (forall dv bn st' b,
     bread NBUCKET (binit NBUF NBUCKET) dv bn = Ret st' b ->
     disk_io st' = [(b, false)]).
Proof.
  destruct (binit_linked NBUF NBUCKET) as (cs & [Lp Lb Ls Lw La Lk Li]).
  destruct binit_fresh as [Hf Hio]. pose proof Ls as [Sl Sc Sn Sd].
  assert (Hall : forall i bf, bufs (binit NBUF NBUCKET) !! i = Some bf -> fresh bf).
  { intros i bf Hi. rewrite Forall_lookup in Hf. eauto. }
  split; [exact Lp|]. split; [congruence|]. split; [exact Hio|].
  split; [exact Hall|]. split.
  - intros k hd c i bf Hh Hch Hi Hbf.
    destruct (lookup_lt_is_Some_2 cs k) as [c0 Hc0].
    { rewrite <- Sl. eapply lookup_lt_Some; eauto. }
    rewrite (chain_inj _ _ _ _ Hch (Sc _ _ _ Hh Hc0)) in Hi. eauto.
  - intros dv bn st' b R.
    destruct (bread_disk_io _ _ _ _ _ R) as [Hmiss Hhit].
    destruct (cached NBUCKET (binit NBUF NBUCKET) dv bn) as [h|] eqn:Hc.
    + destruct (cached_Some _ _ _ _ Hc) as (bh & Hbh & _).
      destruct (Hhit h bh eq_refl Hbh) as (-> & ->).
      destruct (Hall _ _ Hbh) as (-> & _). simpl. now rewrite Hio.
    + rewrite (Hmiss eq_refl). now rewrite Hio.
Qed.

Lemma binit_link_numbered q i st b :
  numbered q st b -> (b `div` q = i)%nat ->
  numbered q (fst (binit_link i (st, b))) (S b).
Proof.
  intros Hn Hb j bf Hj Hbf. simpl in Hbf.
  destruct (decide (b = j)) as [<-|Hne].
  - rewrite !list_lookup_alter_eq in Hbf.
    destruct (bufs st !! b) as [x|]; [|discriminate].
    injection Hbf as <-. simpl. now rewrite Hb.
  - rewrite !list_lookup_alter_ne in Hbf by exact Hne.
    apply Hn; [lia | exact Hbf].
Qed.

Lemma binit_bucket_numbered q i : forall (l : list nat) st b,
  numbered q st b -> (i * q <= b)%nat -> (b + length l <= i * q + q)%nat ->
  numbered q (fst (foldl (fun a _ => binit_link i a) (st, b) l)) (b + length l) /\
  snd (foldl (fun a _ => binit_link i a) (st, b) l) = (b + length l)%nat.
Proof.
  induction l as [|x l IH]; intros st b Hn Hlo Hhi.
  - simpl. rewrite Nat.add_0_r. auto.
  - simpl in Hhi. cbn [foldl].
    assert (Hq : (b `div` q = i)%nat).
    { symmetry. apply Nat.div_unique with (r := (b - i * q)%nat); lia. }
    pose proof (binit_link_numbered q i st b Hn Hq) as Hn1.
    destruct (binit_link i (st, b)) as [st1 b1] eqn:E.
    assert (b1 = S b) as -> by (unfold binit_link in E; now injection E).
    simpl in Hn1. destruct (IH st1 (S b) Hn1) as [Hn' Hb']; [lia | lia |].
    simpl. replace (b + S (length l))%nat with (S b + length l)%nat by lia.
    auto.
Qed.

Lemma binit_buckets_numbered : forall n lo st,
  numbered (NBUF `div` NBUCKET) st (lo * (NBUF `div` NBUCKET)) ->
  numbered (NBUF `div` NBUCKET)
    (fst (foldl (binit_bucket NBUF NBUCKET) (st, (lo * (NBUF `div` NBUCKET))%nat)
                (seq lo n)))
    ((lo + n) * (NBUF `div` NBUCKET)).
Proof.
  induction n as [|n IH]; intros lo st Hn.
  - simpl. now rewrite Nat.add_0_r.
  - cbn [seq foldl]. unfold binit_bucket at 2.
    destruct (binit_bucket_numbered (NBUF `div` NBUCKET) lo
                (seq 0 (NBUF `div` NBUCKET)) st _ Hn) as [Hn1 Hb1];
      [lia | rewrite length_seq; lia |].
    rewrite length_seq in Hn1, Hb1.
    destruct (foldl (fun a _ => binit_link lo a)
                (st, (lo * (NBUF `div` NBUCKET))%nat)
                (seq 0 (NBUF `div` NBUCKET))) as [st1 b1] eqn:E.
    simpl in Hn1, Hb1. subst b1.
    replace (lo * (NBUF `div` NBUCKET) + NBUF `div` NBUCKET)%nat
      with (S lo * (NBUF `div` NBUCKET))%nat in * by lia.
    specialize (IH (S lo) st1 Hn1).
    replace ((lo + S n) * (NBUF `div` NBUCKET))%nat
      with ((S lo + n) * (NBUF `div` NBUCKET))%nat by lia.
    exact IH.
Qed.

Lemma binit_numbered :
  numbered (NBUF `div` NBUCKET) (binit NBUF NBUCKET)
           (NBUCKET * (NBUF `div` NBUCKET)).
Proof.
  unfold binit.
  pose proof (binit_buckets_numbered NBUCKET 0 (init_sleeplocks (zeroed NBUF NBUCKET)))
    as H.
  simpl in H. apply H.
  intros j bf Hj. lia.
Qed.

(** X23: [binit] gives every bucket the same share: the chain of bucket
    [k] holds exactly the [NBUF / NBUCKET] descriptors
    [k * (NBUF / NBUCKET)], ..., [(k + 1) * (NBUF / NBUCKET) - 1]. *)
Theorem binit_shares_descriptors_evenly k hd c :
  heads (binit NBUF NBUCKET) !! k = Some hd ->
  chain (bufs (binit NBUF NBUCKET)) hd c ->
  c ≡ₚ seq (k * (NBUF `div` NBUCKET)) (NBUF `div` NBUCKET) /\
  length c = (NBUF `div` NBUCKET)%nat.
Proof.
  intros Hh Hch.
  destruct (binit_linked NBUF NBUCKET) as (cs & [Lp Lb Ls Lw La Lk Li]).
  pose proof Ls as [Sl Sc Sn Sd]. pose proof binit_numbered as Hnum.
  set (q := (NBUF `div` NBUCKET)%nat) in *.
  destruct (lookup_lt_is_Some_2 cs k) as [c0 Hc0].
  { rewrite <- Sl. eapply lookup_lt_Some; eauto. }
  pose proof (chain_inj _ _ _ _ Hch (Sc _ _ _ Hh Hc0)) as ->.
  pose proof (lookup_lt_Some _ _ _ Hc0) as Hk.
  assert (Hperm : c0 ≡ₚ seq (k * q) q).
  { apply NoDup_Permutation; [eapply Sn; eauto | apply NoDup_seq|].
    intros i. rewrite elem_of_seq. split.
    - intros Hi. pose proof (Lw _ _ _ Hc0 Hi) as Hlt.
      destruct (lookup_lt_is_Some_2 (bufs (binit NBUF NBUCKET)) i) as [bf Hbf].
      { pose proof (Nat.Div0.mul_div_le NBUF NBUCKET). fold q in H. lia. }
      pose proof (Lk _ _ _ _ Hc0 Hi Hbf) as Hb.
      rewrite (Hnum _ _ Hlt Hbf) in Hb. apply Nat2Z.inj in Hb.
      assert (Hq : (q ≠ 0)%nat) by (intros E; rewrite E in Hlt; lia).
      pose proof (Nat.div_mod_eq i q). pose proof (Nat.mod_upper_bound i q Hq).
      rewrite Hb in *. lia.
    - intros Hi.
      assert (Hlt : (i < NBUCKET * q)%nat) by nia.
      destruct (La i Hlt) as (k' & c' & Hc' & Hin).
      destruct (lookup_lt_is_Some_2 (bufs (binit NBUF NBUCKET)) i) as [bf Hbf].
      { pose proof (Nat.Div0.mul_div_le NBUF NBUCKET). fold q in H. lia. }
      pose proof (Lk _ _ _ _ Hc' Hin Hbf) as Hb.
      rewrite (Hnum _ _ Hlt Hbf) in Hb. apply Nat2Z.inj in Hb.
      assert (Hik : (i `div` q = k)%nat).
      { symmetry. apply Nat.div_unique with (r := (i - k * q)%nat); lia. }
      rewrite Hik in Hb. subst k'. rewrite Hc0 in Hc'. now injection Hc' as <-. }
  split; [exact Hperm|]. rewrite Hperm. apply length_seq.
Qed.

Lemma bget_others st dv bn st' b i bi :
  bget NBUCKET st dv bn = Ret st' b -> i ≠ b -> bufs st !! i = Some bi ->
  exists bf, bufs st' !! i = Some bf /\ same_but_next bf bi.
Proof.
  intros R Hne Hi.
  destruct (bget_settles NBUCKET st dv bn st' b (or_introl R))
    as (st_m & E & Hset).
  rewrite E in R. apply acquiresleep_Ret in R as (_ & -> & _).
  destruct (settled_others _ _ _ _ _ _ _ _ Hset Hne Hi) as (bf & Hbf & Hs).
  exists bf. split; [|exact Hs]. rewrite lookup_upd_ne by congruence. exact Hbf.
Qed.

(** X24: a call that returns changes no descriptor but the one it names
    or returns, apart from the chain pointers [bget] rewrites: every
    other descriptor keeps its key, its valid flag, its lock, its
    reference count and its time stamp. *)
Theorem calls_leave_other_descriptors_alone s c s' i bi :
  exec NBUCKET s c = Some s' -> subject c s' ≠ Some i ->
  bufs (cache s) !! i = Some bi ->
  exists bf, bufs (cache s') !! i = Some bf /\ same_but_next bf bi.
Proof.
  intros He Hs Hi. destruct c as [dv bn|dv bn|b|b ticks|b|b]; simpl in He, Hs.
  - destruct (bget NBUCKET (cache s) dv bn) as [st b| | | |] eqn:E;
      try discriminate.
    injection He as <-. simpl in *.
    eapply bget_others; eauto; intros ->; now apply Hs.
  - destruct (bread NBUCKET (cache s) dv bn) as [st b| | | |] eqn:E;
      try discriminate.
    injection He as <-. simpl in *.
    destruct (bread_Ret _ _ _ _ _ E) as (st1 & bf1 & G & _ & ->).
    assert (Hne : i ≠ b) by (intros ->; now apply Hs).
    destruct (bget_others _ _ _ _ _ _ _ G Hne Hi) as (bf & Hbf & Hsb).
    exists bf. split; [|exact Hsb].
    destruct (valid bf1 =? 0); [|exact Hbf].
    rewrite lookup_upd_ne by congruence. exact Hbf.
  - apply on_handle_Some in He as (_ & st & E & ->). simpl.
    unfold bwrite in E. destruct (bufs (cache s) !! b) as [bf|]; [|discriminate].
    destruct (negb (locked bf)); [discriminate|]. injection E as <-.
    exists bi. split; [exact Hi | apply same_but_next_refl].
  - apply on_handle_Some in He as (_ & st & E & ->). simpl.
    unfold brelse in E. destruct (bufs (cache s) !! b) as [bf|]; [|discriminate].
    destruct (negb (locked bf)); [discriminate|].
    destruct (heads (cache s) !! hash NBUCKET (blockno bf)); [|discriminate].
    injection E as <-. exists bi. rewrite lookup_upd_ne by congruence.
    split; [exact Hi | apply same_but_next_refl].
  - apply on_handle_Some in He as (_ & st & E & ->). simpl.
    unfold bpin in E. destruct (bufs (cache s) !! b) as [bf|]; [|discriminate].
    destruct (heads (cache s) !! hash NBUCKET (blockno bf)); [|discriminate].
    injection E as <-. exists bi. rewrite lookup_upd_ne by congruence.
    split; [exact Hi | apply same_but_next_refl].
  - apply on_handle_Some in He as (_ & st & E & ->). simpl.
    unfold bunpin in E. destruct (bufs (cache s) !! b) as [bf|]; [|discriminate].
    destruct (heads (cache s) !! hash NBUCKET (blockno bf)); [|discriminate].
    injection E as <-. exists bi. rewrite lookup_upd_ne by congruence.
    split; [exact Hi | apply same_but_next_refl].
Qed.

(** X25: only [bread] and [bwrite] call the disk driver: a [bwrite] that
    returns adds one write of its buffer to the log, a [bread] adds
    nothing or one read of the buffer it returns, and [bget], [brelse],
    [bpin] and [bunpin] add nothing. *)
Theorem only_bread_and_bwrite_call_the_disk s c s' :
  exec NBUCKET s c = Some s' -> disk_calls c s s'.
Proof.
  intros He. destruct c as [dv bn|dv bn|b|b ticks|b|b]; simpl in He |- *.
  - destruct (bget NBUCKET (cache s) dv bn) as [st b| | | |] eqn:E;
      try discriminate.
    injection He as <-. simpl.
    destruct (bget_Ret_fields _ _ _ _ _ E) as (_ & _ & _ & _ & _ & _ & _ & _ & Hio).
    exact Hio.
  - destruct (bread NBUCKET (cache s) dv bn) as [st b| | | |] eqn:E;
      try discriminate.
    injection He as <-. simpl.
    destruct (bread_Ret _ _ _ _ _ E) as (st1 & bf1 & G & _ & ->).
    destruct (bget_Ret_fields _ _ _ _ _ G) as (_ & _ & _ & _ & _ & _ & _ & _ & Hio).
    destruct (valid bf1 =? 0); [right | now left].
    exists b. simpl. now rewrite Hio.
  - apply on_handle_Some in He as (_ & st & E & ->). simpl.
    unfold bwrite in E. destruct (bufs (cache s) !! b) as [bf|]; [|discriminate].
    destruct (negb (locked bf)); [discriminate|]. now injection E as <-.
  - apply on_handle_Some in He as (_ & st & E & ->). simpl.
    unfold brelse in E. destruct (bufs (cache s) !! b) as [bf|]; [|discriminate].
    destruct (negb (locked bf)); [discriminate|].
    destruct (heads (cache s) !! hash NBUCKET (blockno bf)); [|discriminate].
    now injection E as <-.
  - apply on_handle_Some in He as (_ & st & E & ->). simpl.
    unfold bpin in E. destruct (bufs (cache s) !! b) as [bf|]; [|discriminate].
    destruct (heads (cache s) !! hash NBUCKET (blockno bf)); [|discriminate].
    now injection E as <-.
  - apply on_handle_Some in He as (_ & st & E & ->). simpl.
    unfold bunpin in E. destruct (bufs (cache s) !! b) as [bf|]; [|discriminate].
    destruct (heads (cache s) !! hash NBUCKET (blockno bf)); [|discriminate].
    now injection E as <-.
Qed.

End Use.

(** X26: with 13 buckets and a pool that is a multiple of 13: when the
    block is not cached and its bucket has no idle descriptor stamped
    below 2^32-1 while the pool has one, [bget] takes an idle descriptor
    whose stamp is the smallest of all idle descriptors of the pool,
    unlinks it from the chain of the bucket of its old block, which is
    another bucket, and links it in front of the chain of the requested
    block's bucket, with the new key, not valid, and one reference. *)
Theorem bget_moves_the_pool_lru_to_the_bucket NBUF calls s dv bn hd c :
  (NBUF `mod` 13 = 0)%nat ->
  run 13 (boot NBUF 13) calls = Some s ->
  heads (cache s) !! hash 13 bn = Some hd ->
  chain (bufs (cache s)) hd c ->
  cached 13 (cache s) dv bn = None ->
  (forall a bf, a ∈ c -> bufs (cache s) !! a = Some bf -> refcnt bf = 0 ->
                ~ time_stamp bf < UINT32_MAX) ->
  (exists a bf, bufs (cache s) !! a = Some bf /\ refcnt bf = 0 /\
                time_stamp bf < UINT32_MAX) ->
  exists b ba st_m l1 l2 hd0,
    bufs (cache s) !! b = Some ba /\ refcnt ba = 0 /\
    (forall a bf, bufs (cache s) !! a = Some bf -> refcnt bf = 0 ->
                  time_stamp ba <= time_stamp bf) /\
    bget 13 (cache s) dv bn = acquiresleep st_m b /\
    hash 13 (blockno ba) ≠ hash 13 bn /\
    heads (cache s) !! hash 13 (blockno ba) = Some hd0 /\
    chain (bufs (cache s)) hd0 (l1 ++ b :: l2) /\
    (exists hd1, heads st_m !! hash 13 (blockno ba) = Some hd1 /\
                 chain (bufs st_m) hd1 (l1 ++ l2)) /\
    (exists hd2, heads st_m !! hash 13 bn = Some hd2 /\
                 chain (bufs st_m) hd2 (b :: c)) /\
    (exists bf, bufs st_m !! b = Some bf /\ dev bf = dv /\ blockno bf = bn /\
                valid bf = 0 /\ refcnt bf = 1).
Proof.
  intros Hdiv Hr Hhd Hch Hmiss Hlocal (a0 & bf0 & Ha0 & Hz0 & Ht0).
  destruct (reachable_inv NBUF 13 calls s Hr) as (cs & Hs & Hk & Hl & Hp & Hc).
  pose proof Hs as [Sl Sc Sn Sd].
  set (st := cache s) in *. set (id := hash 13 bn) in *.
  destruct (lookup_lt_is_Some_2 cs id) as [c0 Hc0].
  { rewrite <- Sl. eapply lookup_lt_Some; eauto. }
  pose proof (chain_inj _ _ _ _ Hch (Sc _ _ _ Hhd Hc0)) as ->.
  pose proof (shape_fuel _ _ _ _ Hs Hc0) as Hfuel.
  assert (Hfm : first_match (bufs st) c0 dv bn = None).
  { now rewrite <- (cached_chain 13 _ cs _ hd c0 dv bn Hs eq_refl Hhd Hc0). }
  unfold bget. fold id. rewrite Hhd.
  rewrite (scan_hit_chain _ _ _ _ _ _ Hch Hfuel), Hfm.
  rewrite (scan_lru_chain _ _ _ _ _ _ Hch Hfuel).
  destruct (lru (bufs st) c0 UINT32_MAX None) as [m r] eqn:Hlru.
  destruct (lru_spec _ _ _ _ _ _ Hlru)
    as (_ & _ & [[-> ->]|(x & bx & _ & Hx & Hbx & Hzx & Htx & Hltx)]);
    [intros i Hi; eapply chain_lookup; [exact Hch | exact Hi] | |].
  2:{ exfalso. apply (Hlocal x bx Hx Hbx Hzx). lia. }
  unfold bget_steal.
  destruct (scan_pool (bufs st) 0 UINT32_MAX None) as [m r] eqn:Hpool.
  destruct (scan_pool_spec _ _ _ _ _ _ Hpool)
    as (_ & Hmin & [[_ ->]|(b & ba & -> & Hba & Hz & Hts & Hlt)]).
  { specialize (Hmin _ _ Ha0 Hz0). lia. }
  cbn [Nat.add]. rewrite Hba.
  change (Z.to_nat (blockno ba mod 13)) with (hash 13 (blockno ba)).
  set (findid := hash 13 (blockno ba)).
  assert (Hblt : (b < 13 * (NBUF `div` 13))%nat).
  { apply lookup_lt_Some in Hba. pose proof (Nat.div_mod_eq NBUF 13). lia. }
  apply Hc in Hblt as (k & cf & Hcf & Hin).
  pose proof (ky_hash _ _ _ _ Hk _ _ _ _ Hcf Hin Hba) as Hkk.
  fold findid in Hkk. subst k.
  assert (Hbc : b ∉ c0).
  { intros Hb. apply (Hlocal b ba Hb Hba Hz). lia. }
  assert (Hne : findid ≠ id).
  { intros E. rewrite E, Hc0 in Hcf. injection Hcf as <-. contradiction. }
  destruct (lookup_lt_is_Some_2 (heads st) findid) as [now0 Hnow].
  { rewrite Sl. eapply lookup_lt_Some; eauto. }
  rewrite Hnow.
  pose proof (Sc _ _ _ Hnow Hcf) as Hchf.
  pose proof (shape_fuel _ _ _ _ Hs Hcf) as Hfuelf.
  destruct (list_elem_of_split_l _ _ Hin) as (l1 & l2 & -> & Hl1).
  rewrite (find_pre_found st b l2 l1 _ (HeadOf findid) now0); auto.
  2:{ rewrite length_app in Hfuelf. simpl in Hfuelf. lia. }
  set (pre := link_before (HeadOf findid) l1).
  set (st1 := link_set_next st pre (next ba)).
  set (cs1 := <[findid := l1 ++ l2]> cs).
  pose proof (lookup_lt_Some _ _ _ Hcf) as Hfindlt.
  pose proof (lookup_lt_Some _ _ _ Hc0) as Hidlt.
  assert (Hs1 : shape st1 cs1) by (eapply shape_unlink; eauto).
  destruct (link_set_next_lookup_inv st pre (next ba) b ba Hba)
    as (ba1 & Hba1 & _). fold st1 in Hba1.
  assert (Hl1len : length (heads st1) = length (heads st)).
  { unfold st1. destruct pre; simpl; [apply length_insert | reflexivity]. }
  destruct (lookup_lt_is_Some_2 (heads st1) id) as [h Hh].
  { rewrite Hl1len. eapply lookup_lt_Some; eauto. }
  rewrite Hh.
  assert (Hc1 : cs1 !! id = Some c0).
  { unfold cs1. now rewrite list_lookup_insert_ne. }
  assert (Hfree : forall k c', cs1 !! k = Some c' -> b ∉ c').
  { intros k c' Hc' Hin'. unfold cs1 in Hc'.
    pose proof (Sn _ _ Hcf) as Hnd.
    destruct (decide (findid = k)) as [<-|Hnk].
    - rewrite list_lookup_insert_eq in Hc' by lia. injection Hc' as <-.
      apply NoDup_app in Hnd as (_ & N2 & N3).
      apply NoDup_cons in N3 as [N3 _].
      apply elem_of_app in Hin' as [?|?]; [eapply N2; eauto; now left | contradiction].
    - rewrite list_lookup_insert_ne in Hc' by done.
      apply Hnk. eapply (Sd findid k); eauto;
        apply elem_of_app; right; now left. }
  set (st3 := set_head (upd st1 b (set_next h)) id (Some b)).
  assert (Hs3 : shape (upd st3 b (repurpose dv bn)) (<[id := b :: c0]> cs1)).
  { apply shape_upd; [|intros x; reflexivity].
    apply shape_push; eauto. }
  pose proof Hs3 as [Sl3 Sc3 _ _].
  exists b, ba, (upd st3 b (repurpose dv bn)), l1, l2, now0.
  split; [exact Hba|]. split; [exact Hz|]. split.
  { intros a bf Ha Hza. rewrite Hts. eauto. }
  split; [reflexivity|]. split; [exact Hne|]. split; [exact Hnow|].
  split; [exact Hchf|].
  assert (Hlen3 : length (heads (upd st3 b (repurpose dv bn))) = length cs).
  { rewrite Sl3. unfold cs1. now rewrite !length_insert. }
  split; [|split].
  - destruct (lookup_lt_is_Some_2 (heads (upd st3 b (repurpose dv bn))) findid)
      as [hd1 Hhd1]; [lia|].
    exists hd1. split; [exact Hhd1|]. apply (Sc3 findid); [exact Hhd1|].
    rewrite list_lookup_insert_ne by congruence.
    unfold cs1. now rewrite list_lookup_insert_eq.
  - destruct (lookup_lt_is_Some_2 (heads (upd st3 b (repurpose dv bn))) id)
      as [hd2 Hhd2]; [lia|].
    exists hd2. split; [exact Hhd2|]. apply (Sc3 id); [exact Hhd2|].
    apply list_lookup_insert_eq. unfold cs1. now rewrite length_insert.
  - eexists. split.
    + unfold st3. simpl. rewrite !list_lookup_alter_eq, Hba1. reflexivity.
    + simpl. auto.
Qed.


(** *** The theorems on a pool of 13 descriptors *)

Lemma bread_reads_the_disk_when_not_valid_witness :
  exists st',
    bread 13 (binit 13 13) 1 7 = Ret st' 7%nat /\
    (cached 13 (binit 13 13) 1 7 = None ->
       disk_io st' = (7%nat, false) :: disk_io (binit 13 13)).
Proof.
  eexists. split; [vm_compute; reflexivity|].
  apply (bread_reads_the_disk_when_not_valid 13 (binit 13 13) 1 7).
  vm_compute; reflexivity.
Defined.

Lemma buffer_read_can_be_written_and_released_witness :
  exists st1,
    bread 13 (binit 13 13) 1 7 = Ret st1 7%nat /\
    bwrite st1 7 = Ret (virtio_disk_rw st1 7 true) tt.
Proof.
  eexists. split; [vm_compute; reflexivity|].
  apply (buffer_read_can_be_written_and_released 13 (binit 13 13) 1 7 _ 7 0).
  vm_compute; reflexivity.
Defined.

Lemma block_read_again_after_release_is_a_hit_witness :
  exists st1,
    run 13 (boot 13 13) [] = Some (boot 13 13) /\
    bread 13 (cache (boot 13 13)) 1 7 = Ret st1 7%nat /\
    exists st2 st3,
      brelse 13 st1 7 3 = Ret st2 tt /\
      cached 13 st2 1 7 = Some 7%nat /\
      bread 13 st2 1 7 = Ret st3 7%nat /\
      disk_io st3 = disk_io st1.
Proof.
  eexists. split; [reflexivity|]. split; [vm_compute; reflexivity|].
  apply (block_read_again_after_release_is_a_hit 13 13 [] (boot 13 13) 1 7);
    [reflexivity | vm_compute; reflexivity].
Defined.

Lemma bget_of_a_held_block_sleeps_witness :
  exists st1,
    run 13 (boot 13 13) [] = Some (boot 13 13) /\
    bget 13 (cache (boot 13 13)) 1 7 = Ret st1 7%nat /\
    bget 13 st1 1 7 =
      Sleeps (upd st1 7 (fun bf => set_refcnt (uint (refcnt bf + 1)) bf)) 7.
Proof.
  eexists. split; [reflexivity|]. split; [vm_compute; reflexivity|].
  apply (bget_of_a_held_block_sleeps 13 13 [] (boot 13 13) 1 7);
    [reflexivity | vm_compute; reflexivity].
Defined.

Lemma bpin_and_bunpin_cancel_witness :
  run 13 (boot 13 13) [] = Some (boot 13 13) /\
  forall st1, bpin 13 (cache (boot 13 13)) 7 = Ret st1 tt ->
              bunpin 13 st1 7 = Ret (cache (boot 13 13)) tt.
Proof.
  split; [reflexivity|].
  exact (proj1 (bpin_and_bunpin_cancel 13 13 [] (boot 13 13) 7 eq_refl)).
Defined.

Lemma chains_change_only_on_pool_eviction_witness :
  exists s',
    run 13 (boot 13 13) [] = Some (boot 13 13) /\
    exec 13 (boot 13 13) (Bget 1 7) = Some s' /\
    (same_links (cache (boot 13 13)) (cache s') \/
     exists dv bn,
       (Bget 1 7 = Bget dv bn \/ Bget 1 7 = Bread dv bn) /\
       cached 13 (cache (boot 13 13)) dv bn = None /\
       forall hd ch a bf,
         heads (cache (boot 13 13)) !! hash 13 bn = Some hd ->
         chain (bufs (cache (boot 13 13))) hd ch -> a ∈ ch ->
         bufs (cache (boot 13 13)) !! a = Some bf -> refcnt bf = 0 ->
         ~ time_stamp bf < UINT32_MAX).
Proof.
  eexists. split; [reflexivity|]. split; [vm_compute; reflexivity|].
  apply (chains_change_only_on_pool_eviction 13 13 [] (boot 13 13));
    [reflexivity | vm_compute; reflexivity].
Defined.

Lemma bget_moves_the_pool_lru_to_the_bucket_witness :
  exists s,
    run 13 (boot 13 13) [Bget 1 7] = Some s /\
    cached 13 (cache s) 1 20 = None /\
    exists b ba st_m,
      bufs (cache s) !! b = Some ba /\ refcnt ba = 0 /\
      bget 13 (cache s) 1 20 = acquiresleep st_m b /\
      exists hd2, heads st_m !! hash 13 20 = Some hd2 /\
                  chain (bufs st_m) hd2 [b; 7%nat].
Proof.
  eexists. split; [vm_compute; reflexivity|]. split; [vm_compute; reflexivity|].
  match goal with
  | |- exists b ba st_m, bufs (cache ?s) !! b = Some ba /\ _ =>
      destruct (bget_moves_the_pool_lru_to_the_bucket 13 [Bget 1 7] s 1 20
                  (Some 7%nat) [7%nat])
        as (b & ba & st_m & l1 & l2 & hd0 & Hba & Hz & _ & E & _ & _ & _ & _ &
            Hnew & _)
  end.
  - reflexivity.
  - vm_compute; reflexivity.
  - vm_compute; reflexivity.
  - split; [reflexivity|]. eexists. split; [vm_compute; reflexivity|].
    reflexivity.
  - vm_compute; reflexivity.
  - intros a bf Ha Hb Hz. apply list_elem_of_singleton in Ha. subst a.
    vm_compute in Hb. injection Hb as <-. discriminate Hz.
  - exists 0%nat. eexists. split; [vm_compute; reflexivity|].
    split; reflexivity.
  - exists b, ba, st_m. auto.
Defined.

Lemma calls_leave_other_descriptors_alone_witness :
  exists s' bi,
    exec 13 (boot 13 13) (Bread 1 7) = Some s' /\
    subject (Bread 1 7) s' ≠ Some 3%nat /\
    bufs (cache (boot 13 13)) !! 3%nat = Some bi /\
    exists bf, bufs (cache s') !! 3%nat = Some bf /\ same_but_next bf bi.
Proof.
  do 2 eexists. split; [vm_compute; reflexivity|].
  split; [vm_compute; discriminate|]. split; [vm_compute; reflexivity|].
  apply (calls_leave_other_descriptors_alone 13 (boot 13 13) (Bread 1 7));
    [vm_compute; reflexivity | vm_compute; discriminate | vm_compute; reflexivity].
Defined.

Lemma only_bread_and_bwrite_call_the_disk_witness :
  exists s',
    exec 13 (boot 13 13) (Bread 1 7) = Some s' /\
    disk_calls (Bread 1 7) (boot 13 13) s'.
Proof.
  eexists. split; [vm_compute; reflexivity|].
  apply (only_bread_and_bwrite_call_the_disk 13 (boot 13 13) (Bread 1 7)).
  vm_compute; reflexivity.
Defined.

Lemma binit_shares_descriptors_evenly_witness :
  heads (binit 30 13) !! 3%nat = Some (Some 7%nat) /\
  chain (bufs (binit 30 13)) (Some 7%nat) [7%nat; 6%nat] /\
  [7%nat; 6%nat] ≡ₚ seq (3 * (30 `div` 13)) (30 `div` 13) /\
  length [7%nat; 6%nat] = (30 `div` 13)%nat.
Proof.
  split; [vm_compute; reflexivity|].
  assert (Hch : chain (bufs (binit 30 13)) (Some 7%nat) [7%nat; 6%nat]).
  { split; [reflexivity|]. eexists. split; [vm_compute; reflexivity|].
    split; [reflexivity|]. eexists. split; [vm_compute; reflexivity|].
    reflexivity. }
  split; [exact Hch|].
  apply (binit_shares_descriptors_evenly 30 13 3 (Some 7%nat));
    [vm_compute; reflexivity | exact Hch].
Defined.

Lemma released_buffer_cannot_be_released_again_witness :
  exists st1 st2,
    bread 13 (binit 13 13) 1 7 = Ret st1 7%nat /\
    brelse 13 st1 7 3 = Ret st2 tt /\
    (forall ticks', brelse 13 st2 7 ticks' = Panic "brelse") /\
    bwrite st2 7 = Panic "bwrite".
Proof.
  do 2 eexists. split; [vm_compute; reflexivity|].
  match goal with
  | |- brelse 13 ?s1 7 3 = _ /\ _ =>
      split; [vm_compute; reflexivity|];
      apply (released_buffer_cannot_be_released_again
               13 (binit 13 13) 1 7 s1 7 3);
      vm_compute; reflexivity
  end.
Defined.

End BioUse.
